(** * AssemblyScript map marshalling: [readMap] and [writeMap]

    A shallow embedding of [languages/assemblyscript/maps.go] and the
    properties of its natural-language specification.

    Guest addresses and sizes are Go [uint32] values: they are modelled as
    integers in [0, 2^32) and every arithmetic operation is written with its
    wrap-around. *)

From Stdlib Require Import ZArith List String Ascii Bool Lia.
Import ListNotations.
Open Scope Z_scope.
Set Warnings "-register-all".

(* ================================================================== *)
(** ** 32-bit unsigned arithmetic *)
(* ================================================================== *)

Module U32.

Definition modulus : Z := 2 ^ 32.

(** Conversion to [uint32]: truncation to the low 32 bits. *)
Definition wrap (z : Z) : Z := z mod modulus.

Definition add (a b : Z) : Z := wrap (a + b).
Definition sub (a b : Z) : Z := wrap (a - b).
Definition mul (a b : Z) : Z := wrap (a * b).
Definition shl (a n : Z) : Z := wrap (Z.shiftl a n).
(** Go's unary [^x] on a [uint32]. *)
Definition not (a : Z) : Z := wrap (Z.lnot a).
Definition and (a b : Z) : Z := Z.land a b.
(** Integer division; Go panics when the divisor is zero. *)
Definition div (a b : Z) : option Z :=
  if b =? 0 then None else Some (a / b).

End U32.

(* ================================================================== *)
(** ** Offset and size helpers *)
(* ================================================================== *)

(** [getSizeForOffset]: 64-bit scalars take an 8-byte slot, everything
    else a 4-byte slot. *)
Definition getSizeForOffset (typ : string) : Z :=
  if (String.eqb typ "u64" || String.eqb typ "i64" || String.eqb typ "f64")%bool
  then 8 else 4.

Definition bucketSize : Z := 4.
Definition taggedNextSize : Z := 4.
Definition headerSize : Z := 24.

(** Go's builtin [max] on three [uint32] values. *)
Definition max3 (a b c : Z) : Z := Z.max (Z.max a b) c.

(** The entry size computed in [writeMap]:
    [entryAlign := max(keySize, valueSize, 4) - 1] and
    [entrySize := (keySize + valueSize + taggedNextSize + entryAlign) & ^entryAlign]. *)
Definition entryAlign (keySize valueSize : Z) : Z :=
  U32.sub (max3 keySize valueSize 4) 1.

Definition entrySize (keySize valueSize : Z) : Z :=
  let entryAlign := entryAlign keySize valueSize in
  U32.and
    (U32.add (U32.add (U32.add keySize valueSize) taggedNextSize) entryAlign)
    (U32.not entryAlign).

(** The spec's [align(n, a)]: the next multiple of [a] at or above [n]. *)
Definition align (n a : Z) : Z := ((n + a - 1) / a) * a.

(** The capacities computed by [writeMap]:
<<
    bucketsCapacity := uint32(4)
    entriesCapacity := uint32(4)
    bucketsMask := bucketsCapacity - 1
    for bucketsCapacity < mapLen {
        bucketsCapacity <<= 1
        entriesCapacity = bucketsCapacity * 8 / 3
        bucketsMask = bucketsCapacity - 1
    }
>>
    The loop is run with fuel; [None] means the fuel ran out. *)
Record capacities : Type := mkCapacities {
  bucketsCapacity : Z;
  entriesCapacity : Z;
  bucketsMask : Z
}.

Fixpoint growCapacities (fuel : nat) (mapLen : Z) (c : capacities)
  : option capacities :=
  if bucketsCapacity c <? mapLen then
    match fuel with
    | O => None
    | S fuel' =>
        let bc := U32.shl (bucketsCapacity c) 1 in
        growCapacities fuel' mapLen
          (mkCapacities bc (U32.mul bc 8 / 3) (U32.sub bc 1))
    end
  else Some c.

Definition initialCapacities : capacities :=
  mkCapacities 4 4 (U32.sub 4 1).

(** Thirty-two doublings exhaust every [uint32] value, so this much fuel
    decides the loop (see [determineCapacities_diverges]). *)
Definition capacityFuel : nat := 32.

Definition determineCapacities (mapLen : Z) : option capacities :=
  growCapacities capacityFuel mapLen initialCapacities.

(** [p] is a power of two. *)
Definition isPow2 (p : Z) : Prop := exists k, 0 <= k /\ p = 2 ^ k.

(** [p] is the smallest power of two that is at least [n] and at least 4. *)
Definition smallestPow2AtLeast (n p : Z) : Prop :=
  isPow2 p /\ n <= p /\ 4 <= p /\
  forall q, isPow2 q -> n <= q -> 4 <= q -> p <= q.

(* ------------------------------------------------------------------ *)
(** *** Facts about the 32-bit operations *)

Lemma wrap_small (z : Z) : 0 <= z < 2 ^ 32 -> U32.wrap z = z.
Proof. intros H. unfold U32.wrap, U32.modulus. now apply Z.mod_small. Qed.

Lemma wrap_range (z : Z) : 0 <= U32.wrap z < 2 ^ 32.
Proof. unfold U32.wrap, U32.modulus. apply Z.mod_pos_bound. lia. Qed.

Lemma pow2_pos (k : Z) : 0 <= k -> 0 < 2 ^ k.
Proof. intros. apply Z.pow_pos_nonneg; lia. Qed.

Lemma pow2_le (a b : Z) : 0 <= a <= b -> 2 ^ a <= 2 ^ b.
Proof. intros. apply Z.pow_le_mono_r; lia. Qed.

Lemma pow2_lt (a b : Z) : 0 <= a < b -> 2 ^ a < 2 ^ b.
Proof. intros. apply Z.pow_lt_mono_r; lia. Qed.

(** Masking with the complement of [2^j - 1] clears the low [j] bits. *)
Lemma and_not_ones (x j : Z) :
  0 <= j -> 0 <= x < 2 ^ 32 ->
  U32.and x (U32.not (2 ^ j - 1)) = (x / 2 ^ j) * 2 ^ j.
Proof.
  intros Hj Hx.
  unfold U32.and, U32.not, U32.wrap, U32.modulus.
  rewrite <- Z.shiftr_div_pow2, <- Z.shiftl_mul_pow2 by lia.
  rewrite <- Z.ldiff_ones_r by lia.
  apply Z.bits_inj'. intros n Hn.
  rewrite Z.land_spec, Z.ldiff_spec.
  destruct (Z_lt_ge_dec n 32) as [Hlt | Hge].
  - rewrite Z.mod_pow2_bits_low by lia.
    rewrite Z.lnot_spec by lia.
    replace (2 ^ j - 1) with (Z.ones j); [reflexivity|].
    rewrite Z.ones_equiv. lia.
  - rewrite Z.mod_pow2_bits_high by lia.
    assert (Z.testbit x n = false) as ->; [|reflexivity].
    destruct (Z.eq_dec x 0) as [-> | Hnz]; [apply Z.bits_0|].
    apply Z.bits_above_log2; [lia|].
    assert (Z.log2 x < 32); [|lia].
    apply Z.log2_lt_pow2; lia.
Qed.

Lemma shl1_pow2 (k : Z) : 0 <= k < 31 -> U32.shl (2 ^ k) 1 = 2 ^ (k + 1).
Proof.
  intros Hk. unfold U32.shl. rewrite Z.shiftl_mul_pow2 by lia.
  rewrite Z.pow_add_r by lia. apply wrap_small.
  assert (2 ^ (k + 1) <= 2 ^ 31) by (apply pow2_le; lia).
  assert (0 < 2 ^ k) by (apply pow2_pos; lia).
  rewrite Z.pow_add_r in * by lia. lia.
Qed.

Lemma sub1_pow2 (k : Z) : 0 <= k <= 31 -> U32.sub (2 ^ k) 1 = 2 ^ k - 1.
Proof.
  intros Hk. unfold U32.sub. apply wrap_small.
  assert (2 ^ k <= 2 ^ 31) by (apply pow2_le; lia).
  assert (0 < 2 ^ k) by (apply pow2_pos; lia). lia.
Qed.

(* ------------------------------------------------------------------ *)
(** *** The capacity loop *)

(** Loop invariant of the doubling loop: started at [2^k] with enough fuel
    it stops at some [2^k'] that is the first one to reach [mapLen]. *)
Lemma growCapacities_inv (fuel : nat) :
  forall mapLen k ec,
    0 <= mapLen <= 2 ^ 31 ->
    2 <= k <= 31 ->
    31 - k <= Z.of_nat fuel ->
    (k = 2 \/ 2 ^ (k - 1) < mapLen) ->
    exists k',
      k <= k' <= 31 /\
      growCapacities fuel mapLen (mkCapacities (2 ^ k) ec (2 ^ k - 1)) =
        Some (mkCapacities (2 ^ k')
                (if k' =? k then ec else U32.mul (2 ^ k') 8 / 3)
                (2 ^ k' - 1)) /\
      mapLen <= 2 ^ k' /\
      (k' = 2 \/ 2 ^ (k' - 1) < mapLen).
Proof.
  induction fuel as [|fuel IH]; intros mapLen k ec Hlen Hk Hfuel Hprev.
  - assert (k = 31) as -> by lia.
    exists 31. cbn [growCapacities bucketsCapacity].
    destruct (Z.ltb_spec (2 ^ 31) mapLen) as [Hlt | Hge]; [lia|].
    rewrite Z.eqb_refl. repeat split; try lia; auto.
  - cbn [growCapacities bucketsCapacity].
    destruct (Z.ltb_spec (2 ^ k) mapLen) as [Hlt | Hge].
    + assert (k < 31).
      { destruct (Z_lt_ge_dec k 31); [assumption|].
        assert (k = 31) as -> by lia. lia. }
      rewrite shl1_pow2 by lia.
      rewrite sub1_pow2 by lia.
      destruct (IH mapLen (k + 1) (U32.mul (2 ^ (k + 1)) 8 / 3))
        as (k' & Hk' & Hrun & Hle & Hmin); try lia.
      { right. replace (k + 1 - 1) with k by lia. assumption. }
      exists k'. split; [lia|]. split; [|auto].
      rewrite Hrun. f_equal. f_equal.
      destruct (Z.eqb_spec k' (k + 1)) as [Heq | Hne];
        destruct (Z.eqb_spec k' k); try lia; try reflexivity.
      now rewrite Heq.
    + exists k. rewrite Z.eqb_refl. repeat split; try lia; auto.
Qed.

Lemma pow2_minimal (n k : Z) :
  2 <= k -> n <= 2 ^ k -> (k = 2 \/ 2 ^ (k - 1) < n) ->
  smallestPow2AtLeast n (2 ^ k).
Proof.
  intros Hk Hle Hmin. unfold smallestPow2AtLeast, isPow2.
  split; [exists k; split; [lia | reflexivity]|].
  split; [assumption|].
  split; [change 4 with (2 ^ 2); apply pow2_le; lia|].
  intros q (j & Hj & ->) Hnq H4q.
  destruct Hmin as [-> | Hlt]; [assumption|].
  apply pow2_le. split; [lia|].
  assert (k - 1 < j); [|lia].
  apply (Z.pow_lt_mono_r_iff 2); lia.
Qed.

(** For a length above [2^31] the doubling wraps to 0 and the loop
    condition stays true: no amount of fuel ends it. *)
Lemma growCapacities_diverges (fuel : nat) :
  forall mapLen c,
    2 ^ 31 < mapLen ->
    (bucketsCapacity c = 0 \/
     exists k, 0 <= k <= 31 /\ bucketsCapacity c = 2 ^ k) ->
    growCapacities fuel mapLen c = None.
Proof.
  induction fuel as [|fuel IH]; intros mapLen c Hlen Hbc;
    cbn [growCapacities];
    assert (bucketsCapacity c < mapLen) as Hlt
      by (destruct Hbc as [-> | (k & Hk & ->)];
          [lia | assert (2 ^ k <= 2 ^ 31) by (apply pow2_le; lia); lia]);
    apply Z.ltb_lt in Hlt; rewrite Hlt; [reflexivity|].
  apply IH; [assumption|]. cbn [bucketsCapacity].
  destruct Hbc as [-> | (k & Hk & ->)]; [left; reflexivity|].
  destruct (Z.eq_dec k 31) as [-> | Hne]; [left; reflexivity|].
  right. exists (k + 1). split; [lia|]. apply shl1_pow2. lia.
Qed.

Lemma determineCapacities_diverges (mapLen : Z) (fuel : nat) :
  2 ^ 31 < mapLen ->
  growCapacities fuel mapLen initialCapacities = None.
Proof.
  intros H. apply growCapacities_diverges; [assumption|].
  right. exists 2. split; [lia | reflexivity].
Qed.

(** C2 (as amended).  For every element count up to [2^31] the loop ends;
    [bucketsCapacity] is the smallest power of two that is at least the
    count and at least 4, and [bucketsMask] is one less.  [entriesCapacity]
    keeps its initial value 4 while the count is at most 4 (the loop body
    never runs), and is [bucketsCapacity * 8 / 3] in [uint32] arithmetic
    once the loop has run; the product is exact for counts up to [2^28]. *)
Theorem determineCapacities_spec (mapLen : Z) :
  0 <= mapLen <= 2 ^ 31 ->
  exists c,
    determineCapacities mapLen = Some c /\
    smallestPow2AtLeast mapLen (bucketsCapacity c) /\
    bucketsMask c = bucketsCapacity c - 1 /\
    (mapLen <= 4 -> bucketsCapacity c = 4 /\ entriesCapacity c = 4) /\
    (4 < mapLen -> entriesCapacity c = U32.mul (bucketsCapacity c) 8 / 3) /\
    (4 < mapLen <= 2 ^ 28 -> entriesCapacity c = bucketsCapacity c * 8 / 3).
Proof.
  intros Hlen.
  assert (Hfuel : 31 - 2 <= Z.of_nat capacityFuel) by (unfold capacityFuel; lia).
  destruct (growCapacities_inv capacityFuel mapLen 2 4 Hlen
              ltac:(lia) Hfuel (or_introl eq_refl))
    as (k & Hk & Hrun & Hle & Hmin).
  eexists. split; [exact Hrun|]. cbn [bucketsCapacity entriesCapacity bucketsMask].
  split; [apply pow2_minimal; auto; lia|].
  split; [reflexivity|].
  assert (Hbig : 4 < mapLen -> (k =? 2) = false).
  { intros H4. apply Z.eqb_neq. intros ->. change (2 ^ 2) with 4 in Hle. lia. }
  split; [|split].
  - intros Hsmall.
    assert (k = 2) as ->.
    { destruct Hmin as [? | Hlt]; [assumption|].
      assert (k - 1 < 2); [|lia].
      apply (Z.pow_lt_mono_r_iff 2); [lia | lia |].
      change (2 ^ 2) with 4. lia. }
    split; reflexivity.
  - intros H4. now rewrite (Hbig H4).
  - intros [H4 H28]. rewrite (Hbig H4). f_equal.
    unfold U32.mul. apply wrap_small.
    assert (0 < 2 ^ k) by (apply pow2_pos; lia).
    assert (k <= 28).
    { destruct Hmin as [-> | Hlt]; [lia|].
      assert (k - 1 < 28); [|lia].
      apply (Z.pow_lt_mono_r_iff 2); lia. }
    assert (2 ^ k <= 2 ^ 28) by (apply pow2_le; lia).
    change (2 ^ 28) with 268435456 in *. change (2 ^ 32) with 4294967296. lia.
Qed.

Lemma determineCapacities_spec_witness :
  exists c,
    determineCapacities 17 = Some c /\
    smallestPow2AtLeast 17 (bucketsCapacity c) /\
    bucketsMask c = bucketsCapacity c - 1 /\
    (17 <= 4 -> bucketsCapacity c = 4 /\ entriesCapacity c = 4) /\
    (4 < 17 -> entriesCapacity c = U32.mul (bucketsCapacity c) 8 / 3) /\
    (4 < 17 <= 2 ^ 28 -> entriesCapacity c = bucketsCapacity c * 8 / 3).
Proof. apply (determineCapacities_spec 17). lia. Defined.

(** C2, the claim as written fails for small counts: an empty map gets 4
    buckets and 4 entry slots, whereas [4 * 8 / 3] is 10. *)
Lemma determineCapacities_small_counterexample :
  determineCapacities 0 = Some (mkCapacities 4 4 3) /\
  determineCapacities 1 = Some (mkCapacities 4 4 3) /\
  determineCapacities 4 = Some (mkCapacities 4 4 3) /\
  4 * 8 / 3 = 10.
Proof. repeat split; reflexivity. Qed.

(** The element counts the spec lists, evaluated. *)
Example determineCapacities_listed_counts :
  map determineCapacities [0; 1; 4; 5; 16; 17] =
  [ Some (mkCapacities 4 4 3); Some (mkCapacities 4 4 3);
    Some (mkCapacities 4 4 3); Some (mkCapacities 8 21 7);
    Some (mkCapacities 16 42 15); Some (mkCapacities 32 85 31) ].
Proof. reflexivity. Qed.

(* ------------------------------------------------------------------ *)
(** *** The entry size *)

Lemma align_spec (n a : Z) :
  0 < a -> n <= align n a < n + a /\ (align n a) mod a = 0.
Proof.
  intros Ha. unfold align. split.
  - pose proof (Z.div_mod (n + a - 1) a ltac:(lia)) as Hdm.
    pose proof (Z.mod_pos_bound (n + a - 1) a Ha). lia.
  - apply Z.mod_mul. lia.
Qed.

Lemma entrySize_pow2 (keySize valueSize j : Z) :
  0 <= keySize -> 0 <= valueSize -> 0 <= j ->
  max3 keySize valueSize 4 = 2 ^ j ->
  keySize + valueSize + taggedNextSize + 2 ^ j - 1 < 2 ^ 32 ->
  entrySize keySize valueSize =
  align (keySize + valueSize + taggedNextSize) (max3 keySize valueSize 4).
Proof.
  intros Hk Hv Hj Hmax Hfit.
  unfold entrySize, entryAlign, align. rewrite Hmax.
  assert (4 <= 2 ^ j) by (rewrite <- Hmax; unfold max3; lia).
  unfold taggedNextSize in *.
  assert (U32.sub (2 ^ j) 1 = 2 ^ j - 1) as -> by (apply wrap_small; lia).
  unfold U32.add.
  rewrite (wrap_small (keySize + valueSize)) by lia.
  rewrite (wrap_small (keySize + valueSize + 4)) by lia.
  rewrite (wrap_small (keySize + valueSize + 4 + (2 ^ j - 1))) by lia.
  rewrite and_not_ones by lia.
  f_equal. f_equal. lia.
Qed.

(** C6.  For key and value sizes that are powers of two up to 8 (the sizes
    of the supported types, in particular 4 and 8), the entry size computed
    by [writeMap] is [align(keySize + valueSize + 4, max(keySize, valueSize, 4))];
    sizes (4,4) give 12 and (8,8) give 24. *)
Theorem entrySize_is_align :
  (forall keySize valueSize,
      In keySize [1; 2; 4; 8] -> In valueSize [1; 2; 4; 8] ->
      entrySize keySize valueSize =
      align (keySize + valueSize + 4) (max3 keySize valueSize 4)) /\
  entrySize 4 4 = 12 /\ entrySize 4 8 = 16 /\
  entrySize 8 4 = 16 /\ entrySize 8 8 = 24.
Proof.
  split; [|repeat split; reflexivity].
  intros keySize valueSize Hk Hv.
  assert (exists j, 0 <= j <= 3 /\ max3 keySize valueSize 4 = 2 ^ j)
    as (j & Hj & Hmax).
  { cbn in Hk, Hv.
    destruct Hk as [<- | [<- | [<- | [<- | []]]]];
      destruct Hv as [<- | [<- | [<- | [<- | []]]]];
      ((exists 2; split; [lia | reflexivity])
       || (exists 3; split; [lia | reflexivity])). }
  apply (entrySize_pow2 keySize valueSize j); try lia.
  - cbn in Hk. lia.
  - cbn in Hv. lia.
  - assert (2 ^ j <= 2 ^ 3) by (apply pow2_le; lia).
    cbn in Hk, Hv. unfold taggedNextSize.
    change (2 ^ 3) with 8 in *. change (2 ^ 32) with 4294967296. lia.
Qed.

(* ================================================================== *)
(** ** Host values, reflected types and errors *)
(* ================================================================== *)

(** A struct tag is modelled by the name it gives the field in JSON. *)
Record structField (T : Type) : Type := mkField {
  fieldName : string;
  fieldType : T;
  fieldJson : string
}.
Arguments mkField {T} _ _ _.
Arguments fieldName {T} _.
Arguments fieldType {T} _.
Arguments fieldJson {T} _.

(** The [reflect.Type]s the adapter works with.  Floating-point types have
    a name here but no values in the embedding. *)
Inductive rtype : Type :=
| TBool
| TInt (signed : bool) (bits : Z)
| TFloat (bits : Z)
| TString
| TSlice (elem : rtype)
| TMap (key value : rtype)
| TStruct (fields : list (structField rtype)).

(** [reflect.Type.Comparable]: slices and maps are not comparable, a
    struct is when all its fields are. *)
Fixpoint Comparable (t : rtype) : bool :=
  match t with
  | TBool | TInt _ _ | TFloat _ | TString => true
  | TSlice _ | TMap _ _ => false
  | TStruct fields =>
      (fix all (l : list (structField rtype)) : bool :=
         match l with
         | [] => true
         | f :: rest => Comparable (fieldType f) && all rest
         end) fields
  end.

Fixpoint rtype_eqb (a b : rtype) : bool :=
  match a, b with
  | TBool, TBool => true
  | TInt s1 b1, TInt s2 b2 => Bool.eqb s1 s2 && (b1 =? b2)
  | TFloat b1, TFloat b2 => b1 =? b2
  | TString, TString => true
  | TSlice e1, TSlice e2 => rtype_eqb e1 e2
  | TMap k1 v1, TMap k2 v2 => rtype_eqb k1 k2 && rtype_eqb v1 v2
  | TStruct f1, TStruct f2 =>
      (fix all (l1 l2 : list (structField rtype)) : bool :=
         match l1, l2 with
         | [], [] => true
         | x :: r1, y :: r2 =>
             String.eqb (fieldName x) (fieldName y) &&
             rtype_eqb (fieldType x) (fieldType y) &&
             String.eqb (fieldJson x) (fieldJson y) && all r1 r2
         | _, _ => false
         end) f1 f2
  | _, _ => false
  end.

(** Go values held in an [any].  [VNil] is the nil interface; composite
    values carry their reflected type.  A map lists its entries in the
    order [MapKeys] yields them. *)
Inductive HostValue : Type :=
| VNil
| VBool (b : bool)
| VInt (signed : bool) (bits : Z) (z : Z)
| VString (s : string)
| VSlice (elem : rtype) (items : list HostValue)
| VMap (key value : rtype) (entries : list (HostValue * HostValue))
| VStruct (t : rtype) (fields : list HostValue).

(** The dynamic type of a value; the nil interface has none. *)
Definition typeOf (v : HostValue) : option rtype :=
  match v with
  | VNil => None
  | VBool _ => Some TBool
  | VInt s b _ => Some (TInt s b)
  | VString _ => Some TString
  | VSlice e _ => Some (TSlice e)
  | VMap k v _ => Some (TMap k v)
  | VStruct t _ => Some t
  end.

(** [reflect.Value.Kind() == reflect.Map]. *)
Definition isMapKind (v : HostValue) : bool :=
  match v with VMap _ _ _ => true | _ => false end.

(** Whether [reflect] accepts [v] where a value of type [t] is expected
    ([Set], [SetMapIndex]): the types here have no interfaces, so the
    dynamic type must be [t] itself. *)
Definition assignable (v : HostValue) (t : rtype) : bool :=
  match typeOf v with
  | Some t' => rtype_eqb t' t
  | None => false
  end.

(** Go's [==] on the values used as map keys: structural equality. *)
Fixpoint valueEqb (a b : HostValue) : bool :=
  match a, b with
  | VNil, VNil => true
  | VBool x, VBool y => Bool.eqb x y
  | VInt s1 b1 z1, VInt s2 b2 z2 => Bool.eqb s1 s2 && (b1 =? b2) && (z1 =? z2)
  | VString x, VString y => String.eqb x y
  | VSlice t1 l1, VSlice t2 l2 =>
      rtype_eqb t1 t2 &&
      (fix all (l1 l2 : list HostValue) : bool :=
         match l1, l2 with
         | [], [] => true
         | x :: r1, y :: r2 => valueEqb x y && all r1 r2
         | _, _ => false
         end) l1 l2
  | VMap k1 v1 e1, VMap k2 v2 e2 =>
      rtype_eqb k1 k2 && rtype_eqb v1 v2 &&
      (fix all (l1 l2 : list (HostValue * HostValue)) : bool :=
         match l1, l2 with
         | [], [] => true
         | (x1, y1) :: r1, (x2, y2) :: r2 =>
             valueEqb x1 x2 && valueEqb y1 y2 && all r1 r2
         | _, _ => false
         end) e1 e2
  | VStruct t1 l1, VStruct t2 l2 =>
      rtype_eqb t1 t2 &&
      (fix all (l1 l2 : list HostValue) : bool :=
         match l1, l2 with
         | [], [] => true
         | x :: r1, y :: r2 => valueEqb x y && all r1 r2
         | _, _ => false
         end) l1 l2
  | _, _ => false
  end.

(** [reflect.Value.MapIndex]: the value stored under [key], if any. *)
Fixpoint MapIndex (entries : list (HostValue * HostValue)) (key : HostValue)
  : option HostValue :=
  match entries with
  | [] => None
  | (k, v) :: rest => if valueEqb k key then Some v else MapIndex rest key
  end.

Definition MapKeys (entries : list (HostValue * HostValue)) : list HostValue :=
  map fst entries.

(** Removing a key, and [m[k] = v]: an existing key keeps its place and
    gets the new value, a new key is added. *)
Fixpoint mapDelete (entries : list (HostValue * HostValue)) (key : HostValue)
  : list (HostValue * HostValue) :=
  match entries with
  | [] => []
  | (k, v) :: rest =>
      if valueEqb k key then mapDelete rest key else (k, v) :: mapDelete rest key
  end.

Fixpoint mapAssign (entries : list (HostValue * HostValue)) (key value : HostValue)
  : list (HostValue * HostValue) :=
  match entries with
  | [] => [(key, value)]
  | (k, v) :: rest =>
      if valueEqb k key then (k, value) :: rest
      else (k, v) :: mapAssign rest key value
  end.

(** Go [error] values built by [fmt.Errorf]: a plain message, a message
    with one [%T] argument, or a message wrapping a cause with [%w]. *)
Inductive error : Type :=
| Errorf (format : string)
| ErrorfT (format : string) (arg : HostValue)
| ErrorfW (format : string) (cause : error).

(** How a call ends: it returns a value, returns an error (and then no
    value), panics, or does not terminate. *)
Inductive result (A : Type) : Type :=
| Ok (a : A)
| Err (e : error)
| Panic (msg : string)
| Diverge.
Arguments Ok {A} _.
Arguments Err {A} _.
Arguments Panic {A} _.
Arguments Diverge {A}.

Definition bindR {A B : Type} (r : result A) (k : A -> result B) : result B :=
  match r with
  | Ok a => k a
  | Err e => Err e
  | Panic msg => Panic msg
  | Diverge => Diverge
  end.

Declare Scope go_scope.
Delimit Scope go_scope with go.
Notation "'let*' x ':=' e 'in' k" := (bindR e (fun x => k))
  (at level 10, x name, e at level 100, k at level 200) : go_scope.

(** [v, ok := ...; if !ok { return nil, err }]. *)
Definition orFail {A : Type} (o : option A) (e : error) : result A :=
  match o with
  | Some a => Ok a
  | None => Err e
  end.

(** [v, err := ...; if err != nil { return nil, err }]. *)
Definition check {A : Type} (r : A + error) : result A :=
  match r with
  | inl a => Ok a
  | inr e => Err e
  end.

(** [if err != nil { return 0, fmt.Errorf("...: %w", err) }]. *)
Definition checkWrap {A : Type} (format : string) (r : A + error) : result A :=
  match r with
  | inl a => Ok a
  | inr e => Err (ErrorfW format e)
  end.

Definition divideByZero : string := "runtime error: integer divide by zero".
Definition zeroValueUse : string := "reflect: call on zero Value".
Definition notAssignable : string := "reflect: value is not assignable to type".

(* ================================================================== *)
(** ** The collaborators of the map code *)
(* ================================================================== *)

(** What [readMap] and [writeMap] call on the adapter [wa]: the guest
    memory, the guest allocator with its pins, the type information, the
    field codec and the hash function.  [W] is the state of the guest
    instance; an operation that changes it returns the new state.  None of
    these operations is part of [maps.go]. *)
Class Adapter (W : Type) : Type := {
  (** [wa.mod.Memory()]: [None] is [ok == false]. *)
  ReadUint32Le : W -> Z -> option Z;
  WriteUint32Le : W -> Z -> Z -> option W;
  (** guest allocation and pinning *)
  allocateWasmMemory : W -> Z -> Z -> W * (Z + error);
  pinWasmMemory : W -> Z -> W * option error;
  unpinWasmMemory : W -> Z -> W * option error;
  (** [wa.typeInfo]; the error of [GetSizeOfType] is dropped by the caller *)
  GetMapSubtypes : string -> string * string;
  GetSizeOfType : string -> Z;
  GetTypeDefinitionId : string -> Z + error;
  getReflectedType : string -> rtype + error;
  (** the field codec *)
  readField : W -> string -> Z -> HostValue + error;
  writeField : W -> string -> Z -> HostValue -> W * (Z + error);
  writeRawBytes : W -> list Z -> Z -> W * (Z + error);
  (** [utils.EncodeUTF16] and [hash.GetHashCode] (on bytes and on a key) *)
  EncodeUTF16 : string -> list Z;
  GetHashCodeBytes : list Z -> Z;
  GetHashCode : HostValue -> Z
}.

(* ================================================================== *)
(** ** [readMap] *)
(* ================================================================== *)

Section ReadMap.
Context {W : Type} {adapter : Adapter W}.
Local Open Scope go_scope.

(** The header words and the buffer length [readMap] reads, in the order
    it reads them. *)
Record mapHeader : Type := mkHeader {
  hdrEntries : Z;
  hdrEntriesCapacity : Z;
  hdrEntriesCount : Z;
  hdrByteLength : Z
}.

Definition readHeader (w : W) (offset : Z) : result mapHeader :=
  let* entries :=
    orFail (ReadUint32Le w (U32.add offset 8))
           (Errorf "failed to read map entries pointer") in
  let* entriesCapacity :=
    orFail (ReadUint32Le w (U32.add offset 12))
           (Errorf "failed to read map entries capacity") in
  let* entriesCount :=
    orFail (ReadUint32Le w (U32.add offset 20))
           (Errorf "failed to read map entries count") in
  (* the length of array buffer is stored 4 bytes before the offset *)
  let* byteLength :=
    orFail (ReadUint32Le w (U32.sub entries 4))
           (Errorf "failed to read map entries buffer length") in
  Ok (mkHeader entries entriesCapacity entriesCount byteLength).

(** [m.SetMapIndex(reflect.ValueOf(k), reflect.ValueOf(v))] on a map of
    type [map[rKeyType]rValueType]: a zero key panics, a zero element
    deletes the key, values of another type panic. *)
Definition SetMapIndex (rKeyType rValueType : rtype)
    (m : list (HostValue * HostValue)) (k v : HostValue)
  : result (list (HostValue * HostValue)) :=
  match k with
  | VNil => Panic zeroValueUse
  | _ =>
      if negb (assignable k rKeyType) then Panic notAssignable
      else match v with
           | VNil => Ok (mapDelete m k)
           | _ =>
               if negb (assignable v rValueType) then Panic notAssignable
               else Ok (mapAssign m k v)
           end
  end.

(** [field.Set(reflect.ValueOf(x))] on a field of type [t]. *)
Definition SetField (t : rtype) (x : HostValue) : result HostValue :=
  match x with
  | VNil => Panic zeroValueUse
  | _ => if negb (assignable x t) then Panic notAssignable else Ok x
  end.

(** The first loop of [readMap], [for i := uint32(0); i < entriesCount; i++],
    with [n] iterations left and [m] the map built so far. *)
Fixpoint readMapLoop (w : W) (keyType valueType : string)
    (rKeyType rValueType : rtype) (entries entrySize valueOffset : Z)
    (n : nat) (i : Z) (m : list (HostValue * HostValue))
  : result (list (HostValue * HostValue)) :=
  match n with
  | O => Ok m
  | S n' =>
      let p := U32.add entries (U32.mul i entrySize) in
      let* k := check (readField w keyType p) in
      let* v := check (readField w valueType (U32.add p valueOffset)) in
      let* m' := SetMapIndex rKeyType rValueType m k v in
      readMapLoop w keyType valueType rKeyType rValueType
        entries entrySize valueOffset n' (i + 1) m'
  end.

(** The struct type of one element of the pseudo-map and the type of the
    wrapper, as [readMap] builds them with [reflect.StructOf]. *)
Definition pairType (rKeyType rValueType : rtype) : rtype :=
  TStruct [ mkField "Key" rKeyType "key"; mkField "Value" rValueType "value" ].

Definition mapDataType (rKeyType rValueType : rtype) : rtype :=
  TStruct [ mkField "Data" (TSlice (pairType rKeyType rValueType)) "$mapdata" ].

(** The second loop, [for i := 0; i < size; i++]: the elements of the
    slice from index [i] on. *)
Fixpoint readPairsLoop (w : W) (keyType valueType : string)
    (rKeyType rValueType : rtype) (entries entrySize valueOffset : Z)
    (n : nat) (i : Z) : result (list HostValue) :=
  match n with
  | O => Ok []
  | S n' =>
      let p := U32.add entries (U32.mul (U32.wrap i) entrySize) in
      let* k := check (readField w keyType p) in
      let* v := check (readField w valueType (U32.add p valueOffset)) in
      let* fk := SetField rKeyType k in
      let* fv := SetField rValueType v in
      let* rest := readPairsLoop w keyType valueType rKeyType rValueType
                     entries entrySize valueOffset n' (i + 1) in
      Ok (VStruct (pairType rKeyType rValueType) [fk; fv] :: rest)
  end.

Definition readMap (w : W) (typ : string) (offset : Z) : result HostValue :=
  let* h := readHeader w offset in
  let entries := hdrEntries h in
  let entriesCount := hdrEntriesCount h in
  let* entrySize :=
    match U32.div (hdrByteLength h) (hdrEntriesCapacity h) with
    | Some q => Ok q
    | None => Panic divideByZero
    end in
  let '(keyType, valueType) := GetMapSubtypes typ in
  let valueOffset := getSizeForOffset keyType in
  let* rKeyType := check (getReflectedType keyType) in
  let* rValueType := check (getReflectedType valueType) in
  let size := Z.to_nat entriesCount in
  if Comparable rKeyType then
    (* return a map *)
    let* m := readMapLoop w keyType valueType rKeyType rValueType
                entries entrySize valueOffset size 0 [] in
    Ok (VMap rKeyType rValueType m)
  else
    (* return a pseudo-map *)
    let* s := readPairsLoop w keyType valueType rKeyType rValueType
                entries entrySize valueOffset size 0 in
    Ok (VStruct (mapDataType rKeyType rValueType)
          [VSlice (pairType rKeyType rValueType) s]).

End ReadMap.

(* ================================================================== *)
(** ** [writeMap] *)
(* ================================================================== *)

(** The calls whose number and order the pin/unpin properties are about:
    a call of [pinWasmMemory], a call of [unpinWasmMemory], and a pointer
    handed back by the field codec ([writeField] or [writeRawBytes]). *)
Inductive call : Type :=
| CallPin (ptr : Z)
| CallUnpin (ptr : Z)
| FieldPtr (ptr : Z).

(** The state a run of [writeMap] threads: the guest instance, the local
    slice [pins] that the deferred function reads, and the log of calls. *)
Record frame (W : Type) : Type := mkFrame {
  world : W;
  pins : list Z;
  calls : list call
}.
Arguments mkFrame {W} _ _ _.
Arguments world {W} _.
Arguments pins {W} _.
Arguments calls {W} _.

(** A step of the body: it may change the frame, and ends like a call. *)
Definition M (W A : Type) : Type := frame W -> frame W * result A.

Definition ret {W A : Type} (a : A) : M W A := fun f => (f, Ok a).

Definition bindM {W A B : Type} (m : M W A) (k : A -> M W B) : M W B :=
  fun f =>
    let (f', r) := m f in
    match r with
    | Ok a => k a f'
    | Err e => (f', Err e)
    | Panic msg => (f', Panic msg)
    | Diverge => (f', Diverge)
    end.

Definition liftR {W A : Type} (r : result A) : M W A := fun f => (f, r).

Notation "x <- e ;; k" := (bindM e (fun x => k))
  (at level 61, e at next level, right associativity) : go_scope.
Notation "e ;;; k" := (bindM e (fun _ => k))
  (at level 61, right associativity) : go_scope.

Definition pinCalls (l : list call) : list Z :=
  flat_map (fun c => match c with CallPin p => [p] | _ => [] end) l.

Definition unpinCalls (l : list call) : list Z :=
  flat_map (fun c => match c with CallUnpin p => [p] | _ => [] end) l.

(** The non-zero pointers the field codec handed back. *)
Definition allocatedFieldPtrs (l : list call) : list Z :=
  flat_map (fun c => match c with
                     | FieldPtr p => if p =? 0 then [] else [p]
                     | _ => []
                     end) l.

Section WriteMap.
Context {W : Type} {adapter : Adapter W}.
Local Open Scope go_scope.

Definition setWorld (f : frame W) (w : W) : frame W :=
  mkFrame w (pins f) (calls f).

Definition logCall (c : call) (f : frame W) : frame W :=
  mkFrame (world f) (pins f) (calls f ++ [c]).

(** [wa.allocateWasmMemory(ctx, size, id)]. *)
Definition allocate (size id : Z) : frame W -> frame W * (Z + error) :=
  fun f => let (w, r) := allocateWasmMemory (world f) size id in (setWorld f w, r).

(** [err = wa.pinWasmMemory(ctx, ptr)]. *)
Definition pin (ptr : Z) : frame W -> frame W * option error :=
  fun f =>
    let (w, r) := pinWasmMemory (world f) ptr in
    (logCall (CallPin ptr) (setWorld f w), r).

(** [err = wa.unpinWasmMemory(ctx, ptr)]. *)
Definition unpin (ptr : Z) : frame W -> frame W * option error :=
  fun f =>
    let (w, r) := unpinWasmMemory (world f) ptr in
    (logCall (CallUnpin ptr) (setWorld f w), r).

(** [pins = append(pins, ptr)]. *)
Definition appendPin (ptr : Z) : M W unit :=
  fun f => (mkFrame (world f) (pins f ++ [ptr]) (calls f), Ok tt).

(** A call returning [(ptr, err)], the error wrapped with [format]. *)
Definition callWrap (format : string)
    (c : frame W -> frame W * (Z + error)) : M W Z :=
  fun f => let (f', r) := c f in (f', checkWrap format r).

Definition callPlain (c : frame W -> frame W * (Z + error)) : M W Z :=
  fun f => let (f', r) := c f in (f', check r).

(** A call returning only [err]; [wrap] is the format of the wrapping
    [fmt.Errorf], if the caller wraps the error. *)
Definition callErr (wrap : option string)
    (c : frame W -> frame W * option error) : M W unit :=
  fun f =>
    let (f', r) := c f in
    (f', match r, wrap with
         | None, _ => Ok tt
         | Some e, Some format => Err (ErrorfW format e)
         | Some e, None => Err e
         end).

(** [ok := mem.WriteUint32Le(addr, v); if !ok { return 0, fmt.Errorf(msg) }]. *)
Definition writeU32 (addr v : Z) (msg : string) : M W unit :=
  fun f =>
    match WriteUint32Le (world f) addr v with
    | Some w => (setWorld f w, Ok tt)
    | None => (f, Err (Errorf msg))
    end.

Definition readU32 (addr : Z) (msg : string) : M W Z :=
  fun f => (f, orFail (ReadUint32Le (world f) addr) (Errorf msg)).

(** The field codec, its returned pointer logged. *)
Definition encodeField (typ : string) (addr : Z) (v : HostValue)
  : frame W -> frame W * (Z + error) :=
  fun f =>
    let (w, r) := writeField (world f) typ addr v in
    (match r with
     | inl ptr => logCall (FieldPtr ptr) (setWorld f w)
     | inr _ => setWorld f w
     end, r).

Definition encodeRawBytes (bytes : list Z) (id : Z)
  : frame W -> frame W * (Z + error) :=
  fun f =>
    let (w, r) := writeRawBytes (world f) bytes id in
    (match r with
     | inl ptr => logCall (FieldPtr ptr) (setWorld f w)
     | inr _ => setWorld f w
     end, r).

(** [if ptr != 0 { err = wa.pinWasmMemory(ctx, ptr); ...; pins = append(pins, ptr) }]. *)
Definition pinIfAllocated (ptr : Z) : M W unit :=
  if ptr =? 0 then ret tt
  else callErr None (pin ptr) ;;; appendPin ptr.

(** What the loop body needs from the set-up before the loop. *)
Record layout : Type := mkLayout {
  keyType : string;
  valueType : string;
  bucketsBufferOffset : Z;
  entriesBufferOffset : Z;
  loEntrySize : Z;
  loBucketsMask : Z;
  valueOffset : Z;
  taggedNextOffset : Z
}.

Definition entryOffsetOf (lo : layout) (i : Z) : Z :=
  U32.add (entriesBufferOffset lo) (U32.mul (loEntrySize lo) (U32.wrap i)).

Definition bucketPtrBaseOf (lo : layout) (hashCode : Z) : Z :=
  U32.add (bucketsBufferOffset lo)
          (U32.mul (U32.and hashCode (loBucketsMask lo)) bucketSize).

(** Write entry key and calculate hash code: the [switch] on the key. *)
Definition writeEntryKey (lo : layout) (entryOffset : Z) (key : HostValue)
  : M W (Z * Z) :=
  match key with
  | VString t =>
      let bytes := EncodeUTF16 t in
      let hashCode := GetHashCodeBytes bytes in
      ptr <- callWrap "failed to write map entry key: %w" (encodeRawBytes bytes 2) ;;
      writeU32 entryOffset ptr "failed to write map entry key pointer" ;;;
      ret (hashCode, ptr)
  | _ =>
      let hashCode := GetHashCode key in
      ptr <- callWrap "failed to write map entry key: %w"
               (encodeField (keyType lo) entryOffset key) ;;
      ret (hashCode, ptr)
  end.

(** Write to bucket and tagged next field. *)
Definition linkEntry (lo : layout) (entryOffset hashCode : Z) : M W unit :=
  let bucketPtrBase := bucketPtrBaseOf lo hashCode in
  prev <- readU32 bucketPtrBase "failed to read previous map entry bucket pointer" ;;
  writeU32 (U32.add entryOffset (taggedNextOffset lo)) prev
           "failed to write map entry tagged next field" ;;;
  writeU32 bucketPtrBase entryOffset "failed to write map entry bucket pointer".

(** One iteration of [for i, mapKey := range mapKeys]. *)
Definition writeEntry (lo : layout) (entries : list (HostValue * HostValue))
    (i : Z) (mapKey : HostValue) : M W unit :=
  let entryOffset := entryOffsetOf lo i in
  hp <- writeEntryKey lo entryOffset mapKey ;;
  let '(hashCode, ptr) := hp in
  (* If we allocated memory for the key, we need to pin it too. *)
  pinIfAllocated ptr ;;;
  (* write entry value *)
  value <- liftR (match MapIndex entries mapKey with
                  | Some v => Ok v
                  | None => Panic zeroValueUse
                  end) ;;
  let entryValueOffset := U32.add entryOffset (valueOffset lo) in
  ptr <- callWrap "failed to write map entry value: %w"
           (encodeField (valueType lo) entryValueOffset value) ;;
  (* If we allocated memory for the value, we need to pin it too. *)
  pinIfAllocated ptr ;;;
  linkEntry lo entryOffset hashCode.

Fixpoint writeEntries (lo : layout) (entries : list (HostValue * HostValue))
    (i : Z) (mapKeys : list HostValue) : M W unit :=
  match mapKeys with
  | [] => ret tt
  | mapKey :: rest =>
      writeEntry lo entries i mapKey ;;;
      writeEntries lo entries (i + 1) rest
  end.

(** Write map object: the 24-byte header. *)
Definition writeHeader (offset : Z) (lo : layout) (c : capacities) (mapLen : Z)
  : M W unit :=
  writeU32 offset (bucketsBufferOffset lo) "failed to write map buckets pointer" ;;;
  writeU32 (U32.add offset 4) (bucketsMask c) "failed to write map buckets mask" ;;;
  writeU32 (U32.add offset 8) (entriesBufferOffset lo) "failed to write map entries pointer" ;;;
  writeU32 (U32.add offset 12) (entriesCapacity c) "failed to write map entries capacity" ;;;
  writeU32 (U32.add offset 16) mapLen "failed to write map entries offset" ;;;
  writeU32 (U32.add offset 20) mapLen "failed to write map entries count".

(** The set-up of [writeMap] up to the loop: capacities, the two array
    buffers and their pins. *)
Definition writeMapSetup (typ : string) (mapLen : Z) : M W (layout * capacities) :=
  (* determine capacities and mask *)
  c <- liftR (match determineCapacities mapLen with
              | Some c => Ok c
              | None => Diverge
              end) ;;
  (* create buckets array buffer *)
  let bucketsBufferSize := U32.mul bucketSize (bucketsCapacity c) in
  bucketsBufferOffset <-
    callWrap "failed to allocate memory for array buffer: %w"
      (allocate bucketsBufferSize 1) ;;
  callErr (Some "failed to pin array buffer: %w"%string) (pin bucketsBufferOffset) ;;;
  appendPin bucketsBufferOffset ;;;
  (* write entries array buffer *)
  let '(keyType, valueType) := GetMapSubtypes typ in
  let keySize := GetSizeOfType keyType in
  let valueSize := GetSizeOfType valueType in
  let entrySize := entrySize keySize valueSize in
  let entriesBufferSize := U32.mul entrySize (entriesCapacity c) in
  entriesBufferOffset <-
    callWrap "failed to allocate memory for array buffer: %w"
      (allocate entriesBufferSize 1) ;;
  callErr (Some "failed to pin array buffer: %w"%string) (pin entriesBufferOffset) ;;;
  appendPin entriesBufferOffset ;;;
  let valueOffset := getSizeForOffset keyType in
  let taggedNextOffset := U32.add (getSizeForOffset valueType) valueOffset in
  ret (mkLayout keyType valueType bucketsBufferOffset entriesBufferOffset
         entrySize (bucketsMask c) valueOffset taggedNextOffset, c).

(** The body of [writeMap] after the deferred function is registered. *)
Definition writeMapBody (typ : string) (entries : list (HostValue * HostValue))
    (mapLen : Z) : M W Z :=
  lc <- writeMapSetup typ mapLen ;;
  let '(lo, c) := lc in
  writeEntries lo entries 0 (MapKeys entries) ;;;
  id <- liftR (check (GetTypeDefinitionId typ)) ;;
  offset <- callPlain (allocate headerSize id) ;;
  writeHeader offset lo c mapLen ;;;
  ret offset.

(** The deferred function: [for _, ptr := range pins { err = unpin(ptr);
    if err != nil { break } }].  It assigns the named result [err]. *)
Fixpoint unpinAll (ptrs : list Z) (f : frame W) (err : option error)
  : frame W * option error :=
  match ptrs with
  | [] => (f, err)
  | ptr :: rest =>
      let (f', err') := unpin ptr f in
      match err' with
      | Some _ => (f', err')
      | None => unpinAll rest f' err'
      end
  end.

(** How a call of [writeMap] ends: with the results [(offset, err)], with
    a panic, or never. *)
Inductive outcome : Type :=
| Returned (f : frame W) (offset : Z) (err : option error)
| Panicked (f : frame W) (msg : string)
| Diverged.

Definition writeMap (w : W) (typ : string) (data : HostValue) : outcome :=
  let f0 := mkFrame w [] [] in
  match data with
  | VMap _ _ entries =>
      let mapLen := U32.wrap (Z.of_nat (List.length entries)) in
      let (f1, r) := writeMapBody typ entries mapLen f0 in
      match r with
      | Ok offset =>
          (* return offset, nil *)
          let (f2, err) := unpinAll (pins f1) f1 None in
          Returned f2 offset err
      | Err e =>
          (* return 0, e *)
          let (f2, err) := unpinAll (pins f1) f1 (Some e) in
          Returned f2 0 err
      | Panic msg =>
          let (f2, _) := unpinAll (pins f1) f1 None in
          Panicked f2 msg
      | Diverge => Diverged
      end
  | _ =>
      (* TODO: support []kvp ? *)
      Returned f0 0 (Some (ErrorfT "unsupported map type %T" data))
  end.

End WriteMap.

(* ================================================================== *)
(** ** Properties of [readMap] that hold for every adapter *)
(* ================================================================== *)

Section ReadMapFacts.
Context {W : Type} {adapter : Adapter W}.

Lemma readHeader_ok (w : W) (offset entries cap count len : Z) :
  ReadUint32Le w (U32.add offset 8) = Some entries ->
  ReadUint32Le w (U32.add offset 12) = Some cap ->
  ReadUint32Le w (U32.add offset 20) = Some count ->
  ReadUint32Le w (U32.sub entries 4) = Some len ->
  readHeader w offset = Ok (mkHeader entries cap count len).
Proof.
  intros H8 H12 H20 Hlen. unfold readHeader.
  rewrite H8; cbn. rewrite H12; cbn. rewrite H20; cbn. rewrite Hlen; cbn.
  reflexivity.
Qed.

Lemma readHeader_inv (w : W) (offset : Z) (h : mapHeader) :
  readHeader w offset = Ok h ->
  ReadUint32Le w (U32.add offset 8) = Some (hdrEntries h) /\
  ReadUint32Le w (U32.add offset 12) = Some (hdrEntriesCapacity h) /\
  ReadUint32Le w (U32.add offset 20) = Some (hdrEntriesCount h) /\
  ReadUint32Le w (U32.sub (hdrEntries h) 4) = Some (hdrByteLength h).
Proof.
  unfold readHeader.
  destruct (ReadUint32Le w (U32.add offset 8)) as [e|]; cbn; [|discriminate].
  destruct (ReadUint32Le w (U32.add offset 12)) as [c|]; cbn; [|discriminate].
  destruct (ReadUint32Le w (U32.add offset 20)) as [n|]; cbn; [|discriminate].
  destruct (ReadUint32Le w (U32.sub e 4)) as [l|] eqn:Hl; cbn; [|discriminate].
  intros [= <-]. cbn. auto.
Qed.


(** C10.  The stride is [byteLength / entriesCapacity] with no guard: when
    the four reads succeed and the capacity word is 0, the call panics
    with a division by zero instead of returning an error. *)
Theorem readMap_zero_capacity (w : W) (typ : string)
    (offset entries count len : Z) :
  ReadUint32Le w (U32.add offset 8) = Some entries ->
  ReadUint32Le w (U32.add offset 12) = Some 0 ->
  ReadUint32Le w (U32.add offset 20) = Some count ->
  ReadUint32Le w (U32.sub entries 4) = Some len ->
  readMap w typ offset = Panic divideByZero /\
  forall e, readMap w typ offset <> Err e.
Proof.
  intros H8 H12 H20 Hl.
  assert (readMap w typ offset = Panic divideByZero) as ->.
  { unfold readMap. rewrite (readHeader_ok _ _ _ _ _ _ H8 H12 H20 Hl). reflexivity. }
  split; [reflexivity | discriminate].
Qed.

(** The division is the only source of that panic: with a non-zero
    capacity word [readMap] does not divide by zero. *)
Lemma SetMapIndex_no_div (rk rv : rtype) m k v :
  SetMapIndex rk rv m k v <> Panic divideByZero.
Proof.
  unfold SetMapIndex.
  destruct k; try discriminate;
    (destruct (negb _); [discriminate|]);
    destruct v; try discriminate;
    destruct (negb _); discriminate.
Qed.

Lemma SetField_no_div (t : rtype) x : SetField t x <> Panic divideByZero.
Proof.
  unfold SetField. destruct x; try discriminate; destruct (negb _); discriminate.
Qed.

Lemma readMapLoop_no_div (w : W) kt vt rk rv entries entrySize valueOffset n :
  forall i m,
    readMapLoop w kt vt rk rv entries entrySize valueOffset n i m
    <> Panic divideByZero.
Proof.
  induction n as [|n IH]; intros i m; cbn; [discriminate|].
  destruct (readField w kt _) as [k|]; cbn; [|discriminate].
  destruct (readField w vt _) as [v|]; cbn; [|discriminate].
  destruct (SetMapIndex rk rv m k v) as [m'| | |] eqn:Hs; cbn;
    try discriminate.
  - apply IH.
  - intros [= ->]. exact (SetMapIndex_no_div _ _ _ _ _ Hs).
Qed.

Lemma readPairsLoop_no_div (w : W) kt vt rk rv entries entrySize valueOffset n :
  forall i,
    readPairsLoop w kt vt rk rv entries entrySize valueOffset n i
    <> Panic divideByZero.
Proof.
  induction n as [|n IH]; intros i; cbn; [discriminate|].
  destruct (readField w kt _) as [k|]; cbn; [|discriminate].
  destruct (readField w vt _) as [v|]; cbn; [|discriminate].
  destruct (SetField rk k) as [fk| | |] eqn:Hk; cbn; try discriminate;
    [|intros [= ->]; exact (SetField_no_div _ _ Hk)].
  destruct (SetField rv v) as [fv| | |] eqn:Hv; cbn; try discriminate;
    [|intros [= ->]; exact (SetField_no_div _ _ Hv)].
  specialize (IH (i + 1)).
  destruct (readPairsLoop _ _ _ _ _ _ _ _ n (i + 1)); cbn;
    try discriminate; assumption.
Qed.

Lemma readMap_nonzero_capacity (w : W) (typ : string) (offset : Z) (h : mapHeader) :
  readHeader w offset = Ok h ->
  hdrEntriesCapacity h <> 0 ->
  readMap w typ offset <> Panic divideByZero.
Proof.
  intros Hh Hcap. unfold readMap. rewrite Hh. cbn.
  unfold U32.div. destruct (Z.eqb_spec (hdrEntriesCapacity h) 0) as [|_]; [contradiction|].
  cbn. destruct (GetMapSubtypes typ) as [kt vt].
  destruct (getReflectedType kt) as [rk|]; cbn; [|discriminate].
  destruct (getReflectedType vt) as [rv|]; cbn; [|discriminate].
  destruct (Comparable rk).
  - pose proof (readMapLoop_no_div w kt vt rk rv (hdrEntries h)
                  (hdrByteLength h / hdrEntriesCapacity h) (getSizeForOffset kt)
                  (Z.to_nat (hdrEntriesCount h)) 0 []) as Hl.
    destruct (readMapLoop _ _ _ _ _ _ _ _ _ 0 []); cbn; try discriminate.
    intros [= ->]. now apply Hl.
  - pose proof (readPairsLoop_no_div w kt vt rk rv (hdrEntries h)
                  (hdrByteLength h / hdrEntriesCapacity h) (getSizeForOffset kt)
                  (Z.to_nat (hdrEntriesCount h)) 0) as Hl.
    destruct (readPairsLoop _ _ _ _ _ _ _ _ _ 0); cbn; try discriminate.
    intros [= ->]. now apply Hl.
Qed.

End ReadMapFacts.

Section PairList.
Context {W : Type} {adapter : Adapter W}.

(** One element of the pseudo-map: a struct with the fields [Key] and
    [Value]. *)
Definition isPair (rk rv : rtype) (p : HostValue) : Prop :=
  exists k v, p = VStruct (pairType rk rv) [k; v].

(** The pseudo-map: a struct whose single field [Data], tagged
    [$mapdata], holds a slice of [n] pairs. *)
Definition isMapData (rk rv : rtype) (n : nat) (v : HostValue) : Prop :=
  exists pairs,
    v = VStruct (mapDataType rk rv) [VSlice (pairType rk rv) pairs] /\
    List.length pairs = n /\
    Forall (isPair rk rv) pairs.

(** Entry [i] can be decoded: the codec reads a key and a value of the
    reflected types. *)
Definition pairReadable (w : W) (kt vt : string) (rk rv : rtype)
    (entries entrySize valueOffset i : Z) : Prop :=
  let p := U32.add entries (U32.mul (U32.wrap i) entrySize) in
  exists k v,
    readField w kt p = inl k /\
    readField w vt (U32.add p valueOffset) = inl v /\
    assignable k rk = true /\ assignable v rv = true.

Lemma SetField_assignable (t : rtype) (x : HostValue) :
  assignable x t = true -> SetField t x = Ok x.
Proof.
  intros Ha. unfold SetField. rewrite Ha.
  destruct x; try reflexivity. discriminate Ha.
Qed.

Lemma readPairsLoop_shape (w : W) kt vt rk rv entries entrySize valueOffset n :
  forall i pairs,
    readPairsLoop w kt vt rk rv entries entrySize valueOffset n i = Ok pairs ->
    List.length pairs = n /\ Forall (isPair rk rv) pairs.
Proof.
  induction n as [|n IH]; intros i pairs; cbn.
  - intros [= <-]. split; [reflexivity | constructor].
  - destruct (readField w kt _) as [k|]; cbn; [|discriminate].
    destruct (readField w vt _) as [v|]; cbn; [|discriminate].
    destruct (SetField rk k) as [fk| | |]; cbn; try discriminate.
    destruct (SetField rv v) as [fv| | |]; cbn; try discriminate.
    destruct (readPairsLoop _ _ _ _ _ _ _ _ n (i + 1)) as [rest| | |] eqn:Hrest;
      cbn; try discriminate.
    intros [= <-]. destruct (IH _ _ Hrest) as [Hlen Hall].
    split; [cbn; now rewrite Hlen|].
    constructor; [now exists fk, fv | assumption].
Qed.

Lemma readPairsLoop_total (w : W) kt vt rk rv entries entrySize valueOffset n :
  forall i,
    (forall j, i <= j < i + Z.of_nat n ->
               pairReadable w kt vt rk rv entries entrySize valueOffset j) ->
    exists pairs,
      readPairsLoop w kt vt rk rv entries entrySize valueOffset n i = Ok pairs.
Proof.
  induction n as [|n IH]; intros i Hread; cbn.
  - now exists [].
  - destruct (Hread i ltac:(lia)) as (k & v & Hk & Hv & Hak & Hav).
    rewrite Hk; cbn. rewrite Hv; cbn.
    rewrite (SetField_assignable _ _ Hak), (SetField_assignable _ _ Hav); cbn.
    destruct (IH (i + 1)) as [rest ->]; [intros j Hj; apply Hread; lia|].
    cbn. eauto.
Qed.

(** C8.  When the reflected key type is not comparable, a value returned
    by [readMap] is never a native map: it is the pair-list wrapper, and
    its slice has as many pairs as the header's entries count.  The value
    is returned whenever the capacity word is not 0 and every entry can be
    decoded. *)
Theorem readMap_pair_list (w : W) (typ : string) (offset : Z)
    (h : mapHeader) (rk rv : rtype) :
  readHeader w offset = Ok h ->
  getReflectedType (fst (GetMapSubtypes typ)) = inl rk ->
  getReflectedType (snd (GetMapSubtypes typ)) = inl rv ->
  Comparable rk = false ->
  (forall v, readMap w typ offset = Ok v ->
             isMapData rk rv (Z.to_nat (hdrEntriesCount h)) v) /\
  (hdrEntriesCapacity h <> 0 ->
   (forall j, 0 <= j < Z.of_nat (Z.to_nat (hdrEntriesCount h)) ->
              pairReadable w (fst (GetMapSubtypes typ)) (snd (GetMapSubtypes typ))
                rk rv (hdrEntries h)
                (hdrByteLength h / hdrEntriesCapacity h)
                (getSizeForOffset (fst (GetMapSubtypes typ))) j) ->
   exists v, readMap w typ offset = Ok v).
Proof.
  intros Hh Hrk Hrv Hcmp. unfold readMap. rewrite Hh. cbn.
  destruct (GetMapSubtypes typ) as [kt vt]. cbn in *.
  unfold U32.div.
  destruct (Z.eqb_spec (hdrEntriesCapacity h) 0) as [Hz | Hnz]; cbn.
  - split; [discriminate | contradiction].
  - rewrite Hrk, Hrv. cbn. rewrite Hcmp. split.
    + intros v.
      destruct (readPairsLoop _ _ _ _ _ _ _ _ _ 0) as [pairs| | |] eqn:Hp;
        cbn; try discriminate.
      intros [= <-]. destruct (readPairsLoop_shape _ _ _ _ _ _ _ _ _ _ _ Hp).
      exists pairs. auto.
    + intros _ Hread.
      destruct (readPairsLoop_total w kt vt rk rv (hdrEntries h)
                  (hdrByteLength h / hdrEntriesCapacity h) (getSizeForOffset kt)
                  (Z.to_nat (hdrEntriesCount h)) 0) as [pairs ->].
      * intros j Hj. apply Hread. lia.
      * cbn. eauto.
Qed.

End PairList.

(* ================================================================== *)
(** ** Properties of [writeMap] that hold for every adapter *)
(* ================================================================== *)

Section WriteMapFacts.
Context {W : Type} {adapter : Adapter W}.
Local Open Scope go_scope.

(** C9.  A value that is not a map is rejected before anything is
    allocated or pinned: the results are offset 0 and the error
    [unsupported map type %T] formatted with the value. *)
Theorem writeMap_rejects_non_map (w : W) (typ : string) (data : HostValue) :
  isMapKind data = false ->
  writeMap w typ data =
  Returned (mkFrame w [] []) 0 (Some (ErrorfT "unsupported map type %T" data)).
Proof.
  intros Hkind. destruct data; try reflexivity. discriminate Hkind.
Qed.

(* ------------------------------------------------------------------ *)
(** *** The deferred unpin loop and the named result [err] *)

(** As soon as one pin is recorded, the deferred loop assigns [err]: the
    error the body returned does not reach the caller. *)
Lemma unpinAll_overwrites (ptrs : list Z) (f : frame W) (e : option error) :
  ptrs <> [] -> unpinAll ptrs f e = unpinAll ptrs f None.
Proof.
  destruct ptrs as [|p rest]; [congruence|]. intros _. cbn.
  destruct (unpin p f) as [f' [e'|]]; reflexivity.
Qed.

Lemma unpinAll_nil (f : frame W) (e : option error) : unpinAll [] f e = (f, e).
Proof. reflexivity. Qed.

(** With nothing pinned yet, the body's error is reported. *)
Lemma writeMap_error_without_pins (w : W) (typ : string) kt vt entries f1 e :
  writeMapBody typ entries (U32.wrap (Z.of_nat (List.length entries)))
    (mkFrame w [] []) = (f1, Err e) ->
  pins f1 = [] ->
  writeMap w typ (VMap kt vt entries) = Returned f1 0 (Some e).
Proof.
  intros Hbody Hpins. unfold writeMap. rewrite Hbody, Hpins. reflexivity.
Qed.

(** With a pin recorded and every unpin succeeding, a failed body is
    reported as [(0, nil)]. *)
Lemma writeMap_error_masked (w : W) (typ : string) kt vt entries f1 f2 e :
  writeMapBody typ entries (U32.wrap (Z.of_nat (List.length entries)))
    (mkFrame w [] []) = (f1, Err e) ->
  pins f1 <> [] ->
  unpinAll (pins f1) f1 None = (f2, None) ->
  writeMap w typ (VMap kt vt entries) = Returned f2 0 None.
Proof.
  intros Hbody Hpins Hunpin. unfold writeMap. rewrite Hbody.
  rewrite unpinAll_overwrites by assumption. rewrite Hunpin. reflexivity.
Qed.

(* ------------------------------------------------------------------ *)
(** *** Pins and unpins of a run *)

(** From [f] to [f'] the body pinned and recorded [dp], the codec handed
    back the non-zero pointers [da], and nothing was unpinned. *)
Definition grows (f f' : frame W) (dp da : list Z) : Prop :=
  pins f' = pins f ++ dp /\
  pinCalls (calls f') = pinCalls (calls f) ++ dp /\
  allocatedFieldPtrs (calls f') = allocatedFieldPtrs (calls f) ++ da /\
  unpinCalls (calls f') = unpinCalls (calls f).

Definition nonZero (ptr : Z) : list Z := if ptr =? 0 then [] else [ptr].

Lemma grows_refl f : grows f f [] [].
Proof. unfold grows. now rewrite !app_nil_r. Qed.

Lemma grows_trans f1 f2 f3 dp1 da1 dp2 da2 :
  grows f1 f2 dp1 da1 -> grows f2 f3 dp2 da2 ->
  grows f1 f3 (dp1 ++ dp2) (da1 ++ da2).
Proof.
  intros (Ha & Hb & Hc & Hd) (Ha' & Hb' & Hc' & Hd'). unfold grows.
  rewrite Ha', Hb', Hc', Hd', Ha, Hb, Hc, Hd, !app_assoc. auto.
Qed.

Lemma grows_setWorld f w : grows f (setWorld f w) [] [].
Proof. unfold grows, setWorld; cbn. now rewrite !app_nil_r. Qed.

Lemma bindM_Ok {A B : Type} (m : M W A) (k : A -> M W B) f f' b :
  bindM m k f = (f', Ok b) ->
  exists a f1, m f = (f1, Ok a) /\ k a f1 = (f', Ok b).
Proof.
  unfold bindM. destruct (m f) as [f1 [a| | |]]; try discriminate.
  intros H. eauto.
Qed.

Lemma allocate_grows size id f f' r :
  allocate size id f = (f', r) -> grows f f' [] [].
Proof.
  unfold allocate. destruct (allocateWasmMemory _ _ _) as [w r'].
  intros [= <- _]. apply grows_setWorld.
Qed.

Lemma callWrap_Ok fmt c (f f' : frame W) p :
  callWrap fmt c f = (f', Ok p) -> c f = (f', inl p).
Proof.
  unfold callWrap. destruct (c f) as [f1 [q|e]]; cbn; [|discriminate].
  now intros [= -> ->].
Qed.

Lemma callPlain_Ok c (f f' : frame W) p :
  callPlain c f = (f', Ok p) -> c f = (f', inl p).
Proof.
  unfold callPlain. destruct (c f) as [f1 [q|e]]; cbn; [|discriminate].
  now intros [= -> ->].
Qed.

Lemma callErr_Ok o c (f f' : frame W) u :
  callErr o c f = (f', Ok u) -> c f = (f', None).
Proof.
  unfold callErr. destruct (c f) as [f1 [e|]]; [destruct o; discriminate|].
  now intros [= ->].
Qed.

Lemma pin_then_append_grows o ptr f f' u :
  (callErr o (pin ptr) ;;; appendPin ptr) f = (f', Ok u) ->
  grows f f' [ptr] [].
Proof.
  intros H. apply bindM_Ok in H as (a & f1 & Hpin & Happ).
  apply callErr_Ok in Hpin. unfold pin in Hpin.
  destruct (pinWasmMemory _ _) as [w r]. injection Hpin as <- _.
  unfold appendPin in Happ. injection Happ as <- _. unfold grows; cbn.
  unfold pinCalls, allocatedFieldPtrs, unpinCalls.
  rewrite !flat_map_app. cbn. now rewrite !app_nil_r.
Qed.

Lemma pinIfAllocated_grows ptr f f' u :
  pinIfAllocated ptr f = (f', Ok u) -> grows f f' (nonZero ptr) [].
Proof.
  unfold pinIfAllocated, nonZero. destruct (ptr =? 0).
  - intros [= <-]. apply grows_refl.
  - apply pin_then_append_grows.
Qed.

Lemma encodeField_grows typ addr v f f' ptr :
  encodeField typ addr v f = (f', inl ptr) -> grows f f' [] (nonZero ptr).
Proof.
  unfold encodeField. destruct (writeField _ _ _ _) as [w [q|e]]; [|discriminate].
  intros [= <- <-]. unfold grows, nonZero; cbn.
  unfold pinCalls, allocatedFieldPtrs, unpinCalls.
  rewrite !flat_map_app. cbn. now rewrite !app_nil_r.
Qed.

Lemma encodeRawBytes_grows bytes id f f' ptr :
  encodeRawBytes bytes id f = (f', inl ptr) -> grows f f' [] (nonZero ptr).
Proof.
  unfold encodeRawBytes. destruct (writeRawBytes _ _ _) as [w [q|e]]; [|discriminate].
  intros [= <- <-]. unfold grows, nonZero; cbn.
  unfold pinCalls, allocatedFieldPtrs, unpinCalls.
  rewrite !flat_map_app. cbn. now rewrite !app_nil_r.
Qed.

Lemma writeU32_grows addr v msg f f' u :
  writeU32 addr v msg f = (f', Ok u) -> grows f f' [] [].
Proof.
  unfold writeU32. destruct (WriteUint32Le _ _ _) as [w|]; [|discriminate].
  intros [= <- _]. apply grows_setWorld.
Qed.

Lemma readU32_frame addr msg (f f' : frame W) v :
  readU32 addr msg f = (f', Ok v) -> f' = f.
Proof. unfold readU32. now intros [= <- _]. Qed.

Lemma liftR_frame {A : Type} (r : result A) (f f' : frame W) (a : A) :
  liftR r f = (f', Ok a) -> f' = f /\ r = Ok a.
Proof. unfold liftR. now intros [= <- ->]. Qed.

Lemma ret_frame {A : Type} (a b : A) (f f' : frame W) :
  ret a f = (f', Ok b) -> f' = f /\ b = a.
Proof. unfold ret. now intros [= <- <-]. Qed.

Lemma writeEntryKey_grows lo entryOffset key f f' hashCode ptr :
  writeEntryKey lo entryOffset key f = (f', Ok (hashCode, ptr)) ->
  grows f f' [] (nonZero ptr).
Proof.
  assert (Hdefault :
    (ptr <- callWrap "failed to write map entry key: %w"
              (encodeField (keyType lo) entryOffset key) ;;
     ret (GetHashCode key, ptr)) f = (f', Ok (hashCode, ptr)) ->
    grows f f' [] (nonZero ptr)).
  { intros H. apply bindM_Ok in H as (p & f1 & Henc & Hret).
    apply ret_frame in Hret as [-> [= _ ->]].
    apply callWrap_Ok in Henc. now apply encodeField_grows in Henc. }
  destruct key; try exact Hdefault.
  cbn [writeEntryKey]. intros H.
  apply bindM_Ok in H as (p & f1 & Henc & H).
  apply bindM_Ok in H as (u & f2 & Hw & Hret).
  apply ret_frame in Hret as [-> [= _ ->]].
  apply callWrap_Ok in Henc. apply encodeRawBytes_grows in Henc.
  apply writeU32_grows in Hw.
  pose proof (grows_trans _ _ _ _ _ _ _ Henc Hw) as Hg.
  cbn in Hg. now rewrite app_nil_r in Hg.
Qed.

Lemma linkEntry_grows lo entryOffset hashCode f f' u :
  linkEntry lo entryOffset hashCode f = (f', Ok u) -> grows f f' [] [].
Proof.
  unfold linkEntry. intros H.
  apply bindM_Ok in H as (prev & f1 & Hr & H).
  apply bindM_Ok in H as (u1 & f2 & Hw1 & Hw2).
  apply readU32_frame in Hr as ->.
  apply writeU32_grows in Hw1. apply writeU32_grows in Hw2.
  exact (grows_trans _ _ _ _ _ _ _ Hw1 Hw2).
Qed.

Lemma writeEntry_grows lo entries i mapKey f f' u :
  writeEntry lo entries i mapKey f = (f', Ok u) ->
  exists d, grows f f' d d.
Proof.
  unfold writeEntry. intros H.
  apply bindM_Ok in H as ([hashCode ptr] & f1 & Hkey & H).
  apply bindM_Ok in H as (u1 & f2 & Hpin1 & H).
  apply bindM_Ok in H as (value & f3 & Hval & H).
  apply bindM_Ok in H as (ptr2 & f4 & Henc & H).
  apply bindM_Ok in H as (u2 & f5 & Hpin2 & Hlink).
  apply writeEntryKey_grows in Hkey.
  apply pinIfAllocated_grows in Hpin1.
  apply liftR_frame in Hval as [-> _].
  apply callWrap_Ok in Henc. apply encodeField_grows in Henc.
  apply pinIfAllocated_grows in Hpin2.
  apply linkEntry_grows in Hlink.
  exists (nonZero ptr ++ nonZero ptr2).
  pose proof (grows_trans _ _ _ _ _ _ _ Hkey
               (grows_trans _ _ _ _ _ _ _ Hpin1
                  (grows_trans _ _ _ _ _ _ _ Henc
                     (grows_trans _ _ _ _ _ _ _ Hpin2 Hlink)))) as Hg.
  cbn in Hg. now rewrite !app_nil_r in Hg.
Qed.

Lemma writeEntries_grows lo entries mapKeys :
  forall i f f' u,
    writeEntries lo entries i mapKeys f = (f', Ok u) ->
    exists d, grows f f' d d.
Proof.
  induction mapKeys as [|k rest IH]; intros i f f' u H; cbn in H.
  - apply ret_frame in H as [-> _]. exists []. apply grows_refl.
  - apply bindM_Ok in H as (u1 & f1 & H1 & H2).
    apply writeEntry_grows in H1 as [d1 H1].
    apply IH in H2 as [d2 H2].
    exists (d1 ++ d2). exact (grows_trans _ _ _ _ _ _ _ H1 H2).
Qed.

Lemma writeMapSetup_grows typ mapLen f f' lo c :
  writeMapSetup typ mapLen f = (f', Ok (lo, c)) ->
  grows f f' [bucketsBufferOffset lo; entriesBufferOffset lo] [].
Proof.
  unfold writeMapSetup. intros H.
  apply bindM_Ok in H as (c0 & f1 & Hc & H).
  apply liftR_frame in Hc as [-> _].
  apply bindM_Ok in H as (b & f2 & Hb & H).
  apply bindM_Ok in H as (u1 & f3 & Hpinb & H).
  apply bindM_Ok in H as (u2 & f4 & Happb & H).
  destruct (GetMapSubtypes typ) as [kt vt].
  apply bindM_Ok in H as (e & f5 & He & H).
  apply bindM_Ok in H as (u3 & f6 & Hpine & H).
  apply bindM_Ok in H as (u4 & f7 & Happe & Hret).
  apply ret_frame in Hret as [-> [= -> ->]]. cbn.
  apply callWrap_Ok in Hb. apply allocate_grows in Hb.
  apply callWrap_Ok in He. apply allocate_grows in He.
  assert (Hpb : grows f2 f4 [b] []).
  { apply (pin_then_append_grows
             (Some "failed to pin array buffer: %w"%string) b f2 f4 u2).
    unfold bindM. rewrite Hpinb. exact Happb. }
  assert (Hpe : grows f5 f7 [e] []).
  { apply (pin_then_append_grows
             (Some "failed to pin array buffer: %w"%string) e f5 f7 u4).
    unfold bindM. rewrite Hpine. exact Happe. }
  exact (grows_trans _ _ _ _ _ _ _ Hb
           (grows_trans _ _ _ _ _ _ _ Hpb
              (grows_trans _ _ _ _ _ _ _ He Hpe))).
Qed.

Lemma writeHeader_grows offset lo c mapLen f f' u :
  writeHeader offset lo c mapLen f = (f', Ok u) -> grows f f' [] [].
Proof.
  unfold writeHeader. intros H.
  apply bindM_Ok in H as (u1 & f1 & H1 & H).
  apply bindM_Ok in H as (u2 & f2 & H2 & H).
  apply bindM_Ok in H as (u3 & f3 & H3 & H).
  apply bindM_Ok in H as (u4 & f4 & H4 & H).
  apply bindM_Ok in H as (u5 & f5 & H5 & H6).
  apply writeU32_grows in H1, H2, H3, H4, H5, H6.
  exact (grows_trans _ _ _ _ _ _ _ H1
           (grows_trans _ _ _ _ _ _ _ H2
              (grows_trans _ _ _ _ _ _ _ H3
                 (grows_trans _ _ _ _ _ _ _ H4
                    (grows_trans _ _ _ _ _ _ _ H5 H6))))).
Qed.

Lemma writeMapBody_grows typ entries mapLen f f' offset :
  writeMapBody typ entries mapLen f = (f', Ok offset) ->
  exists b e d, grows f f' (b :: e :: d) d.
Proof.
  unfold writeMapBody. intros H.
  apply bindM_Ok in H as ([lo c] & f1 & Hsetup & H).
  apply bindM_Ok in H as (u & f2 & Hloop & H).
  apply bindM_Ok in H as (id & f3 & Hid & H).
  apply bindM_Ok in H as (off & f4 & Halloc & H).
  apply bindM_Ok in H as (u' & f5 & Hhdr & Hret).
  apply ret_frame in Hret as [-> _].
  apply writeMapSetup_grows in Hsetup.
  apply writeEntries_grows in Hloop as [d Hloop].
  apply liftR_frame in Hid as [-> _].
  apply callPlain_Ok in Halloc. apply allocate_grows in Halloc.
  apply writeHeader_grows in Hhdr.
  exists (bucketsBufferOffset lo), (entriesBufferOffset lo), d.
  pose proof (grows_trans _ _ _ _ _ _ _ Hsetup
               (grows_trans _ _ _ _ _ _ _ Hloop
                  (grows_trans _ _ _ _ _ _ _ Halloc Hhdr))) as Hg.
  cbn in Hg. now rewrite !app_nil_r in Hg.
Qed.

(** A deferred loop that ends with [err == nil] has unpinned every
    recorded pointer, in order, and pinned nothing. *)
Lemma unpinAll_Ok (ptrs : list Z) :
  forall f f2,
    unpinAll ptrs f None = (f2, None) ->
    unpinCalls (calls f2) = unpinCalls (calls f) ++ ptrs /\
    pinCalls (calls f2) = pinCalls (calls f) /\
    allocatedFieldPtrs (calls f2) = allocatedFieldPtrs (calls f) /\
    pins f2 = pins f.
Proof.
  induction ptrs as [|p rest IH]; intros f f2; cbn.
  - intros [= <-]. now rewrite app_nil_r.
  - unfold unpin at 1. destruct (unpinWasmMemory _ _) as [w [e|]];
      [discriminate|].
    intros H. apply IH in H as (Hu & Hp & Ha & Hpins). cbn in *.
    unfold pinCalls, allocatedFieldPtrs, unpinCalls in *.
    rewrite flat_map_app in Hu, Hp, Ha. cbn in Hu, Hp, Ha.
    rewrite app_nil_r in Hp, Ha. rewrite <- app_assoc in Hu. auto.
Qed.

(** C5.  In a run of [writeMap] whose body reaches [return offset, nil]
    and whose deferred loop leaves [err == nil], the pin calls are the two
    array buffers followed by the non-zero pointers handed back by the
    field codec, so their number is 2 plus the number of those pointers;
    and the unpin calls are exactly the pin calls: each pinned offset is
    unpinned as often as it was pinned, once when the offsets differ. *)
Theorem writeMap_pin_balance (w : W) (typ : string) (kt vt : rtype)
    (entries : list (HostValue * HostValue)) (f1 f2 : frame W) (offset : Z) :
  writeMapBody typ entries (U32.wrap (Z.of_nat (List.length entries)))
    (mkFrame w [] []) = (f1, Ok offset) ->
  unpinAll (pins f1) f1 None = (f2, None) ->
  writeMap w typ (VMap kt vt entries) = Returned f2 offset None /\
  (exists b e,
      pinCalls (calls f2) = b :: e :: allocatedFieldPtrs (calls f2)) /\
  List.length (pinCalls (calls f2)) =
    (2 + List.length (allocatedFieldPtrs (calls f2)))%nat /\
  unpinCalls (calls f2) = pinCalls (calls f2) /\
  (forall p, count_occ Z.eq_dec (unpinCalls (calls f2)) p =
             count_occ Z.eq_dec (pinCalls (calls f2)) p) /\
  (NoDup (pinCalls (calls f2)) ->
   forall p, In p (pinCalls (calls f2)) ->
             count_occ Z.eq_dec (unpinCalls (calls f2)) p = 1%nat).
Proof.
  intros Hbody Hunpin.
  assert (Hret : writeMap w typ (VMap kt vt entries) = Returned f2 offset None).
  { unfold writeMap. rewrite Hbody, Hunpin. reflexivity. }
  apply writeMapBody_grows in Hbody as (b & e & d & Hp & Hc & Ha & Hu).
  apply unpinAll_Ok in Hunpin as (Hu2 & Hc2 & Ha2 & _).
  cbn in Hp, Hc, Ha, Hu.
  assert (Hsame : unpinCalls (calls f2) = pinCalls (calls f2)).
  { rewrite Hu2, Hc2, Hu, Hc, Hp. reflexivity. }
  split; [exact Hret|].
  split; [exists b, e; now rewrite Hc2, Ha2, Hc, Ha|].
  split; [now rewrite Hc2, Ha2, Hc, Ha|].
  split; [exact Hsame|].
  split; [intros p; now rewrite Hsame|].
  intros Hnd p Hin. rewrite Hsame.
  apply NoDup_count_occ' with (decA := Z.eq_dec); assumption.
Qed.

End WriteMapFacts.

(* ================================================================== *)
(** ** A reference guest: linear memory, allocator, type information
       and field codec *)
(* ================================================================== *)

Module Guest.

(** Modelled from the spec: the guest instance behind the MemoryAccessor
    and the Allocator (the adapter's [mod.Memory()], [allocateWasmMemory],
    [pinWasmMemory] and [unpinWasmMemory] are not in [maps.go]).  The
    linear memory is [memSize] bytes, addressed from 0; the allocator hands
    out memory upwards from [heapTop]; [pinned] are the pinned offsets. *)
Record World : Type := mkWorld {
  memSize : Z;
  memByte : Z -> Z;
  heapTop : Z;
  pinned : list Z
}.

Definition inBounds (w : World) (a n : Z) : bool :=
  (0 <=? a) && (a + n <=? memSize w).

Definition storeBytes (w : World) (a : Z) (bytes : list Z) : World :=
  mkWorld (memSize w)
    (fun x => if (a <=? x) && (x <? a + Z.of_nat (List.length bytes))
              then nth (Z.to_nat (x - a)) bytes 0
              else memByte w x)
    (heapTop w) (pinned w).

Definition loadBytes (w : World) (a : Z) (n : nat) : list Z :=
  map (fun i => memByte w (a + Z.of_nat i)) (seq 0 n).

(** Little-endian encoding of the low [n] bytes of [z], and decoding. *)
Fixpoint leEncode (n : nat) (z : Z) : list Z :=
  match n with
  | O => []
  | S n' => (z mod 256) :: leEncode n' (z / 256)
  end.

Fixpoint leDecode (bytes : list Z) : Z :=
  match bytes with
  | [] => 0
  | b :: rest => b + 256 * leDecode rest
  end.

(** Modelled from the spec: MemoryAccessor, [readU32LE(addr) -> (value, ok)]
    and [writeU32LE(addr, value) -> ok]; not ok means out of bounds. *)
Definition read32 (w : World) (a : Z) : option Z :=
  if inBounds w a 4 then Some (leDecode (loadBytes w a 4)) else None.

Definition write32 (w : World) (a v : Z) : option World :=
  if inBounds w a 4 then Some (storeBytes w a (leEncode 4 v)) else None.

Definition allocHeaderSize : Z := 8.

(** Modelled from the spec: Allocator, [allocate(size, typeId) -> offset].
    A block has a header holding the type id and, in the word right before
    the data, the byte length; the data is zero-initialized. *)
Definition alloc (w : World) (size id : Z) : World * (Z + error) :=
  let ptr := heapTop w + allocHeaderSize in
  if (0 <=? size) && (ptr + size <=? memSize w) then
    let w1 := storeBytes w (ptr - 8) (leEncode 4 id) in
    let w2 := storeBytes w1 (ptr - 4) (leEncode 4 size) in
    let w3 := storeBytes w2 ptr (repeat 0 (Z.to_nat size)) in
    (mkWorld (memSize w3) (memByte w3) (ptr + size) (pinned w3), inl ptr)
  else (w, inr (Errorf "out of memory")).

Definition isPinned (w : World) (ptr : Z) : bool :=
  existsb (Z.eqb ptr) (pinned w).

(** Modelled from the spec: Allocator, [pin(offset) -> error] and
    [unpin(offset) -> error]. *)
Definition pinObj (w : World) (ptr : Z) : World * option error :=
  if isPinned w ptr then (w, Some (Errorf "object is already pinned"))
  else (mkWorld (memSize w) (memByte w) (heapTop w) (ptr :: pinned w), None).

Definition unpinObj (w : World) (ptr : Z) : World * option error :=
  if isPinned w ptr then
    (mkWorld (memSize w) (memByte w) (heapTop w)
       (filter (fun p => negb (p =? ptr)) (pinned w)), None)
  else (w, Some (Errorf "object is not pinned")).

(** Modelled from the spec: FieldCodec, writing raw bytes into a new
    allocation.  *)
Definition storeRaw (w : World) (bytes : list Z) (id : Z)
  : World * (Z + error) :=
  let (w1, r) := alloc w (Z.of_nat (List.length bytes)) id in
  match r with
  | inl ptr => (storeBytes w1 ptr bytes, inl ptr)
  | inr e => (w1, inr e)
  end.

(** Modelled from the spec: the logical types the TypeResolver and the
    FieldCodec of the reference guest know. *)
Inductive guestType : Type :=
| GInt (signed : bool) (bits : Z)
| GBool
| GString
| GBuffer
| GUnknown.

Definition classify (t : string) : guestType :=
  if String.eqb t "i8" then GInt true 8
  else if String.eqb t "u8" then GInt false 8
  else if String.eqb t "i16" then GInt true 16
  else if String.eqb t "u16" then GInt false 16
  else if String.eqb t "i32" then GInt true 32
  else if String.eqb t "u32" then GInt false 32
  else if String.eqb t "i64" then GInt true 64
  else if String.eqb t "u64" then GInt false 64
  else if String.eqb t "bool" then GBool
  else if String.eqb t "string" then GString
  else if String.eqb t "ArrayBuffer" then GBuffer
  else GUnknown.

(** Modelled from the spec: TypeResolver, [sizeOfType]. *)
Definition sizeOfType (t : string) : Z :=
  match classify t with
  | GInt _ bits => bits / 8
  | GBool => 1
  | GString | GBuffer => 4
  | GUnknown => if String.eqb t "f64" then 8 else 4
  end.

(** Modelled from the spec: the host type a logical type is read as. *)
Definition reflectedType (t : string) : rtype + error :=
  match classify t with
  | GInt s bits => inl (TInt s bits)
  | GBool => inl TBool
  | GString => inl TString
  | GBuffer => inl (TSlice (TInt false 8))
  | GUnknown => inr (ErrorfT "unknown type" (VString t))
  end.

(** Modelled from the spec: TypeResolver, [mapSubtypes]: the two type
    arguments of [Map<K,V>], split at the first comma outside brackets. *)
Fixpoint splitTypeArgs (depth : nat) (acc : string) (s : string)
  : string * string :=
  match s with
  | EmptyString => (acc, EmptyString)
  | String c rest =>
      if Ascii.eqb c "," then
        match depth with
        | O => (acc, rest)
        | _ => splitTypeArgs depth (acc ++ String c EmptyString) rest
        end
      else if Ascii.eqb c "<" then
        splitTypeArgs (S depth) (acc ++ String c EmptyString) rest
      else if Ascii.eqb c ">" then
        splitTypeArgs (pred depth) (acc ++ String c EmptyString) rest
      else splitTypeArgs depth (acc ++ String c EmptyString) rest
  end.

Definition isMapType (typ : string) : bool :=
  String.prefix "Map<" typ &&
  String.eqb (String.substring (String.length typ - 1) 1 typ) ">".

Definition mapSubtypes (typ : string) : string * string :=
  if isMapType typ then
    splitTypeArgs 0 EmptyString
      (String.substring 4 (String.length typ - 5) typ)
  else (EmptyString, EmptyString).

(** Modelled from the spec: TypeResolver, [typeDefinition]; only the id
    is used. *)
Definition mapTypeId : Z := 16.

Definition typeDefinitionId (typ : string) : Z + error :=
  if isMapType typ then inl mapTypeId
  else inr (ErrorfT "type not found" (VString typ)).

Definition intInRange (signed : bool) (bits z : Z) : bool :=
  if signed then (- 2 ^ (bits - 1) <=? z) && (z <? 2 ^ (bits - 1))
  else (0 <=? z) && (z <? 2 ^ bits).

Definition decodeInt (signed : bool) (bits u : Z) : Z :=
  if signed && (2 ^ (bits - 1) <=? u) then u - 2 ^ bits else u.

Definition byteOfItem (v : HostValue) : option Z :=
  match v with
  | VInt false 8 z => if intInRange false 8 z then Some z else None
  | _ => None
  end.

Fixpoint bytesOfItems (items : list HostValue) : option (list Z) :=
  match items with
  | [] => Some []
  | v :: rest =>
      match byteOfItem v, bytesOfItems rest with
      | Some b, Some bs => Some (b :: bs)
      | _, _ => None
      end
  end.

Definition typeMismatch : error := Errorf "value does not fit the type".
Definition memoryFault : error := Errorf "out of bounds memory access".

Definition stringTypeId : Z := 2.
Definition bufferTypeId : Z := 1.

(** The text side of the codec and the hash function are left open: the
    UTF-16 transcoder of [utils] and the hash of the [hash] package. *)
Record TextCodec : Type := mkTextCodec {
  encodeUTF16 : string -> list Z;
  decodeUTF16 : list Z -> string;
  hashBytes : list Z -> Z;
  hashValue : HostValue -> Z
}.

Section Codec.
Variable tc : TextCodec.

(** Modelled from the spec: FieldCodec, a pointer field; the bytes go to
    a new allocation and the pointer is written at [addr]. *)
Definition writePointer (w : World) (addr : Z) (bytes : list Z) (id : Z)
  : World * (Z + error) :=
  let (w1, r) := storeRaw w bytes id in
  match r with
  | inl ptr =>
      match write32 w1 addr ptr with
      | Some w2 => (w2, inl ptr)
      | None => (w1, inr memoryFault)
      end
  | inr e => (w1, inr e)
  end.

(** Modelled from the spec: FieldCodec, [writeField(type, addr, value) ->
    (allocatedPtr, error)], 0 when the value is written inline. *)
Definition storeField (w : World) (typ : string) (addr : Z) (v : HostValue)
  : World * (Z + error) :=
  match classify typ, v with
  | GInt s bits, VInt s' bits' z =>
      if Bool.eqb s s' && (bits =? bits') && intInRange s bits z then
        if inBounds w addr (bits / 8) then
          (storeBytes w addr (leEncode (Z.to_nat (bits / 8)) (z mod 2 ^ bits)),
           inl 0)
        else (w, inr memoryFault)
      else (w, inr typeMismatch)
  | GBool, VBool b =>
      if inBounds w addr 1 then
        (storeBytes w addr [if b then 1 else 0], inl 0)
      else (w, inr memoryFault)
  | GString, VString s => writePointer w addr (encodeUTF16 tc s) stringTypeId
  | GBuffer, VSlice (TInt false 8) items =>
      match bytesOfItems items with
      | Some bytes => writePointer w addr bytes bufferTypeId
      | None => (w, inr typeMismatch)
      end
  | _, _ => (w, inr typeMismatch)
  end.

Definition readPointer (w : World) (addr : Z) : (list Z) + error :=
  match read32 w addr with
  | None => inr memoryFault
  | Some ptr =>
      match read32 w (U32.sub ptr 4) with
      | None => inr memoryFault
      | Some len =>
          if inBounds w ptr len then inl (loadBytes w ptr (Z.to_nat len))
          else inr memoryFault
      end
  end.

(** Modelled from the spec: FieldCodec, [readField(type, addr) -> value]. *)
Definition loadField (w : World) (typ : string) (addr : Z) : HostValue + error :=
  match classify typ with
  | GInt s bits =>
      if inBounds w addr (bits / 8) then
        inl (VInt s bits
               (decodeInt s bits
                  (leDecode (loadBytes w addr (Z.to_nat (bits / 8))))))
      else inr memoryFault
  | GBool =>
      if inBounds w addr 1 then inl (VBool (negb (memByte w addr =? 0)))
      else inr memoryFault
  | GString =>
      match readPointer w addr with
      | inl bytes => inl (VString (decodeUTF16 tc bytes))
      | inr e => inr e
      end
  | GBuffer =>
      match readPointer w addr with
      | inl bytes => inl (VSlice (TInt false 8) (map (VInt false 8) bytes))
      | inr e => inr e
      end
  | GUnknown => inr (ErrorfT "unknown type" (VString typ))
  end.

(** The reference guest as an adapter. *)
Definition adapter : Adapter World :=
  Build_Adapter World
    read32 write32 alloc pinObj unpinObj
    mapSubtypes sizeOfType typeDefinitionId reflectedType
    loadField storeField storeRaw
    (encodeUTF16 tc) (hashBytes tc) (hashValue tc).

End Codec.

(** A small text codec for examples: one 16-bit unit per character, and
    a byte-sum hash. *)
Fixpoint unitsOfString (s : string) : list Z :=
  match s with
  | EmptyString => []
  | String c rest => Z.of_nat (nat_of_ascii c) :: 0 :: unitsOfString rest
  end.

Fixpoint stringOfUnits (bytes : list Z) : string :=
  match bytes with
  | lo :: _ :: rest => String (ascii_of_nat (Z.to_nat lo)) (stringOfUnits rest)
  | _ => EmptyString
  end.

Definition sumBytes (bytes : list Z) : Z :=
  U32.wrap (fold_left Z.add bytes 0).

Definition exampleCodec : TextCodec :=
  mkTextCodec unitsOfString stringOfUnits sumBytes
    (fun v => match v with
              | VInt _ _ z => U32.wrap z
              | VBool true => 1
              | _ => 0
              end).

(** An empty guest with [size] bytes of memory, the heap starting at
    [top]. *)
Definition emptyWorld (size top : Z) : World :=
  mkWorld size (fun _ => 0) top [].

End Guest.

(* ================================================================== *)
(** ** Facts about the reference guest *)
(* ================================================================== *)

Module GuestFacts.
Import Guest.

(** *** Bytes *)

Lemma length_leEncode (n : nat) : forall z, List.length (leEncode n z) = n.
Proof. induction n as [|n IH]; intros z; cbn; [reflexivity | now rewrite IH]. Qed.

Lemma leDecode_leEncode (n : nat) :
  forall z, leDecode (leEncode n z) = z mod 256 ^ Z.of_nat n.
Proof.
  induction n as [|n IH]; intros z.
  - cbn. now rewrite Z.mod_1_r.
  - cbn [leEncode leDecode]. rewrite IH.
    rewrite Nat2Z.inj_succ, Z.pow_succ_r by lia.
    rewrite Z.rem_mul_r by (try apply Z.pow_nonzero; lia).
    reflexivity.
Qed.

Lemma storeBytes_outside (w : World) (a : Z) (bytes : list Z) (x : Z) :
  x < a \/ a + Z.of_nat (List.length bytes) <= x ->
  memByte (storeBytes w a bytes) x = memByte w x.
Proof.
  intros H. cbn.
  destruct (Z.leb_spec a x); destruct (Z.ltb_spec x (a + Z.of_nat (List.length bytes)));
    cbn; try reflexivity; lia.
Qed.

Lemma storeBytes_inside (w : World) (a : Z) (bytes : list Z) (i : nat) :
  (i < List.length bytes)%nat ->
  memByte (storeBytes w a bytes) (a + Z.of_nat i) = nth i bytes 0.
Proof.
  intros H. cbn.
  destruct (Z.leb_spec a (a + Z.of_nat i)); [|lia].
  destruct (Z.ltb_spec (a + Z.of_nat i) (a + Z.of_nat (List.length bytes))); [|lia].
  cbn. f_equal. lia.
Qed.

Lemma loadBytes_ext (w w' : World) (a : Z) (n : nat) :
  (forall x, a <= x < a + Z.of_nat n -> memByte w' x = memByte w x) ->
  loadBytes w' a n = loadBytes w a n.
Proof.
  intros H. unfold loadBytes. apply map_ext_in. intros i Hi.
  apply in_seq in Hi. apply H. lia.
Qed.

Lemma map_nth_seq (l : list Z) :
  map (fun i => nth i l 0) (seq 0 (List.length l)) = l.
Proof.
  induction l as [|x l IH]; [reflexivity|].
  cbn [List.length seq map nth]. f_equal.
  rewrite <- seq_shift, map_map. exact IH.
Qed.

Lemma loadBytes_storeBytes (w : World) (a : Z) (bytes : list Z) :
  loadBytes (storeBytes w a bytes) a (List.length bytes) = bytes.
Proof.
  unfold loadBytes.
  transitivity (map (fun i => nth i bytes 0) (seq 0 (List.length bytes)));
    [|apply map_nth_seq].
  apply map_ext_in. intros i Hi. apply in_seq in Hi.
  apply storeBytes_inside. lia.
Qed.

Lemma loadBytes_storeBytes_len (w : World) (a : Z) (bytes : list Z) (n : nat) :
  n = List.length bytes -> loadBytes (storeBytes w a bytes) a n = bytes.
Proof. intros ->. apply loadBytes_storeBytes. Qed.

(** *** Worlds that agree on a set of addresses *)

Definition agreeOn (P : Z -> Prop) (w w' : World) : Prop :=
  memSize w' = memSize w /\ forall x, P x -> memByte w' x = memByte w x.

Lemma agreeOn_refl P w : agreeOn P w w.
Proof. split; auto. Qed.

Lemma agreeOn_trans P w1 w2 w3 :
  agreeOn P w1 w2 -> agreeOn P w2 w3 -> agreeOn P w1 w3.
Proof.
  intros [Hs1 Hb1] [Hs2 Hb2]. split; [congruence|].
  intros x Hx. rewrite Hb2, Hb1; auto.
Qed.

Lemma agreeOn_weaken (P Q : Z -> Prop) w w' :
  (forall x, Q x -> P x) -> agreeOn P w w' -> agreeOn Q w w'.
Proof. intros Hsub [Hs Hb]. split; auto. Qed.

Lemma agreeOn_sym P w w' : agreeOn P w w' -> agreeOn P w' w.
Proof. intros [Hs Hb]. split; [congruence|]. intros x Hx. now rewrite Hb. Qed.

Lemma inBounds_agree P w w' a n :
  agreeOn P w w' -> inBounds w' a n = inBounds w a n.
Proof. intros [Hs _]. unfold inBounds. now rewrite Hs. Qed.

Lemma read32_agree P w w' a :
  agreeOn P w w' -> (forall x, a <= x < a + 4 -> P x) ->
  read32 w' a = read32 w a.
Proof.
  intros Hag HP. unfold read32. rewrite (inBounds_agree _ _ _ _ _ Hag).
  destruct (inBounds w a 4); [|reflexivity].
  f_equal. f_equal. apply loadBytes_ext. intros x Hx.
  destruct Hag as [_ Hb]. apply Hb, HP. cbn in Hx. lia.
Qed.

Lemma storeBytes_agree (w : World) (a : Z) (bytes : list Z) :
  agreeOn (fun x => x < a \/ a + Z.of_nat (List.length bytes) <= x)
          w (storeBytes w a bytes).
Proof. split; [reflexivity|]. intros x Hx. now apply storeBytes_outside. Qed.

Lemma inBounds_true (w : World) (a n : Z) :
  inBounds w a n = true <-> 0 <= a /\ a + n <= memSize w.
Proof. unfold inBounds. rewrite andb_true_iff, Z.leb_le, Z.leb_le. tauto. Qed.

Lemma write32_inv (w w' : World) (a v : Z) :
  write32 w a v = Some w' ->
  w' = storeBytes w a (leEncode 4 v) /\ 0 <= a /\ a + 4 <= memSize w.
Proof.
  unfold write32. destruct (inBounds w a 4) eqn:Hb; [|discriminate].
  intros [= <-]. apply inBounds_true in Hb. auto.
Qed.

Lemma write32_ok (w : World) (a v : Z) :
  0 <= a -> a + 4 <= memSize w ->
  write32 w a v = Some (storeBytes w a (leEncode 4 v)).
Proof.
  intros H0 H1. unfold write32.
  assert (inBounds w a 4 = true) as -> by (apply inBounds_true; lia).
  reflexivity.
Qed.

Lemma read32_storeBytes_same (w : World) (a v : Z) :
  0 <= a -> a + 4 <= memSize w -> 0 <= v < 2 ^ 32 ->
  read32 (storeBytes w a (leEncode 4 v)) a = Some v.
Proof.
  intros H0 H1 Hv. unfold read32.
  assert (inBounds (storeBytes w a (leEncode 4 v)) a 4 = true) as ->
    by (apply inBounds_true; cbn; lia).
  f_equal.
  change 4%nat with (List.length (leEncode 4 v)) at 1.
  rewrite loadBytes_storeBytes, leDecode_leEncode.
  change (256 ^ Z.of_nat 4) with (2 ^ 32). now apply Z.mod_small.
Qed.

Lemma read32_storeBytes_other (w : World) (a a' : Z) (bytes : list Z) :
  a' + 4 <= a \/ a + Z.of_nat (List.length bytes) <= a' ->
  read32 (storeBytes w a bytes) a' = read32 w a'.
Proof.
  intros H. apply (read32_agree _ _ _ _ (storeBytes_agree w a bytes)).
  intros x Hx. lia.
Qed.

Lemma read32_range (w : World) (a v : Z) :
  read32 w a = Some v -> 0 <= a /\ a + 4 <= memSize w.
Proof.
  unfold read32. destruct (inBounds w a 4) eqn:Hb; [|discriminate].
  intros _. now apply inBounds_true in Hb.
Qed.


(** *** The allocator *)

(** The guest after a successful allocation. *)
Definition allocated (w : World) (size id : Z) : World :=
  let ptr := heapTop w + 8 in
  let w1 := storeBytes w (ptr - 8) (leEncode 4 id) in
  let w2 := storeBytes w1 (ptr - 4) (leEncode 4 size) in
  let w3 := storeBytes w2 ptr (repeat 0 (Z.to_nat size)) in
  mkWorld (memSize w3) (memByte w3) (ptr + size) (pinned w3).

Lemma alloc_ok (w : World) (size id : Z) :
  0 <= size -> heapTop w + 8 + size <= memSize w ->
  alloc w size id = (allocated w size id, inl (heapTop w + 8)).
Proof.
  intros Hs Hfit. unfold alloc, allocHeaderSize.
  destruct (Z.leb_spec 0 size); [|lia].
  destruct (Z.leb_spec (heapTop w + 8 + size) (memSize w)); [|lia].
  reflexivity.
Qed.

Lemma allocated_agree (w : World) (size id : Z) :
  agreeOn (fun x => x < heapTop w) w (allocated w size id).
Proof.
  split; [reflexivity|]. intros x Hx. unfold allocated. cbn [memByte].
  rewrite !storeBytes_outside; try reflexivity;
    rewrite ?length_leEncode, ?repeat_length; lia.
Qed.

Lemma same_memory_read32 (w w' : World) (a : Z) :
  memSize w' = memSize w -> (forall x, memByte w' x = memByte w x) ->
  read32 w' a = read32 w a.
Proof.
  intros Hs Hb. apply (read32_agree (fun _ => True)); [split; auto | auto].
Qed.

Lemma allocated_length_word (w : World) (size id : Z) :
  0 <= heapTop w -> 0 <= size < 2 ^ 32 ->
  heapTop w + 8 + size <= memSize w ->
  read32 (allocated w size id) (heapTop w + 4) = Some size.
Proof.
  intros Ht Hs Hfit. unfold allocated.
  set (w1 := storeBytes w (heapTop w + 8 - 8) (leEncode 4 id)).
  set (w2 := storeBytes w1 (heapTop w + 8 - 4) (leEncode 4 size)).
  set (w3 := storeBytes w2 (heapTop w + 8) (repeat 0 (Z.to_nat size))).
  rewrite (same_memory_read32 w3) by reflexivity.
  unfold w3. rewrite read32_storeBytes_other by lia.
  unfold w2. replace (heapTop w + 8 - 4) with (heapTop w + 4) by lia.
  apply read32_storeBytes_same; cbn; lia.
Qed.

Lemma allocated_zero (w : World) (size id x : Z) :
  heapTop w + 8 <= x < heapTop w + 8 + size ->
  memByte (allocated w size id) x = 0.
Proof.
  intros Hx. unfold allocated. cbn [memByte storeBytes].
  rewrite repeat_length.
  destruct (Z.leb_spec (heapTop w + 8) x); [|lia].
  destruct (Z.ltb_spec x (heapTop w + 8 + Z.of_nat (Z.to_nat size))); [|lia].
  cbn. apply nth_repeat.
Qed.

Lemma read32_zero (w : World) (a : Z) :
  0 <= a -> a + 4 <= memSize w ->
  (forall x, a <= x < a + 4 -> memByte w x = 0) ->
  read32 w a = Some 0.
Proof.
  intros H0 H1 Hz. unfold read32.
  assert (inBounds w a 4 = true) as -> by (apply inBounds_true; lia).
  f_equal. unfold loadBytes. cbn.
  rewrite !Hz by lia. reflexivity.
Qed.

Lemma storeRaw_ok (w : World) (bytes : list Z) (id : Z) :
  heapTop w + 8 + Z.of_nat (List.length bytes) <= memSize w ->
  storeRaw w bytes id =
  (storeBytes (allocated w (Z.of_nat (List.length bytes)) id)
     (heapTop w + 8) bytes,
   inl (heapTop w + 8)).
Proof.
  intros Hfit. unfold storeRaw. rewrite alloc_ok by lia. reflexivity.
Qed.

(** *** Pins *)

Lemma isPinned_spec (w : World) (p : Z) :
  isPinned w p = true <-> In p (pinned w).
Proof.
  unfold isPinned. rewrite existsb_exists. split.
  - intros (q & Hin & Heq). apply Z.eqb_eq in Heq. now subst.
  - intros Hin. exists p. split; [assumption | apply Z.eqb_refl].
Qed.

Lemma pinObj_fresh (w : World) (p : Z) :
  ~ In p (pinned w) ->
  pinObj w p =
  (mkWorld (memSize w) (memByte w) (heapTop w) (p :: pinned w), None).
Proof.
  intros Hn. unfold pinObj.
  destruct (isPinned w p) eqn:Hp; [|reflexivity].
  apply isPinned_spec in Hp. contradiction.
Qed.

Lemma unpinObj_pinned (w : World) (p : Z) :
  In p (pinned w) ->
  unpinObj w p =
  (mkWorld (memSize w) (memByte w) (heapTop w)
     (filter (fun q => negb (q =? p)) (pinned w)), None).
Proof.
  intros Hin. unfold unpinObj.
  apply isPinned_spec in Hin. now rewrite Hin.
Qed.


(** *** The field codec *)

Lemma classify_int (t : string) (s : bool) (bits : Z) :
  classify t = GInt s bits -> In bits [8; 16; 32; 64].
Proof.
  unfold classify.
  repeat match goal with
         | |- context [String.eqb t ?l] => destruct (String.eqb t l)
         end; intros [= <- <-] || discriminate; cbn; tauto.
Qed.

Lemma decodeInt_encode (s : bool) (bits z : Z) :
  1 <= bits -> intInRange s bits z = true ->
  decodeInt s bits (z mod 2 ^ bits) = z.
Proof.
  intros Hb Hr. unfold intInRange, decodeInt in *.
  assert (H2 : 2 ^ bits = 2 * 2 ^ (bits - 1)).
  { rewrite <- Z.pow_succ_r by lia. f_equal. lia. }
  assert (0 < 2 ^ (bits - 1)) by (apply pow2_pos; lia).
  destruct s; apply andb_true_iff in Hr as [H0 H1];
    apply Z.leb_le in H0; apply Z.ltb_lt in H1; cbn [andb].
  - destruct (Z_lt_ge_dec z 0) as [Hneg | Hpos].
    + assert (z mod 2 ^ bits = z + 2 ^ bits) as ->.
      { symmetry. apply (Z.mod_unique _ _ (-1)); lia. }
      destruct (Z.leb_spec (2 ^ (bits - 1)) (z + 2 ^ bits)); lia.
    + rewrite Z.mod_small by lia.
      destruct (Z.leb_spec (2 ^ (bits - 1)) z); lia.
  - now rewrite Z.mod_small by lia.
Qed.

Section CodecFacts.
Variable tc : TextCodec.

(** [v] is a value of the logical type [t] that the codec can carry: an
    integer of that width and sign in range, a boolean, or a string that
    survives the UTF-16 transcoding. *)
Definition hasType (t : string) (v : HostValue) : Prop :=
  match classify t, v with
  | GInt s bits, VInt s' bits' z =>
      s' = s /\ bits' = bits /\ intInRange s bits z = true
  | GBool, VBool _ => True
  | GString, VString s => decodeUTF16 tc (encodeUTF16 tc s) = s
  | _, _ => False
  end.

(** The guest memory a field of type [t] holding [v] needs besides its
    slot: a string is an allocation of its own. *)
Definition fieldSpace (t : string) (v : HostValue) : Z :=
  match classify t, v with
  | GString, VString s => 8 + Z.of_nat (List.length (encodeUTF16 tc s))
  | _, _ => 0
  end.

(** What a successful field write leaves behind. *)
Record fieldStored (w w' : World) (t : string) (addr : Z) (v : HostValue)
    (ptr : Z) : Prop := {
  fs_size : memSize w' = memSize w;
  fs_pinned : pinned w' = pinned w;
  fs_top : heapTop w' = heapTop w + fieldSpace t v;
  fs_ptr : (ptr = 0 /\ fieldSpace t v = 0) \/
           (ptr = heapTop w + 8 /\ 8 <= fieldSpace t v);
  fs_frame : agreeOn (fun x => x < heapTop w /\
                               ~ (addr <= x < addr + sizeOfType t)) w w';
  fs_decode : forall w'',
      agreeOn (fun x => addr <= x < addr + sizeOfType t \/
                        heapTop w <= x < heapTop w') w' w'' ->
      loadField tc w'' t addr = inl v
}.

(** The guest after a string (or buffer) field has been written. *)
Definition pointerStored (w : World) (addr : Z) (bytes : list Z) (id : Z) : World :=
  storeBytes
    (storeBytes (allocated w (Z.of_nat (List.length bytes)) id)
       (heapTop w + 8) bytes)
    addr (leEncode 4 (heapTop w + 8)).

Lemma writePointer_ok (w : World) (addr : Z) (bytes : list Z) (id : Z) :
  0 <= addr -> addr + 4 <= memSize w ->
  heapTop w + 8 + Z.of_nat (List.length bytes) <= memSize w ->
  writePointer w addr bytes id =
  (pointerStored w addr bytes id, inl (heapTop w + 8)).
Proof.
  intros Ha Hb Hfit. unfold writePointer. rewrite storeRaw_ok by assumption.
  rewrite write32_ok by (cbn; lia). reflexivity.
Qed.

Lemma pointerStored_frame (w : World) (addr : Z) (bytes : list Z) (id : Z) :
  agreeOn (fun x => x < heapTop w /\ ~ (addr <= x < addr + 4))
          w (pointerStored w addr bytes id).
Proof.
  unfold pointerStored.
  set (w0 := allocated w (Z.of_nat (List.length bytes)) id).
  set (w1 := storeBytes w0 (heapTop w + 8) bytes).
  apply agreeOn_trans with (w2 := w0); [|apply agreeOn_trans with (w2 := w1)].
  - eapply agreeOn_weaken; [|apply allocated_agree]. cbn. intros; lia.
  - eapply agreeOn_weaken; [|apply (storeBytes_agree w0 (heapTop w + 8) bytes)].
    cbn. intros; lia.
  - eapply agreeOn_weaken;
      [|apply (storeBytes_agree w1 addr (leEncode 4 (heapTop w + 8)))].
    cbn beta. intros x Hx. rewrite length_leEncode. lia.
Qed.

Lemma pointerStored_read (w w'' : World) (addr : Z) (bytes : list Z) (id : Z) :
  0 <= addr -> addr + 4 <= heapTop w -> 0 <= heapTop w ->
  heapTop w + 8 + Z.of_nat (List.length bytes) <= memSize w ->
  heapTop w + 8 < 2 ^ 32 -> Z.of_nat (List.length bytes) < 2 ^ 32 ->
  agreeOn (fun x => addr <= x < addr + 4 \/
                    heapTop w <= x < heapTop w + 8 + Z.of_nat (List.length bytes))
          (pointerStored w addr bytes id) w'' ->
  readPointer w'' addr = inl bytes.
Proof.
  intros Ha Hb Ht Hfit Hp Hl Hag.
  set (L := Z.of_nat (List.length bytes)) in *.
  set (ptr := heapTop w + 8) in *.
  set (w0 := allocated w L id).
  set (w1 := storeBytes w0 ptr bytes).
  assert (Hs1 : memSize w1 = memSize w) by reflexivity.
  assert (Hps : pointerStored w addr bytes id = storeBytes w1 addr (leEncode 4 ptr))
    by reflexivity.
  unfold readPointer.
  (* the pointer *)
  assert (read32 w'' addr = Some ptr) as ->.
  { rewrite (read32_agree _ _ _ _ Hag) by (intros; lia).
    rewrite Hps. apply read32_storeBytes_same; cbn; lia. }
  (* the length word *)
  assert (U32.sub ptr 4 = heapTop w + 4) as ->.
  { unfold U32.sub. rewrite wrap_small; unfold ptr; lia. }
  assert (read32 w'' (heapTop w + 4) = Some L) as ->.
  { rewrite (read32_agree _ _ _ _ Hag) by (intros; unfold ptr, L in *; lia).
    rewrite Hps. rewrite read32_storeBytes_other by (rewrite length_leEncode; lia).
    unfold w1. rewrite read32_storeBytes_other by (unfold ptr; lia).
    apply allocated_length_word; unfold L; lia. }
  (* the bytes *)
  assert (inBounds w'' ptr L = true) as ->.
  { apply inBounds_true. destruct Hag as [-> _]. cbn. unfold ptr, L in *. lia. }
  f_equal. unfold L. rewrite Nat2Z.id.
  rewrite (loadBytes_ext (pointerStored w addr bytes id)).
  - rewrite Hps.
    rewrite (loadBytes_ext w1).
    + apply loadBytes_storeBytes.
    + intros x Hx. apply storeBytes_outside. rewrite length_leEncode.
      unfold ptr in *. lia.
  - intros x Hx. destruct Hag as [_ Hbytes]. apply Hbytes.
    unfold ptr, L in *. lia.
Qed.

Lemma storeField_ok (w : World) (t : string) (addr : Z) (v : HostValue) :
  hasType t v ->
  0 <= addr -> addr + sizeOfType t <= heapTop w ->
  heapTop w + fieldSpace t v < memSize w -> memSize w <= 2 ^ 32 ->
  exists w' ptr,
    storeField tc w t addr v = (w', inl ptr) /\
    fieldStored w w' t addr v ptr.
Proof.
  intros Hty Ha Hslot Hfit Hmax.
  unfold hasType in Hty. unfold storeField, fieldSpace, sizeOfType in *.
  destruct (classify t) as [s bits| | | |] eqn:Hc; try contradiction.
  - (* an integer *)
    destruct v as [| |s' bits' z| | | |]; try contradiction.
    destruct Hty as (-> & -> & Hr).
    pose proof (classify_int _ _ _ Hc) as Hbits.
    assert (Hn : 1 <= bits / 8 /\ 2 ^ bits = 256 ^ Z.of_nat (Z.to_nat (bits / 8)) /\
                 1 <= bits).
    { cbn in Hbits.
      destruct Hbits as [<- | [<- | [<- | [<- | []]]]]; repeat split; cbn; lia. }
    destruct Hn as (Hn1 & Hpow & Hb1).
    rewrite Bool.eqb_reflx, Z.eqb_refl, Hr. cbn [andb].
    assert (inBounds w addr (bits / 8) = true) as ->
      by (apply inBounds_true; lia).
    eexists _, 0. split; [reflexivity|].
    constructor; unfold fieldSpace, sizeOfType; rewrite ?Hc; cbn [memSize pinned heapTop storeBytes].
    + reflexivity.
    + reflexivity.
    + lia.
    + left. split; reflexivity.
    + eapply agreeOn_weaken; [|apply storeBytes_agree].
      cbn. intros x Hx. rewrite length_leEncode. lia.
    + intros w'' Hag. unfold loadField. rewrite Hc.
      rewrite (inBounds_agree _ _ _ _ _ Hag).
      assert (inBounds (storeBytes w addr
                (leEncode (Z.to_nat (bits / 8)) (z mod 2 ^ bits))) addr (bits / 8) = true)
        as -> by (apply inBounds_true; cbn; lia).
      f_equal. f_equal.
      rewrite (loadBytes_ext (storeBytes w addr
                (leEncode (Z.to_nat (bits / 8)) (z mod 2 ^ bits)))).
      * rewrite loadBytes_storeBytes_len by (now rewrite length_leEncode).
        rewrite leDecode_leEncode, <- Hpow.
        rewrite Z.mod_mod by (apply Z.pow_nonzero; lia).
        now apply decodeInt_encode.
      * intros x Hx. destruct Hag as [_ Hbytes]. apply Hbytes. left. lia.
  - (* a boolean *)
    destruct v as [|b| | | | |]; try contradiction.
    assert (inBounds w addr 1 = true) as -> by (apply inBounds_true; lia).
    eexists _, 0. split; [reflexivity|].
    constructor; unfold fieldSpace, sizeOfType; rewrite ?Hc; cbn [memSize pinned heapTop storeBytes].
    + reflexivity.
    + reflexivity.
    + lia.
    + left. split; reflexivity.
    + eapply agreeOn_weaken; [|apply storeBytes_agree]. cbn. intros; lia.
    + intros w'' Hag. unfold loadField. rewrite Hc.
      rewrite (inBounds_agree _ _ _ _ _ Hag).
      assert (inBounds (storeBytes w addr [if b then 1 else 0]) addr 1 = true)
        as -> by (apply inBounds_true; cbn; lia).
      destruct Hag as [_ Hbytes]. rewrite Hbytes by lia.
      replace addr with (addr + Z.of_nat 0) at 2 by lia.
      rewrite storeBytes_inside by (cbn; lia).
      cbn. now destruct b.
  - (* a string *)
    destruct v as [| | |s| | |]; try contradiction.
    rewrite writePointer_ok by lia.
    eexists _, _. split; [reflexivity|].
    constructor; unfold fieldSpace, sizeOfType; rewrite ?Hc.
    + reflexivity.
    + reflexivity.
    + unfold pointerStored, allocated. cbn [heapTop storeBytes]. lia.
    + right. split; [reflexivity | lia].
    + apply pointerStored_frame.
    + intros w'' Hag. unfold loadField. rewrite Hc.
      rewrite (pointerStored_read w w'' addr (encodeUTF16 tc s) stringTypeId);
        try lia.
      * now rewrite Hty.
      * eapply agreeOn_weaken; [|exact Hag]. cbn. intros; lia.
Qed.

End CodecFacts.

(** *** Steps of [writeMap] on the reference guest *)

Section Steps.
Variable tc : TextCodec.
Let guest : Adapter World := adapter tc.
Local Existing Instance guest.
Local Open Scope go_scope.

Lemma bindM_step {A B : Type} (m : M World A) (k : A -> M World B)
    (f f' : frame World) (a : A) :
  m f = (f', Ok a) -> bindM m k f = k a f'.
Proof. intros H. unfold bindM. now rewrite H. Qed.

(** The hash [writeMap] computes for a key. *)
Definition keyHash (k : HostValue) : Z :=
  match k with
  | VString s => hashBytes tc (encodeUTF16 tc s)
  | _ => hashValue tc k
  end.

Lemma encodeField_ok (f : frame World) (t : string) (addr : Z) (v : HostValue) :
  hasType tc t v ->
  0 <= addr -> addr + sizeOfType t <= heapTop (world f) ->
  heapTop (world f) + fieldSpace tc t v < memSize (world f) ->
  memSize (world f) <= 2 ^ 32 ->
  forall fmt,
  exists f' ptr,
    callWrap fmt (encodeField t addr v) f = (f', Ok ptr) /\
    pins f' = pins f /\
    fieldStored tc (world f) (world f') t addr v ptr.
Proof.
  intros Hty Ha Hslot Hfit Hmax fmt.
  destruct (storeField_ok tc (world f) t addr v Hty Ha Hslot Hfit Hmax)
    as (w' & ptr & Hst & Hfs).
  unfold callWrap, encodeField.
  change (writeField (world f) t addr v) with (storeField tc (world f) t addr v).
  rewrite Hst. cbn. eexists _, ptr. split; [reflexivity|]. split; [reflexivity|].
  exact Hfs.
Qed.

Lemma writeEntryKey_ok (lo : layout) (f : frame World) (addr : Z) (k : HostValue) :
  hasType tc (keyType lo) k ->
  0 <= addr -> addr + sizeOfType (keyType lo) <= heapTop (world f) ->
  heapTop (world f) + fieldSpace tc (keyType lo) k < memSize (world f) ->
  memSize (world f) <= 2 ^ 32 ->
  exists f' ptr,
    writeEntryKey lo addr k f = (f', Ok (keyHash k, ptr)) /\
    pins f' = pins f /\
    fieldStored tc (world f) (world f') (keyType lo) addr k ptr.
Proof.
  intros Hty Ha Hslot Hfit Hmax.
  assert (Hdefault :
    match k with VString _ => False | _ => True end ->
    exists f' ptr,
      (ptr <- callWrap "failed to write map entry key: %w"
                (encodeField (keyType lo) addr k) ;;
       ret (hashValue tc k, ptr)) f = (f', Ok (hashValue tc k, ptr)) /\
      pins f' = pins f /\
      fieldStored tc (world f) (world f') (keyType lo) addr k ptr).
  { intros _.
    destruct (encodeField_ok f (keyType lo) addr k Hty Ha Hslot Hfit Hmax
                "failed to write map entry key: %w")
      as (f' & ptr & Heq & Hp & Hfs).
    exists f', ptr. rewrite (bindM_step _ _ _ _ _ Heq). auto. }
  destruct k; try (apply Hdefault; exact I).
  (* a string key *)
  clear Hdefault.
  pose proof Hty as Hty'. unfold hasType in Hty'.
  destruct (classify (keyType lo)) eqn:Hc; try contradiction.
  destruct (storeField_ok tc (world f) (keyType lo) addr (VString s)
              Hty Ha Hslot Hfit Hmax) as (w' & ptr & Hst & Hfs).
  assert (Hsz : sizeOfType (keyType lo) = 4) by (unfold sizeOfType; now rewrite Hc).
  assert (Hsp : fieldSpace tc (keyType lo) (VString s) =
                8 + Z.of_nat (List.length (encodeUTF16 tc s)))
    by (unfold fieldSpace; now rewrite Hc).
  unfold storeField in Hst. rewrite Hc in Hst.
  rewrite writePointer_ok in Hst by lia.
  injection Hst as <- <-.
  cbn [writeEntryKey keyHash].
  unfold bindM, callWrap, encodeRawBytes.
  change (writeRawBytes (world f) (EncodeUTF16 s) 2)
    with (storeRaw (world f) (encodeUTF16 tc s) 2).
  rewrite storeRaw_ok by lia. cbn [checkWrap].
  unfold writeU32, logCall, setWorld. cbn [world pins calls].
  change (WriteUint32Le ?w ?a ?v) with (write32 w a v).
  rewrite write32_ok by (cbn; lia).
  eexists _, _. split; [reflexivity|]. split; [reflexivity|]. exact Hfs.
Qed.

(** Shape of the guest besides its bytes. *)
Definition sameMemory (w w' : World) : Prop :=
  memSize w' = memSize w /\ memByte w' = memByte w /\ heapTop w' = heapTop w.

Lemma pinIfAllocated_ok (f : frame World) (ptr : Z) :
  (ptr = 0 \/ ~ In ptr (pinned (world f))) ->
  exists f',
    pinIfAllocated ptr f = (f', Ok tt) /\
    sameMemory (world f) (world f') /\
    pins f' = pins f ++ nonZero ptr /\
    pinned (world f') = nonZero ptr ++ pinned (world f).
Proof.
  intros Hp. unfold pinIfAllocated, nonZero.
  destruct (Z.eqb_spec ptr 0) as [-> | Hnz].
  - exists f. unfold ret, sameMemory. rewrite app_nil_r. auto.
  - destruct Hp as [? | Hfresh]; [contradiction|].
    unfold bindM, callErr, pin, appendPin.
    change (pinWasmMemory (world f) ptr) with (pinObj (world f) ptr).
    rewrite pinObj_fresh by assumption. cbn.
    eexists. split; [reflexivity|]. unfold sameMemory. cbn. auto.
Qed.

Lemma linkEntry_ok (lo : layout) (f : frame World) (entryOffset hashCode prev : Z) :
  let bucket := bucketPtrBaseOf lo hashCode in
  let next := U32.add entryOffset (taggedNextOffset lo) in
  read32 (world f) bucket = Some prev ->
  0 <= next -> next + 4 <= memSize (world f) ->
  exists f',
    linkEntry lo entryOffset hashCode f = (f', Ok tt) /\
    pins f' = pins f /\
    world f' =
      storeBytes (storeBytes (world f) next (leEncode 4 prev))
                 bucket (leEncode 4 entryOffset).
Proof.
  intros bucket next Hread Hn0 Hn1.
  pose proof (read32_range _ _ _ Hread) as [Hb0 Hb1].
  unfold linkEntry, bindM, readU32, writeU32.
  change (ReadUint32Le ?w ?a) with (read32 w a).
  fold bucket. rewrite Hread. cbn [orFail].
  change (WriteUint32Le ?w ?a ?v) with (write32 w a v).
  fold next. rewrite write32_ok by assumption.
  unfold setWorld at 1. cbn [world].
  rewrite write32_ok by (cbn; assumption).
  eexists. split; [reflexivity|]. cbn. auto.
Qed.

End Steps.

(** *** Typed values *)

Section Typed.
Variable tc : TextCodec.

Lemma fieldSpace_nonneg (t : string) (v : HostValue) : 0 <= fieldSpace tc t v.
Proof.
  unfold fieldSpace. destruct (classify t); try lia. destruct v; lia.
Qed.

Lemma fieldSpace_inline (t : string) (v : HostValue) :
  classify t <> GString -> fieldSpace tc t v = 0.
Proof.
  intros Hc. unfold fieldSpace. destruct (classify t); try reflexivity.
  contradiction.
Qed.

(** On typed values Go's [==] is equality. *)
Lemma valueEqb_typed (t : string) (a b : HostValue) :
  hasType tc t a -> hasType tc t b -> (valueEqb a b = true <-> a = b).
Proof.
  unfold hasType. destruct (classify t) as [s bits| | | |]; try contradiction.
  - destruct a as [| |s1 b1 z1| | | |]; try contradiction.
    destruct b as [| |s2 b2 z2| | | |]; try contradiction.
    intros (-> & -> & _) (-> & -> & _). cbn.
    rewrite Bool.eqb_reflx, Z.eqb_refl. cbn. rewrite Z.eqb_eq.
    split; [intros ->; reflexivity | intros [= ->]; reflexivity].
  - destruct a as [|x| | | | |]; try contradiction.
    destruct b as [|y| | | | |]; try contradiction.
    intros _ _. cbn. rewrite Bool.eqb_true_iff.
    split; [intros ->; reflexivity | intros [= ->]; reflexivity].
  - destruct a as [| | |x| | |]; try contradiction.
    destruct b as [| | |y| | |]; try contradiction.
    intros _ _. cbn. rewrite String.eqb_eq.
    split; [intros ->; reflexivity | intros [= ->]; reflexivity].
Qed.

Lemma valueEqb_refl_typed (t : string) (a : HostValue) :
  hasType tc t a -> valueEqb a a = true.
Proof. intros H. now apply (valueEqb_typed t a a H H). Qed.


(** Typed entries with pairwise different keys: what a Go map holds. *)
Definition typedEntries (kt vt : string) (entries : list (HostValue * HostValue)) : Prop :=
  Forall (fun kv => hasType tc kt (fst kv) /\ hasType tc vt (snd kv)) entries /\
  NoDup (map fst entries).

Lemma MapIndex_found (kt vt : string) (done rest : list (HostValue * HostValue))
    (k v : HostValue) :
  typedEntries kt vt (done ++ (k, v) :: rest) ->
  MapIndex (done ++ (k, v) :: rest) k = Some v.
Proof.
  intros [Hty Hnd]. induction done as [|[k0 v0] done IH]; cbn in *.
  - apply Forall_inv in Hty. cbn in Hty.
    now rewrite (valueEqb_refl_typed kt k) by tauto.
  - apply NoDup_cons_iff in Hnd as [Hnotin Hnd].
    pose proof (Forall_inv Hty) as Hk0. cbn in Hk0.
    apply Forall_inv_tail in Hty.
    assert (Hk : hasType tc kt k).
    { rewrite Forall_forall in Hty.
      apply (Hty (k, v)). apply in_or_app. right. now left. }
    destruct (valueEqb k0 k) eqn:Heq.
    + apply (valueEqb_typed kt) in Heq; try tauto. subst k0.
      exfalso. apply Hnotin. rewrite map_app. apply in_or_app. right. now left.
    + now apply IH.
Qed.



End Typed.

(** *** The layout of a written map *)

(** The entry size, the value offset and the offset of the tagged-next
    field that [writeMap] computes for the key and value types. *)
Definition slotSize (kt vt : string) : Z :=
  entrySize (sizeOfType kt) (sizeOfType vt).

Definition nextSlot (kt vt : string) : Z :=
  U32.add (getSizeForOffset vt) (getSizeForOffset kt).

Definition layoutOf (kt vt : string) (b e : Z) (c : capacities) : layout :=
  mkLayout kt vt b e (slotSize kt vt) (bucketsMask c)
           (getSizeForOffset kt) (nextSlot kt vt).

(** The guest memory the strings of the entries take. *)
Definition entrySpace (tc : TextCodec) (kt vt : string)
    (kv : HostValue * HostValue) : Z :=
  fieldSpace tc kt (fst kv) + fieldSpace tc vt (snd kv).

Fixpoint stringSpace (tc : TextCodec) (kt vt : string)
    (l : list (HostValue * HostValue)) : Z :=
  match l with
  | [] => 0
  | kv :: rest => entrySpace tc kt vt kv + stringSpace tc kt vt rest
  end.

(** The bucket of a key: [hashCode & bucketsMask]. *)
Definition bucketOf (tc : TextCodec) (mask : Z) (k : HostValue) : Z :=
  U32.and (keyHash tc k) mask.

(** The head of bucket [x] once the entries [l], stored from index [i]
    on at [e + es * index], have been linked in order; [acc] is the head
    before. *)
Fixpoint headFrom (tc : TextCodec) (mask e es : Z) (i : Z)
    (l : list (HostValue * HostValue)) (x acc : Z) : Z :=
  match l with
  | [] => acc
  | (k, _) :: rest =>
      headFrom tc mask e es (i + 1) rest x
        (if bucketOf tc mask k =? x then e + es * i else acc)
  end.

Definition headAfter (tc : TextCodec) (mask e es : Z)
    (done : list (HostValue * HostValue)) (x : Z) : Z :=
  headFrom tc mask e es 0 done x 0.

(** [r] is what the claim calls the bucket's head pointer: 0 when no
    entry of [done] is in bucket [x], else the offset of the last one. *)
Definition lastColliding (tc : TextCodec) (mask e es : Z)
    (done : list (HostValue * HostValue)) (x r : Z) : Prop :=
  (r = 0 /\ forall k v, In (k, v) done -> bucketOf tc mask k <> x) \/
  (exists j k v,
      nth_error done j = Some (k, v) /\ bucketOf tc mask k = x /\
      r = e + es * Z.of_nat j /\
      forall j' k' v', (j < j')%nat -> nth_error done j' = Some (k', v') ->
                       bucketOf tc mask k' <> x).

Lemma stringSpace_app tc kt vt l1 l2 :
  stringSpace tc kt vt (l1 ++ l2) = stringSpace tc kt vt l1 + stringSpace tc kt vt l2.
Proof. induction l1 as [|kv l1 IH]; cbn; [reflexivity | rewrite IH; lia]. Qed.

Lemma entrySpace_nonneg tc kt vt kv : 0 <= entrySpace tc kt vt kv.
Proof.
  unfold entrySpace.
  pose proof (fieldSpace_nonneg tc kt (fst kv)).
  pose proof (fieldSpace_nonneg tc vt (snd kv)). lia.
Qed.

Lemma stringSpace_nonneg tc kt vt l : 0 <= stringSpace tc kt vt l.
Proof.
  induction l as [|kv l IH]; cbn; [lia|].
  pose proof (entrySpace_nonneg tc kt vt kv). lia.
Qed.

Lemma stringSpace_inline tc kt vt l :
  classify kt <> GString -> classify vt <> GString -> stringSpace tc kt vt l = 0.
Proof.
  intros Hk Hv. induction l as [|kv l IH]; cbn; [reflexivity|].
  unfold entrySpace. rewrite !fieldSpace_inline by assumption. lia.
Qed.

Lemma headFrom_snoc tc mask e es l :
  forall i x acc k v,
    headFrom tc mask e es i (l ++ [(k, v)]) x acc =
    if bucketOf tc mask k =? x then e + es * (i + Z.of_nat (List.length l))
    else headFrom tc mask e es i l x acc.
Proof.
  induction l as [|[k0 v0] l IH]; intros i x acc k v; cbn [app headFrom List.length].
  - now replace (i + Z.of_nat 0) with i by lia.
  - rewrite IH. replace (i + 1 + Z.of_nat (List.length l))
      with (i + Z.of_nat (S (List.length l))) by lia. reflexivity.
Qed.

Lemma headAfter_snoc tc mask e es done k v x :
  headAfter tc mask e es (done ++ [(k, v)]) x =
  if bucketOf tc mask k =? x then e + es * Z.of_nat (List.length done)
  else headAfter tc mask e es done x.
Proof. unfold headAfter. now rewrite headFrom_snoc. Qed.

(** [headAfter] computes the last colliding entry. *)
Lemma headAfter_spec tc mask e es done x :
  lastColliding tc mask e es done x (headAfter tc mask e es done x).
Proof.
  induction done as [|[k v] done IH] using rev_ind.
  - left. split; [reflexivity|]. intros k v [].
  - rewrite headAfter_snoc.
    destruct (Z.eqb_spec (bucketOf tc mask k) x) as [Heq | Hne].
    + right. exists (List.length done), k, v.
      split; [now rewrite nth_error_app2, Nat.sub_diag by lia|].
      split; [assumption|]. split; [reflexivity|].
      intros j' k' v' Hlt Hnth.
      assert (nth_error (done ++ [(k, v)]) j' = None) as Hnone.
      { apply nth_error_None. rewrite length_app. cbn. lia. }
      congruence.
    + destruct IH as [[Hz Hnone] | (j & k0 & v0 & Hnth & Hb & Hr & Hlast)].
      * left. split; [assumption|]. intros k' v' Hin.
        apply in_app_or in Hin as [Hin | [[= <- <-] | []]]; eauto.
      * right. exists j, k0, v0.
        assert (j < List.length done)%nat
          by (apply nth_error_Some; congruence).
        split; [now rewrite nth_error_app1|].
        split; [assumption|]. split; [assumption|].
        intros j' k' v' Hlt Hnth'.
        destruct (Nat.lt_ge_cases j' (List.length done)) as [Hin | Hout].
        -- rewrite nth_error_app1 in Hnth' by assumption. eauto.
        -- rewrite nth_error_app2 in Hnth' by assumption.
           destruct (j' - List.length done)%nat as [|m]; cbn in Hnth'.
           ++ now injection Hnth' as <- <-.
           ++ destruct m; discriminate.
Qed.

(** *** The entry loop on the reference guest *)

Ltac norm_pow :=
  change (2 ^ 32) with 4294967296 in *;
  change (2 ^ 28) with 268435456 in *.

Section Loop.
Variable tc : TextCodec.
Let guest : Adapter World := adapter tc.
Local Existing Instance guest.
Local Open Scope go_scope.

Variables (kt vt : string) (entries : list (HostValue * HostValue)).
Variables (b e msz : Z) (c : capacities).

Let ks := sizeOfType kt.
Let vs := sizeOfType vt.
Let es := slotSize kt vt.
Let vo := getSizeForOffset kt.
Let tn := nextSlot kt vt.
Let lo := layoutOf kt vt b e c.
Let bC := bucketsCapacity c.
Let eC := entriesCapacity c.
Let mask := bucketsMask c.
Let H0 := e + es * eC.

(** Where the two array buffers lie and what the entry layout gives: the
    buckets buffer at [b], the entries buffer at [e] right after it, both
    inside a memory of [msz] bytes with room for the strings and the header;
    the key, the value and the tagged-next field do not overlap. *)
Record geometry : Prop := {
  g_pow : exists k, 2 <= k <= 28 /\ bC = 2 ^ k /\ mask = 2 ^ k - 1;
  g_b : 8 <= b;
  g_e : e = b + 4 * bC + 8;
  g_cap : Z.of_nat (List.length entries) <= eC;
  g_fit : H0 + stringSpace tc kt vt entries + 32 <= msz;
  g_max : msz <= 2 ^ 32;
  g_ks : 0 < ks <= vo;
  g_vs : 0 < vs /\ vo + vs <= tn;
  g_es : tn <= es;
  g_small : tn + 4 <= es \/ (classify kt <> GString /\ classify vt <> GString);
  g_typed : typedEntries tc kt vt entries
}.

Hypothesis G : geometry.

(** The bytes the entries written so far depend on: the length word and
    the first [n] slots of the entries buffer, and the strings allocated
    after it. *)
Definition protected (n top x : Z) : Prop :=
  e - 4 <= x < e + es * n \/ H0 <= x < top.

Record loopInv (done : list (HostValue * HostValue)) (f : frame World) : Prop := {
  li_size : memSize (world f) = msz;
  li_top : heapTop (world f) = H0 + stringSpace tc kt vt done;
  li_data : forall w'',
      agreeOn (protected (Z.of_nat (List.length done)) (heapTop (world f)))
              (world f) w'' ->
      read32 w'' (e - 4) = Some (es * eC) /\
      forall j k v, nth_error done j = Some (k, v) ->
        loadField tc w'' kt (e + es * Z.of_nat j) = inl k /\
        loadField tc w'' vt (e + es * Z.of_nat j + vo) = inl v;
  li_heads : forall x, 0 <= x < bC ->
      read32 (world f) (b + 4 * x) = Some (headAfter tc mask e es done x);
  li_nodup : NoDup (pins f);
  li_pinned : forall p, In p (pins f) -> In p (pinned (world f));
  li_below : forall p, In p (pinned (world f)) -> p <= heapTop (world f)
}.

Lemma bucketOf_range (k : HostValue) : 0 <= bucketOf tc mask k < bC.
Proof.
  destruct (g_pow G) as (p & Hp & HbC & Hmask).
  unfold bucketOf, U32.and. rewrite Hmask, HbC.
  replace (2 ^ p - 1) with (Z.ones p) by (rewrite Z.ones_equiv; lia).
  rewrite Z.land_ones by lia. apply Z.mod_pos_bound. apply pow2_pos. lia.
Qed.

Lemma bC_bounds : 4 <= bC <= 2 ^ 28.
Proof.
  destruct (g_pow G) as (p & Hp & HbC & _). rewrite HbC. split.
  - change 4 with (2 ^ 2). apply pow2_le. lia.
  - apply pow2_le. lia.
Qed.

Lemma es_pos : 0 < es.
Proof. pose proof (g_ks G). pose proof (g_vs G). pose proof (g_es G). lia. Qed.

Lemma slot_bounds (i : Z) :
  0 <= i < eC -> e <= e + es * i /\ e + es * i + es <= H0.
Proof.
  intros Hi. pose proof es_pos. unfold H0. split; nia.
Qed.

Lemma headAfter_range (done : list (HostValue * HostValue)) (x : Z) :
  Z.of_nat (List.length done) <= eC ->
  0 <= headAfter tc mask e es done x < 2 ^ 32.
Proof.
  intros Hlen.
  pose proof (g_b G). pose proof (g_e G). pose proof bC_bounds.
  pose proof (g_fit G). pose proof (g_max G).
  pose proof (stringSpace_nonneg tc kt vt entries).
  destruct (headAfter_spec tc mask e es done x)
    as [[-> _] | (j & k & v & Hnth & _ & -> & _)]; [norm_pow; lia|].
  assert (j < List.length done)%nat by (apply nth_error_Some; congruence).
  pose proof es_pos.
  destruct (slot_bounds (Z.of_nat j)); norm_pow; lia.
Qed.

Lemma entryOffsetOf_eq (i : Z) :
  0 <= i < eC -> entryOffsetOf lo i = e + es * i.
Proof.
  intros Hi. destruct (slot_bounds i Hi).
  pose proof (g_b G). pose proof (g_e G). pose proof bC_bounds.
  pose proof (g_fit G). pose proof (g_max G). pose proof es_pos.
  pose proof (stringSpace_nonneg tc kt vt entries).
  unfold entryOffsetOf, lo, layoutOf. cbn [entriesBufferOffset loEntrySize].
  fold es. unfold U32.add, U32.mul.
  assert (0 <= es * i) by nia.
  rewrite (wrap_small i) by (norm_pow; lia).
  rewrite (wrap_small (es * i)) by (norm_pow; lia).
  apply wrap_small. norm_pow. lia.
Qed.

Lemma bucketPtrBaseOf_eq (k : HostValue) :
  bucketPtrBaseOf lo (keyHash tc k) = b + 4 * bucketOf tc mask k.
Proof.
  pose proof (bucketOf_range k). pose proof bC_bounds.
  pose proof (g_b G). pose proof (g_e G).
  pose proof (g_fit G). pose proof (g_max G). pose proof es_pos.
  pose proof (stringSpace_nonneg tc kt vt entries).
  pose proof (g_cap G).
  assert (0 <= es * eC) by nia.
  unfold bucketPtrBaseOf, lo, layoutOf. cbn [bucketsBufferOffset loBucketsMask].
  fold mask. fold (bucketOf tc mask k). unfold bucketSize, U32.add, U32.mul.
  unfold H0 in *.
  rewrite (wrap_small (bucketOf tc mask k * 4)) by (norm_pow; lia).
  rewrite wrap_small by (norm_pow; lia). lia.
Qed.

Lemma sameMemory_agree (P : Z -> Prop) (w w' : World) :
  sameMemory w w' -> agreeOn P w w'.
Proof. intros (Hs & Hb & _). split; [assumption|]. intros x _. now rewrite Hb. Qed.

Lemma bindM_liftR_Ok {A B : Type} (a : A) (k : A -> M World B) (f : frame World) :
  bindM (liftR (Ok a)) k f = k a f.
Proof. reflexivity. Qed.

(** One iteration of the loop: from the invariant after [done] it writes
    the next entry, restores the invariant, and leaves the bucket's head
    before the insertion in the entry's tagged-next field. *)
Lemma writeEntry_spec (done rest : list (HostValue * HostValue))
    (k v : HostValue) (f : frame World) :
  entries = done ++ (k, v) :: rest ->
  loopInv done f ->
  exists f',
    writeEntry lo entries (Z.of_nat (List.length done)) k f = (f', Ok tt) /\
    loopInv (done ++ [(k, v)]) f' /\
    read32 (world f') (e + es * Z.of_nat (List.length done) + tn) =
      Some (headAfter tc mask e es done (bucketOf tc mask k)).
Proof.
  intros Hent Inv.
  pose proof (g_b G) as Gb. pose proof (g_e G) as Ge.
  pose proof bC_bounds as GbC. pose proof (g_fit G) as Gfit.
  pose proof (g_max G) as Gmax. pose proof es_pos as Ges.
  pose proof (g_ks G) as Gks. pose proof (g_vs G) as Gvs.
  pose proof (g_es G) as Gtn. pose proof (g_cap G) as Gcap.
  pose proof (g_typed G) as Gty.
  remember (Z.of_nat (List.length done)) as i eqn:Hi_def.
  assert (Hi : 0 <= i < eC).
  { rewrite Hent, length_app in Gcap. cbn in Gcap. lia. }
  destruct (slot_bounds i Hi) as [Hlo Hhi].
  assert (Hsp : stringSpace tc kt vt entries =
                stringSpace tc kt vt done + entrySpace tc kt vt (k, v) +
                stringSpace tc kt vt rest).
  { rewrite Hent, stringSpace_app. cbn. lia. }
  unfold entrySpace in Hsp. cbn [fst snd] in Hsp.
  pose proof (stringSpace_nonneg tc kt vt done) as Hnn1.
  pose proof (stringSpace_nonneg tc kt vt rest) as Hnn2.
  pose proof (fieldSpace_nonneg tc kt k) as Hnn3.
  pose proof (fieldSpace_nonneg tc vt v) as Hnn4.
  assert (Hty : hasType tc kt k /\ hasType tc vt v).
  { destruct Gty as [Hall _]. rewrite Hent in Hall.
    apply Forall_app in Hall as [_ Hall]. now apply Forall_inv in Hall. }
  assert (Hsmall : tn + 4 <= es \/
                   (stringSpace tc kt vt done = 0 /\ fieldSpace tc kt k = 0 /\
                    fieldSpace tc vt v = 0)).
  { destruct (g_small G) as [? | [Hk Hv]]; [now left | right].
    rewrite stringSpace_inline, !fieldSpace_inline by assumption. auto. }
  assert (Hlen : Z.of_nat (List.length done) <= eC) by lia.
  pose proof (headAfter_range done (bucketOf tc mask k) Hlen) as Hprev.
  pose proof (bucketOf_range k) as Hbk.
  destruct Inv as [Isize Itop Idata Iheads Inodup Ipinned Ibelow].
  remember (e + es * i) as ei eqn:Hei.
  remember (heapTop (world f)) as top0 eqn:Htop0.
  (* the key *)
  destruct (writeEntryKey_ok tc lo f ei k) as (f1 & ptr1 & HA & Hp1 & FA);
    try (cbn [keyType lo layoutOf]; fold ks; norm_pow; lia);
    [exact (proj1 Hty)|].
  cbn [keyType lo layoutOf] in FA.
  destruct FA as [FAsize FApin FAtop FAptr FAframe FAdec].
  rewrite <- Htop0 in *.
  remember (heapTop (world f1)) as top1 eqn:Htop1.
  destruct (pinIfAllocated_ok tc f1 ptr1) as (f2 & HB & FBmem & FBpins & FBpinned).
  { destruct FAptr as [[Hz _] | [Hnz _]]; [now left | right].
    rewrite FApin. intros Hin. apply Ibelow in Hin. lia. }
  destruct FBmem as (FBsize & FBbytes & FBtop).
  (* the value *)
  assert (HC : MapIndex entries k = Some v).
  { rewrite Hent. apply (MapIndex_found tc kt vt). now rewrite <- Hent. }
  destruct (encodeField_ok tc f2 vt (ei + vo) v (proj2 Hty))
    with (fmt := "failed to write map entry value: %w"%string)
    as (f3 & ptr2 & HD & Hp3 & FD);
    try (fold vs; norm_pow; lia).
  destruct FD as [FDsize FDpin FDtop FDptr FDframe FDdec].
  remember (heapTop (world f3)) as top3 eqn:Htop3.
  destruct (pinIfAllocated_ok tc f3 ptr2) as (f4 & HE & FEmem & FEpins & FEpinned).
  { destruct FDptr as [[Hz _] | [Hnz _]]; [now left | right].
    rewrite FDpin, FBpinned. intros Hin.
    apply in_app_or in Hin as [Hin | Hin].
    - unfold nonZero in Hin. destruct (Z.eqb_spec ptr1 0); [contradiction|].
      destruct Hin as [Heq | []].
      destruct FAptr as [[? ?] | [? ?]]; lia.
    - rewrite FApin in Hin. apply Ibelow in Hin. lia. }
  destruct FEmem as (FEsize & FEbytes & FEtop).
  (* the link *)
  assert (Hframe04 : forall P : Z -> Prop,
             (forall x, P x -> x < top0 /\ ~ (ei <= x < ei + ks) /\
                               ~ (ei + vo <= x < ei + vo + vs)) ->
             agreeOn P (world f) (world f4)).
  { intros P HP.
    apply agreeOn_trans with (w2 := world f1).
    { eapply agreeOn_weaken; [|exact FAframe]. cbn beta. intros x Hx.
      apply HP in Hx. fold ks. lia. }
    apply agreeOn_trans with (w2 := world f2).
    { apply sameMemory_agree. repeat split; assumption. }
    apply agreeOn_trans with (w2 := world f3).
    { eapply agreeOn_weaken; [|exact FDframe]. cbn beta. intros x Hx.
      apply HP in Hx. fold vs. lia. }
    apply sameMemory_agree. repeat split; assumption. }
  assert (Hread : read32 (world f4) (bucketPtrBaseOf lo (keyHash tc k)) =
                  Some (headAfter tc mask e es done (bucketOf tc mask k))).
  { rewrite bucketPtrBaseOf_eq.
    rewrite (read32_agree _ _ _ _
               (Hframe04 (fun x => x < e - 8) ltac:(cbv beta; intros; lia)))
      by (cbv beta; intros; lia).
    now apply Iheads. }
  assert (Hnext : U32.add ei (taggedNextOffset lo) = ei + tn).
  { cbn [taggedNextOffset lo layoutOf]. fold tn. unfold U32.add.
    apply wrap_small. norm_pow. lia. }
  destruct (linkEntry_ok tc lo f4 ei (keyHash tc k) _ Hread)
    as (f5 & HF & Hp5 & Hw5);
    try (rewrite Hnext; lia).
  rewrite Hnext, bucketPtrBaseOf_eq in Hw5.
  exists f5.
  (* the run *)
  assert (Hrun : writeEntry lo entries i k f = (f5, Ok tt)).
  { unfold writeEntry. rewrite (entryOffsetOf_eq i Hi), <- Hei.
    rewrite (bindM_step _ _ _ _ _ HA). cbv beta iota.
    rewrite (bindM_step _ _ _ _ _ HB).
    rewrite HC, bindM_liftR_Ok.
    assert (U32.add ei (valueOffset lo) = ei + vo) as ->.
    { cbn [valueOffset lo layoutOf]. fold vo. unfold U32.add.
      apply wrap_small. norm_pow. lia. }
    rewrite (bindM_step _ _ _ _ _ HD).
    rewrite (bindM_step _ _ _ _ _ HE).
    exact HF. }
  split; [exact Hrun|].
  (* what the later steps leave alone *)
  assert (Hframe45 : forall P : Z -> Prop,
             (forall x, P x -> ~ (ei + tn <= x < ei + tn + 4) /\ e - 8 <= x) ->
             agreeOn P (world f4) (world f5)).
  { intros P HP. rewrite Hw5.
    apply agreeOn_trans
      with (w2 := storeBytes (world f4) (ei + tn)
                    (leEncode 4 (headAfter tc mask e es done (bucketOf tc mask k)))).
    - eapply agreeOn_weaken; [|apply storeBytes_agree]. cbn beta.
      intros x Hx. apply HP in Hx. rewrite length_leEncode. lia.
    - eapply agreeOn_weaken; [|apply storeBytes_agree]. cbn beta.
      intros x Hx. apply HP in Hx. rewrite length_leEncode. lia. }
  assert (Hsize5 : memSize (world f5) = msz).
  { rewrite Hw5. cbn [memSize storeBytes]. congruence. }
  assert (Htop5 : heapTop (world f5) = top3).
  { rewrite Hw5. cbn [heapTop storeBytes]. congruence. }
  assert (Hpinned5 : pinned (world f5) = nonZero ptr2 ++ nonZero ptr1 ++ pinned (world f)).
  { rewrite Hw5. cbn [pinned storeBytes]. rewrite FEpinned, FDpin, FBpinned, FApin.
    reflexivity. }
  assert (Hpins5 : pins f5 = pins f ++ nonZero ptr1 ++ nonZero ptr2).
  { rewrite Hp5, FEpins, Hp3, FBpins, Hp1, app_assoc. reflexivity. }
  assert (Htops : top1 = top0 + fieldSpace tc kt k /\
                  top3 = top1 + fieldSpace tc vt v) by (split; congruence).
  destruct Htops as [Ht1 Ht3].
  split; [|].
  - constructor.
    + exact Hsize5.
    + rewrite Htop5, stringSpace_app. cbn. unfold entrySpace. cbn [fst snd]. lia.
    + (* the data *)
      intros w'' Hag. rewrite Htop5, length_app in Hag. cbn [List.length] in Hag.
      replace (Z.of_nat (List.length done + 1)) with (i + 1) in Hag by lia.
      assert (Hold : agreeOn (protected (Z.of_nat (List.length done)) top0)
                             (world f) w'').
      { apply agreeOn_trans with (w2 := world f4).
        { apply Hframe04. unfold protected. intros x Hx. rewrite <- Hi_def in Hx. lia. }
        apply agreeOn_trans with (w2 := world f5).
        { apply Hframe45. unfold protected. intros x Hx. rewrite <- Hi_def in Hx. lia. }
        eapply agreeOn_weaken; [|exact Hag]. unfold protected.
        intros x Hx. rewrite <- Hi_def in Hx. nia. }
      destruct (Idata w'' Hold) as [Hlenword Hentries].
      split; [exact Hlenword|].
      intros j k' v' Hnth.
      destruct (Nat.lt_ge_cases j (List.length done)) as [Hin | Hout].
      * rewrite nth_error_app1 in Hnth by assumption. now apply Hentries.
      * rewrite nth_error_app2 in Hnth by assumption.
        destruct (j - List.length done)%nat as [|m] eqn:Hm; cbn in Hnth;
          [|destruct m; discriminate].
        injection Hnth as <- <-.
        replace (Z.of_nat j) with i by lia. rewrite <- Hei.
        split.
        -- apply FAdec. fold ks.
           apply agreeOn_trans with (w2 := world f2).
           { apply sameMemory_agree. repeat split; assumption. }
           apply agreeOn_trans with (w2 := world f3).
           { eapply agreeOn_weaken; [|exact FDframe]. cbn beta. intros x Hx.
             fold vs. lia. }
           apply agreeOn_trans with (w2 := world f4).
           { apply sameMemory_agree. repeat split; assumption. }
           apply agreeOn_trans with (w2 := world f5).
           { apply Hframe45. intros x Hx. lia. }
           eapply agreeOn_weaken; [|exact Hag]. unfold protected.
           intros x Hx. nia.
        -- apply FDdec. fold vs.
           apply agreeOn_trans with (w2 := world f4).
           { apply sameMemory_agree. repeat split; assumption. }
           apply agreeOn_trans with (w2 := world f5).
           { apply Hframe45. intros x Hx. lia. }
           eapply agreeOn_weaken; [|exact Hag]. unfold protected.
           intros x Hx. nia.
    + (* the bucket heads *)
      intros x Hx. rewrite headAfter_snoc, <- Hi_def, <- Hei. rewrite Hw5.
      destruct (Z.eqb_spec (bucketOf tc mask k) x) as [<- | Hne].
      * apply read32_storeBytes_same; cbn [memSize storeBytes]; norm_pow; lia.
      * rewrite read32_storeBytes_other by (rewrite length_leEncode; lia).
        rewrite read32_storeBytes_other by (rewrite length_leEncode; lia).
        rewrite (read32_agree _ _ _ _
                   (Hframe04 (fun y => y < e - 8) ltac:(cbv beta; intros; lia)))
          by (cbv beta; intros; lia).
        now apply Iheads.
    + (* the pins *)
      rewrite Hpins5.
      assert (Hfresh1 : forall p, In p (nonZero ptr1) -> p = top0 + 8).
      { unfold nonZero. intros p Hp. destruct (ptr1 =? 0) eqn:Hz; [contradiction|].
        destruct Hp as [<- | []].
        destruct FAptr as [[-> _] | [-> _]]; [discriminate Hz | reflexivity]. }
      assert (Hfresh2 : forall p, In p (nonZero ptr2) -> p = top1 + 8).
      { unfold nonZero. intros p Hp. destruct (ptr2 =? 0) eqn:Hz; [contradiction|].
        destruct Hp as [<- | []].
        destruct FDptr as [[-> _] | [-> _]]; [discriminate Hz | congruence]. }
      assert (Hgrow1 : nonZero ptr1 <> [] -> 8 <= fieldSpace tc kt k).
      { unfold nonZero. destruct (ptr1 =? 0) eqn:Hz; [congruence|]. intros _.
        destruct FAptr as [[-> _] | [_ ?]]; [discriminate Hz | assumption]. }
      apply NoDup_app.
      * exact Inodup.
      * apply NoDup_app.
        -- unfold nonZero. destruct (ptr1 =? 0); repeat constructor; auto.
        -- unfold nonZero. destruct (ptr2 =? 0); repeat constructor; auto.
        -- intros p Hp1' Hp2'. apply Hfresh1 in Hp1' as Hq1.
           apply Hfresh2 in Hp2'.
           assert (nonZero ptr1 <> []) by (destruct (nonZero ptr1); [contradiction | discriminate]).
           apply Hgrow1 in H. lia.
      * intros p Hp Hq. apply Ipinned, Ibelow in Hp.
        apply in_app_or in Hq as [Hq | Hq];
          [apply Hfresh1 in Hq | apply Hfresh2 in Hq]; lia.
    + intros p Hp. rewrite Hpins5 in Hp. rewrite Hpinned5.
      apply in_app_or in Hp as [Hp | Hp].
      * apply in_or_app. right. apply in_or_app. right. now apply Ipinned.
      * apply in_app_or in Hp as [Hp | Hp]; apply in_or_app; [right | left];
          [apply in_or_app; now left | assumption].
    + intros p Hp. rewrite Hpinned5 in Hp. rewrite Htop5.
      apply in_app_or in Hp as [Hp | Hp].
      * unfold nonZero in Hp. destruct (ptr2 =? 0) eqn:Hz; [contradiction|].
        destruct Hp as [<- | []].
        destruct FDptr as [[-> _] | [-> ?]]; [discriminate Hz | lia].
      * apply in_app_or in Hp as [Hp | Hp].
        -- unfold nonZero in Hp. destruct (ptr1 =? 0) eqn:Hz; [contradiction|].
           destruct Hp as [<- | []].
           destruct FAptr as [[-> _] | [-> ?]]; [discriminate Hz | lia].
        -- apply Ibelow in Hp. lia.
  - (* the tagged-next field *)
    rewrite Hw5.
    rewrite read32_storeBytes_other by (rewrite length_leEncode; lia).
    apply read32_storeBytes_same; lia.
Qed.

(** The whole loop. *)
Lemma writeEntries_spec (todo : list (HostValue * HostValue)) :
  forall (done rest : list (HostValue * HostValue)) (f : frame World),
    entries = done ++ todo ++ rest ->
    loopInv done f ->
    exists f',
      writeEntries lo entries (Z.of_nat (List.length done)) (MapKeys todo) f =
        (f', Ok tt) /\
      loopInv (done ++ todo) f'.
Proof.
  induction todo as [|[k v] todo IH]; intros done rest f Hent Inv.
  - exists f. rewrite app_nil_r. split; [reflexivity | assumption].
  - destruct (writeEntry_spec done (todo ++ rest) k v f Hent Inv)
      as (f1 & Hrun & Inv1 & _).
    destruct (IH (done ++ [(k, v)]) rest f1) as (f2 & Hrest & Inv2).
    { rewrite Hent, <- app_assoc. reflexivity. }
    { exact Inv1. }
    exists f2. cbn [MapKeys map writeEntries fst].
    rewrite (bindM_step _ _ _ _ _ Hrun).
    rewrite length_app, Nat2Z.inj_add in Hrest. cbn [List.length Z.of_nat] in Hrest.
    rewrite <- app_assoc in Inv2. cbn [app] in Inv2.
    split; [exact Hrest | exact Inv2].
Qed.


(** **** Allocation, pinning and word writes as steps of the body *)

Lemma allocate_step (f : frame World) (size id : Z) (fmt : string) :
  0 <= size -> heapTop (world f) + 8 + size <= memSize (world f) ->
  callWrap fmt (allocate size id) f =
  (setWorld f (allocated (world f) size id), Ok (heapTop (world f) + 8)).
Proof.
  intros Hs Hfit. unfold callWrap, allocate.
  change (allocateWasmMemory (world f) size id) with (alloc (world f) size id).
  now rewrite alloc_ok.
Qed.

Lemma allocate_plain_step (f : frame World) (size id : Z) :
  0 <= size -> heapTop (world f) + 8 + size <= memSize (world f) ->
  callPlain (allocate size id) f =
  (setWorld f (allocated (world f) size id), Ok (heapTop (world f) + 8)).
Proof.
  intros Hs Hfit. unfold callPlain, allocate.
  change (allocateWasmMemory (world f) size id) with (alloc (world f) size id).
  now rewrite alloc_ok.
Qed.

(** The guest with one more pinned offset. *)
Definition withPin (w : World) (ptr : Z) : World :=
  mkWorld (memSize w) (memByte w) (heapTop w) (ptr :: pinned w).

Lemma pin_step (f : frame World) (ptr : Z) (o : option string) :
  ~ In ptr (pinned (world f)) ->
  callErr o (pin ptr) f =
  (mkFrame (withPin (world f) ptr) (pins f) (calls f ++ [CallPin ptr]), Ok tt).
Proof.
  intros Hfresh. unfold callErr, pin.
  change (pinWasmMemory (world f) ptr) with (pinObj (world f) ptr).
  rewrite pinObj_fresh by assumption. reflexivity.
Qed.

Lemma writeU32_step (f : frame World) (addr v : Z) (msg : string) :
  0 <= addr -> addr + 4 <= memSize (world f) ->
  writeU32 addr v msg f =
  (setWorld f (storeBytes (world f) addr (leEncode 4 v)), Ok tt).
Proof.
  intros H0' H1. unfold writeU32.
  change (WriteUint32Le (world f) addr v) with (write32 (world f) addr v).
  now rewrite write32_ok.
Qed.

(** The deferred loop on the reference guest: pinned, pairwise different
    offsets are all unpinned, and the memory is not touched. *)
Lemma unpinAll_guest (ptrs : list Z) :
  forall (f : frame World),
    NoDup ptrs -> (forall p, In p ptrs -> In p (pinned (world f))) ->
    exists f2,
      unpinAll ptrs f None = (f2, None) /\ sameMemory (world f) (world f2).
Proof.
  induction ptrs as [|p rest IH]; intros f Hnd Hin.
  - exists f. split; [reflexivity|]. repeat split.
  - apply NoDup_cons_iff in Hnd as [Hnotin Hnd].
    cbn [unpinAll]. unfold unpin.
    change (unpinWasmMemory (world f) p) with (unpinObj (world f) p).
    rewrite unpinObj_pinned by (apply Hin; now left).
    destruct (IH (logCall (CallUnpin p)
                    (setWorld f
                       (mkWorld (memSize (world f)) (memByte (world f))
                          (heapTop (world f))
                          (filter (fun q => negb (q =? p)) (pinned (world f)))))))
      as (f2 & Hrun & Hmem).
    + exact Hnd.
    + intros q Hq. cbn. apply filter_In. split; [apply Hin; now right|].
      apply negb_true_iff, Z.eqb_neq. intros ->. contradiction.
    + exists f2. split; [exact Hrun|].
      destruct Hmem as (Hs & Hb & Ht). cbn in Hs, Hb, Ht. repeat split; assumption.
Qed.

(** **** The set-up before the loop *)

Lemma appendPin_step (f : frame World) (ptr : Z) :
  appendPin ptr f = (mkFrame (world f) (pins f ++ [ptr]) (calls f), Ok tt).
Proof. reflexivity. Qed.

Lemma withPin_read32 (w : World) (ptr a : Z) :
  read32 (withPin w ptr) a = read32 w a.
Proof. apply same_memory_read32; reflexivity. Qed.

Lemma writeMapSetup_spec (typ : string) (w : World) (mapLen : Z) :
  mapSubtypes typ = (kt, vt) ->
  determineCapacities mapLen = Some c ->
  memSize w = msz ->
  b = heapTop w + 8 ->
  (forall p, In p (pinned w) -> p <= heapTop w) ->
  exists fs,
    writeMapSetup typ mapLen (mkFrame w [] []) = (fs, Ok (lo, c)) /\
    loopInv [] fs.
Proof.
  intros Hsub Hcaps Hsize Hb Hpinned.
  pose proof (g_b G) as Gb. pose proof (g_e G) as Ge.
  pose proof bC_bounds as GbC. pose proof (g_fit G) as Gfit.
  pose proof (g_max G) as Gmax. pose proof es_pos as Ges.
  pose proof (g_cap G) as Gcap.
  pose proof (stringSpace_nonneg tc kt vt entries) as Hnn.
  assert (HeC : 0 <= es * eC) by nia.
  assert (Hmul1 : U32.mul bucketSize bC = 4 * bC).
  { unfold U32.mul, bucketSize. apply wrap_small. norm_pow. lia. }
  assert (Hmul2 : U32.mul es eC = es * eC).
  { unfold U32.mul. apply wrap_small. unfold H0 in Gfit. norm_pow. lia. }
  set (fmtA := "failed to allocate memory for array buffer: %w"%string).
  set (fmtP := "failed to pin array buffer: %w"%string).
  set (f0 := mkFrame w [] []).
  set (w1 := allocated w (4 * bC) 1).
  set (f1 := setWorld f0 w1).
  assert (E1 : callWrap fmtA (allocate (4 * bC) 1) f0 = (f1, Ok b)).
  { rewrite Hb. apply allocate_step; cbn [world f0]; unfold H0 in Gfit; lia. }
  set (f2 := mkFrame (withPin w1 b) [] [CallPin b]).
  assert (E2 : callErr (Some fmtP) (pin b) f1 = (f2, Ok tt)).
  { apply (pin_step f1 b). cbn. intros Hin. apply Hpinned in Hin. lia. }
  set (f3 := mkFrame (withPin w1 b) [b] [CallPin b]).
  set (w2 := allocated (withPin w1 b) (es * eC) 1).
  set (f4 := setWorld f3 w2).
  assert (Htop1 : heapTop (withPin w1 b) = b + 4 * bC).
  { cbn. lia. }
  assert (E4 : callWrap fmtA (allocate (es * eC) 1) f3 = (f4, Ok e)).
  { replace e with (heapTop (world f3) + 8) by (cbn [world f3]; lia).
    apply allocate_step; cbn [world f3 memSize withPin]; [lia|].
    rewrite Htop1. unfold w1. cbn [memSize allocated storeBytes].
    unfold H0 in Gfit. lia. }
  set (f5 := mkFrame (withPin w2 e) [b] [CallPin b; CallPin e]).
  assert (E5 : callErr (Some fmtP) (pin e) f4 = (f5, Ok tt)).
  { apply (pin_step f4 e). cbn. intros [Hin | Hin]; [lia|].
    apply Hpinned in Hin. lia. }
  set (f6 := mkFrame (withPin w2 e) [b; e] [CallPin b; CallPin e]).
  exists f6. split.
  - unfold writeMapSetup. rewrite Hcaps, bindM_liftR_Ok.
    fold bC. rewrite Hmul1. fold fmtA.
    rewrite (bindM_step _ _ _ _ _ E1).
    fold fmtP. rewrite (bindM_step _ _ _ _ _ E2).
    rewrite (bindM_step _ _ _ _ _ (appendPin_step f2 b)).
    change (GetMapSubtypes typ) with (mapSubtypes typ). rewrite Hsub.
    change (GetSizeOfType kt) with (sizeOfType kt).
    change (GetSizeOfType vt) with (sizeOfType vt).
    fold (slotSize kt vt). fold es. fold eC. rewrite Hmul2.
    change (mkFrame (world f2) (pins f2 ++ [b]) (calls f2)) with f3.
    rewrite (bindM_step _ _ _ _ _ E4).
    rewrite (bindM_step _ _ _ _ _ E5).
    rewrite (bindM_step _ _ _ _ _ (appendPin_step f5 e)).
    reflexivity.
  - assert (Htop2 : heapTop w2 = H0).
    { unfold w2, allocated. cbn [heapTop]. rewrite Htop1. unfold H0. lia. }
    constructor; cbn [world pins f6 List.length Z.of_nat].
    + reflexivity || (cbn; congruence).
    + cbn [heapTop withPin stringSpace]. rewrite Htop2. lia.
    + intros w'' Hag. split; [|intros j k v Hnth; destruct j; discriminate].
      rewrite (read32_agree _ _ _ _ Hag).
      * rewrite withPin_read32. unfold w2.
        replace (e - 4) with (heapTop (withPin w1 b) + 4) by lia.
        apply allocated_length_word.
        -- lia.
        -- unfold H0 in Gfit. norm_pow. lia.
        -- rewrite Htop1. cbn [memSize withPin]. unfold w1.
           cbn [memSize allocated storeBytes]. unfold H0 in Gfit. lia.
      * intros x Hx. unfold protected. left. lia.
    + intros x Hx. rewrite withPin_read32. unfold w2.
      rewrite (read32_agree _ _ _ _
                 (allocated_agree (withPin w1 b) (es * eC) 1))
        by (cbv beta; intros; lia).
      rewrite withPin_read32.
      apply read32_zero.
      * lia.
      * unfold w1. cbn [memSize allocated storeBytes]. unfold H0 in Gfit. lia.
      * intros y Hy. unfold w1. apply allocated_zero. lia.
    + repeat constructor; cbn; intuition lia.
    + cbn. intros p [<- | [<- | []]]; auto.
    + change (heapTop (withPin w2 e)) with (heapTop w2).
      cbn [pinned withPin]. rewrite Htop2. intros p Hp.
      assert (Hw2 : pinned w2 = b :: pinned w) by reflexivity.
      rewrite Hw2 in Hp. cbn in Hp. unfold H0.
      destruct Hp as [<- | [<- | Hp]]; [nia | nia |].
      apply Hpinned in Hp. nia.
Qed.

(** **** The header *)

(** The guest after the six header words have been written at [off]. *)
Definition headerStored (w : World) (off v0 v4 v8 v12 v16 v20 : Z) : World :=
  storeBytes
    (storeBytes
       (storeBytes
          (storeBytes
             (storeBytes
                (storeBytes w off (leEncode 4 v0))
                (off + 4) (leEncode 4 v4))
             (off + 8) (leEncode 4 v8))
          (off + 12) (leEncode 4 v12))
       (off + 16) (leEncode 4 v16))
    (off + 20) (leEncode 4 v20).

Lemma writeHeader_spec (f : frame World) (off mapLen : Z) :
  0 <= off -> off + 24 <= memSize (world f) -> off + 24 <= 2 ^ 32 ->
  writeHeader off lo c mapLen f =
  (setWorld f (headerStored (world f) off b mask e eC mapLen mapLen), Ok tt).
Proof.
  intros H0' Hfit Hmax. unfold writeHeader.
  assert (Hadd : forall d, 0 <= d <= 20 -> U32.add off d = off + d).
  { intros d Hd. unfold U32.add. apply wrap_small. norm_pow. lia. }
  rewrite !Hadd by lia.
  assert (Hstep : forall (B : Type) (g : frame World) a v msg (k : unit -> M World B),
             0 <= a -> a + 4 <= memSize (world g) ->
             bindM (writeU32 a v msg) k g =
             k tt (setWorld g (storeBytes (world g) a (leEncode 4 v)))).
  { intros B g a v msg k Ha0 Ha1. apply bindM_step. now apply writeU32_step. }
  rewrite Hstep by lia.
  rewrite Hstep by (cbn; lia).
  rewrite Hstep by (cbn; lia).
  rewrite Hstep by (cbn; lia).
  rewrite Hstep by (cbn; lia).
  rewrite writeU32_step by (cbn; lia).
  reflexivity.
Qed.

Lemma headerStored_agree (w : World) (off v0 v4 v8 v12 v16 v20 : Z) :
  agreeOn (fun x => x < off) w (headerStored w off v0 v4 v8 v12 v16 v20).
Proof.
  unfold headerStored.
  repeat (eapply agreeOn_trans;
          [|eapply agreeOn_weaken; [|apply storeBytes_agree];
            cbv beta; intros x Hx; rewrite length_leEncode; lia]).
  apply agreeOn_refl.
Qed.


(** **** Writing, then reading *)


(** Each insertion links the entry in front of its bucket's chain. *)
Lemma writeMap_chain_core (typ : string) (w : World)
    (done rest : list (HostValue * HostValue)) (k v : HostValue) :
  mapSubtypes typ = (kt, vt) ->
  determineCapacities (Z.of_nat (List.length entries)) = Some c ->
  memSize w = msz -> b = heapTop w + 8 ->
  (forall p, In p (pinned w) -> p <= heapTop w) ->
  entries = done ++ (k, v) :: rest ->
  exists fs f f' prev,
    writeMapSetup typ (Z.of_nat (List.length entries)) (mkFrame w [] []) =
      (fs, Ok (lo, c)) /\
    writeEntries lo entries 0 (MapKeys done) fs = (f, Ok tt) /\
    writeEntry lo entries (Z.of_nat (List.length done)) k f = (f', Ok tt) /\
    read32 (world f) (bucketPtrBaseOf lo (keyHash tc k)) = Some prev /\
    lastColliding tc mask e es done (bucketOf tc mask k) prev /\
    read32 (world f')
      (U32.add (entryOffsetOf lo (Z.of_nat (List.length done)))
               (taggedNextOffset lo)) = Some prev /\
    read32 (world f') (bucketPtrBaseOf lo (keyHash tc k)) =
      Some (entryOffsetOf lo (Z.of_nat (List.length done))).
Proof.
  intros Hsub Hcaps Hsize Hb Hpinned Hent.
  pose proof (g_b G) as Gb. pose proof (g_e G) as Ge.
  pose proof bC_bounds as GbC. pose proof (g_fit G) as Gfit.
  pose proof (g_max G) as Gmax. pose proof es_pos as Ges.
  pose proof (g_cap G) as Gcap. pose proof (g_es G) as Gtn.
  pose proof (g_ks G) as Gks. pose proof (g_vs G) as Gvs.
  pose proof (stringSpace_nonneg tc kt vt entries) as Hnn.
  destruct (writeMapSetup_spec typ w _ Hsub Hcaps Hsize Hb Hpinned)
    as (fs & Hsetup & Inv0).
  destruct (writeEntries_spec done [] ((k, v) :: rest) fs Hent Inv0)
    as (f & Hloop & Inv).
  cbn [app List.length Z.of_nat] in Hloop, Inv.
  destruct (writeEntry_spec done rest k v f Hent Inv) as (f' & Hrun & Inv' & Hnext).
  assert (Hi : 0 <= Z.of_nat (List.length done) < eC).
  { rewrite Hent, length_app in Gcap. cbn in Gcap. lia. }
  destruct (slot_bounds _ Hi) as [Hlo Hhi].
  pose proof (bucketOf_range k) as Hbk.
  exists fs, f, f', (headAfter tc mask e es done (bucketOf tc mask k)).
  rewrite bucketPtrBaseOf_eq, (entryOffsetOf_eq _ Hi).
  assert (U32.add (e + es * Z.of_nat (List.length done)) (taggedNextOffset lo) =
          e + es * Z.of_nat (List.length done) + tn) as ->.
  { cbn [taggedNextOffset lo layoutOf]. fold tn. unfold U32.add.
    apply wrap_small. norm_pow. lia. }
  split; [exact Hsetup|]. split; [exact Hloop|]. split; [exact Hrun|].
  split; [now apply (li_heads _ _ Inv)|].
  split; [apply headAfter_spec|].
  split; [exact Hnext|].
  rewrite (li_heads _ _ Inv' _ Hbk), headAfter_snoc, Z.eqb_refl. reflexivity.
Qed.

End Loop.

(** *** The supported key and value types *)

(** The logical types of the round trip: the integer types, [bool] and
    [string]. *)
Definition supportedTypes : list string :=
  [ "i8"; "u8"; "i16"; "u16"; "i32"; "u32"; "i64"; "u64"; "bool"; "string" ]%string.

(** The guest memory [writeMap] takes for a map: the two array buffers
    and the header, each with its block header, and the strings. *)
Definition mapSpace (tc : TextCodec) (kt vt : string)
    (entries : list (HostValue * HostValue)) : Z :=
  match determineCapacities (Z.of_nat (List.length entries)) with
  | Some c =>
      (8 + 4 * bucketsCapacity c) +
      (8 + slotSize kt vt * entriesCapacity c) +
      stringSpace tc kt vt entries +
      (8 + headerSize)
  | None => 0
  end.

(** No offset is pinned above the heap top. *)
Definition pinsBelowTop (w : World) : Prop :=
  forall p, In p (pinned w) -> p <= heapTop w.

Ltac decide_cmp :=
  vm_compute; repeat split; try reflexivity; try (intro; discriminate).

Lemma layout_supported (kt vt : string) :
  In kt supportedTypes -> In vt supportedTypes ->
  0 < sizeOfType kt <= getSizeForOffset kt /\
  (0 < sizeOfType vt /\ getSizeForOffset kt + sizeOfType vt <= nextSlot kt vt) /\
  nextSlot kt vt <= slotSize kt vt /\
  (nextSlot kt vt + 4 <= slotSize kt vt \/
   classify kt <> GString /\ classify vt <> GString).
Proof.
  intros Hk Hv. cbn in Hk, Hv.
  repeat (destruct Hk as [<- | Hk]; [|]); try contradiction;
    repeat (destruct Hv as [<- | Hv]; [|]); try contradiction;
    (split; [decide_cmp|]); (split; [decide_cmp|]); (split; [decide_cmp|]);
    first [left; solve [decide_cmp] | right; solve [decide_cmp]].
Qed.


Lemma typeId_supported (typ kt vt : string) :
  mapSubtypes typ = (kt, vt) -> In kt supportedTypes ->
  typeDefinitionId typ = inl mapTypeId.
Proof.
  unfold mapSubtypes, typeDefinitionId. destruct (isMapType typ); [reflexivity|].
  intros [= <- _] Hk. cbn in Hk.
  repeat (destruct Hk as [Hk | Hk]; [discriminate Hk|]). contradiction.
Qed.

Lemma capacities_for (n : Z) :
  0 <= n <= 2 ^ 28 ->
  exists c,
    determineCapacities n = Some c /\
    (exists k, 2 <= k <= 28 /\ bucketsCapacity c = 2 ^ k /\
               bucketsMask c = 2 ^ k - 1) /\
    n <= entriesCapacity c /\ 0 < entriesCapacity c.
Proof.
  intros Hn.
  assert (Hn31 : 0 <= n <= 2 ^ 31)
    by (norm_pow; change (2 ^ 31) with 2147483648; lia).
  assert (Hfuel : 31 - 2 <= Z.of_nat capacityFuel) by (unfold capacityFuel; lia).
  destruct (growCapacities_inv capacityFuel n 2 4 Hn31
              ltac:(lia) Hfuel (or_introl eq_refl))
    as (k & Hk & Hrun & Hle & Hmin).
  assert (Hk28 : k <= 28).
  { destruct Hmin as [-> | Hlt]; [lia|].
    assert (k - 1 < 28); [|lia].
    apply (Z.pow_lt_mono_r_iff 2); lia. }
  eexists. split; [exact Hrun|]. cbn [bucketsCapacity bucketsMask entriesCapacity].
  split; [exists k; repeat split; lia|].
  assert (Hpos : 0 < 2 ^ k) by (apply pow2_pos; lia).
  assert (Hup : 2 ^ k <= 2 ^ 28) by (apply pow2_le; lia).
  destruct (Z.eqb_spec k 2) as [-> | Hne].
  - change (2 ^ 2) with 4 in Hle. lia.
  - assert (U32.mul (2 ^ k) 8 = 2 ^ k * 8) as ->.
    { unfold U32.mul. apply wrap_small. norm_pow. lia. }
    assert (n <= 2 ^ k * 8 / 3) by (apply Z.div_le_lower_bound; lia).
    assert (1 <= 2 ^ k * 8 / 3) by (apply Z.div_le_lower_bound; lia).
    lia.
Qed.

Lemma mapSpace_eq (tc : TextCodec) (kt vt : string)
    (entries : list (HostValue * HostValue)) (c : capacities) :
  determineCapacities (Z.of_nat (List.length entries)) = Some c ->
  mapSpace tc kt vt entries =
  (8 + 4 * bucketsCapacity c) + (8 + slotSize kt vt * entriesCapacity c) +
  stringSpace tc kt vt entries + 32.
Proof. intros Hc. unfold mapSpace. now rewrite Hc. Qed.

Lemma geometry_of (tc : TextCodec) (kt vt : string)
    (entries : list (HostValue * HostValue)) (w : World) (c : capacities) :
  In kt supportedTypes -> In vt supportedTypes ->
  typedEntries tc kt vt entries ->
  determineCapacities (Z.of_nat (List.length entries)) = Some c ->
  (exists k, 2 <= k <= 28 /\ bucketsCapacity c = 2 ^ k /\
             bucketsMask c = 2 ^ k - 1) ->
  Z.of_nat (List.length entries) <= entriesCapacity c ->
  0 <= heapTop w -> memSize w <= 2 ^ 32 ->
  heapTop w + mapSpace tc kt vt entries <= memSize w ->
  geometry tc kt vt entries (heapTop w + 8)
    (heapTop w + 8 + 4 * bucketsCapacity c + 8) (memSize w) c.
Proof.
  intros Hk Hv Hty Hc Hpow Hcap Htop Hmax Hspace.
  rewrite (mapSpace_eq tc kt vt entries c Hc) in Hspace.
  destruct (layout_supported kt vt Hk Hv) as (L1 & L2 & L3 & L4).
  constructor; try assumption; lia.
Qed.



(** The loop over a list of keys is the loop over its first part followed
    by the loop over the rest: the frames between two iterations are
    frames of the run. *)
Lemma writeEntries_app {W : Type} {A : Adapter W} (lo : layout)
    (entries : list (HostValue * HostValue)) (l1 l2 : list HostValue) :
  forall (i : Z) (f : frame W),
    writeEntries lo entries i (l1 ++ l2) f =
    bindM (writeEntries lo entries i l1)
      (fun _ => writeEntries lo entries (i + Z.of_nat (List.length l1)) l2) f.
Proof.
  induction l1 as [|k l1 IH]; intros i f.
  - cbn. now rewrite Z.add_0_r.
  - cbn [app writeEntries List.length]. unfold bindM.
    destruct (writeEntry lo entries i k f) as [f1 [u| | |]]; try reflexivity.
    specialize (IH (i + 1) f1). unfold bindM in IH. rewrite IH.
    replace (i + 1 + Z.of_nat (List.length l1))
      with (i + Z.of_nat (S (List.length l1))) by lia.
    reflexivity.
Qed.

Lemma writeEntries_at {W : Type} {A : Adapter W} (lo : layout)
    (entries done rest : list (HostValue * HostValue)) (k v : HostValue)
    (f : frame W) :
  writeEntries lo entries 0 (MapKeys (done ++ (k, v) :: rest)) f =
  bindM (writeEntries lo entries 0 (MapKeys done))
    (fun _ =>
       bindM (writeEntry lo entries (Z.of_nat (List.length done)) k)
         (fun _ =>
            writeEntries lo entries (Z.of_nat (List.length done) + 1)
              (MapKeys rest))) f.
Proof.
  unfold MapKeys. rewrite map_app. cbn [map fst].
  rewrite writeEntries_app. rewrite length_map. reflexivity.
Qed.

(** X20.  The insertion step.  On the reference guest, in a run of
    [writeMap] under the conditions of the round trip, take the insertion
    of the entry [(k, v)] after the entries [done].  The head of the key's
    bucket ([hashCode & bucketsMask]) read before the insertion is 0 when
    no entry of [done] is in that bucket and otherwise the offset of the
    last one that is; right after the insertion the entry's tagged-next
    field holds that head and the bucket's head is the offset of the
    entry.  This is the guest right after the insertion: a later insertion
    writes over the word when the tagged-next offset equals the entry
    size. *)
Theorem bucket_chain_lifo (tc : TextCodec) (typ kt vt : string)
    (entries done rest : list (HostValue * HostValue)) (k v : HostValue)
    (w : World) :
  In kt supportedTypes -> In vt supportedTypes ->
  mapSubtypes typ = (kt, vt) ->
  typedEntries tc kt vt entries ->
  Z.of_nat (List.length entries) <= 2 ^ 28 ->
  0 <= heapTop w -> memSize w <= 2 ^ 32 -> pinsBelowTop w ->
  heapTop w + mapSpace tc kt vt entries <= memSize w ->
  entries = done ++ (k, v) :: rest ->
  exists c lo fs f f' prev,
    determineCapacities (Z.of_nat (List.length entries)) = Some c /\
    writeMapSetup (adapter := adapter tc) typ
      (Z.of_nat (List.length entries)) (mkFrame w [] []) = (fs, Ok (lo, c)) /\
    writeEntries (adapter := adapter tc) lo entries 0 (MapKeys done) fs =
      (f, Ok tt) /\
    writeEntry (adapter := adapter tc) lo entries
      (Z.of_nat (List.length done)) k f = (f', Ok tt) /\
    let entryOffset := entryOffsetOf lo (Z.of_nat (List.length done)) in
    let bucket := bucketPtrBaseOf lo (keyHash tc k) in
    read32 (world f) bucket = Some prev /\
    lastColliding tc (bucketsMask c) (entriesBufferOffset lo) (loEntrySize lo)
      done (bucketOf tc (bucketsMask c) k) prev /\
    read32 (world f') (U32.add entryOffset (taggedNextOffset lo)) = Some prev /\
    read32 (world f') bucket = Some entryOffset.
Proof.
  intros Hk Hv Hsub Hty Hn Htop Hmax Hpins Hspace Hent.
  destruct (capacities_for (Z.of_nat (List.length entries)))
    as (c & Hc & Hpow & Hcap & Hpos); [lia|].
  pose proof (geometry_of tc kt vt entries w c Hk Hv Hty Hc Hpow Hcap
                Htop Hmax Hspace) as G.
  destruct (writeMap_chain_core tc kt vt entries _ _ _ c G typ w done rest k v
              Hsub Hc eq_refl eq_refl Hpins Hent)
    as (fs & f & f' & prev & H1 & H2 & H3 & H4 & H5 & H6 & H7).
  exists c, (layoutOf kt vt (heapTop w + 8)
               (heapTop w + 8 + 4 * bucketsCapacity c + 8) c), fs, f, f', prev.
  cbv zeta. cbn [entriesBufferOffset loEntrySize layoutOf].
  repeat split; assumption.
Qed.

End GuestFacts.

(* ================================================================== *)
(** ** Runs on the reference guest *)
(* ================================================================== *)

Module Examples.
Import Guest GuestFacts.
Local Open Scope string_scope.

Definition exampleAdapter : Adapter World := adapter exampleCodec.

(** A guest with 4096 bytes of memory whose heap starts at 64. *)
Definition exampleWorld : World := emptyWorld 4096 64.

(** A guest too small for the entries buffer of any map. *)
Definition smallWorld : World := emptyWorld 100 64.

Definition stringTyp : string := "Map<string,i32>".
Definition stringEntries : list (HostValue * HostValue) :=
  [ (VString "a", VInt true 32 5);
    (VString "b", VInt true 32 (-7));
    (VString "q", VInt true 32 9) ].
Definition stringMap : HostValue := VMap TString (TInt true 32) stringEntries.

Definition flagTyp : string := "Map<u32,bool>".
Definition flagEntries : list (HostValue * HostValue) :=
  [ (VInt false 32 1, VBool true);
    (VInt false 32 5, VBool false);
    (VInt false 32 9, VBool true) ].
Definition flagMap : HostValue := VMap (TInt false 32) TBool flagEntries.

(** A guest map keyed by byte buffers, which the host reads as slices. *)
Definition bufferTyp : string := "Map<ArrayBuffer,i32>".
Definition bufferEntries : list (HostValue * HostValue) :=
  [ (VSlice (TInt false 8) [VInt false 8 1; VInt false 8 2], VInt true 32 7);
    (VSlice (TInt false 8) [VInt false 8 3], VInt true 32 8) ].

(** The guest after [writeMap] has run on it. *)
Definition guestAfterWrite (w : World) (typ : string) (data : HostValue) : World :=
  match writeMap (adapter := exampleAdapter) w typ data with
  | Returned f _ _ => world f
  | Panicked f _ => world f
  | Diverged => w
  end.

Definition flagGuest : World := guestAfterWrite exampleWorld flagTyp flagMap.
Definition flagOffset : Z := 152.

Definition bufferGuest : World :=
  guestAfterWrite exampleWorld bufferTyp
    (VMap (TSlice (TInt false 8)) (TInt true 32) bufferEntries).
Definition bufferOffset : Z := 171.

(** A guest whose map header at 0 has the entries pointer 16 and the
    entries capacity 0. *)
Definition zeroCapacityGuest : World :=
  storeBytes (emptyWorld 64 64) 8 (leEncode 4 16).

(** An adapter on which the 32-bit read at [bad] fails: a simulated
    memory-read failure at one address. *)
Definition withReadFault {W : Type} (A : Adapter W) (bad : Z) : Adapter W :=
  Build_Adapter W
    (fun w a => if Z.eqb a bad then None else ReadUint32Le w a)
    WriteUint32Le allocateWasmMemory pinWasmMemory unpinWasmMemory
    GetMapSubtypes GetSizeOfType GetTypeDefinitionId getReflectedType
    readField writeField writeRawBytes
    EncodeUTF16 GetHashCodeBytes GetHashCode.

(** The frames of the run of [writeMap] on [stringMap]: after the body,
    and after the deferred loop. *)
Definition stringBodyFrame : frame World :=
  fst (writeMapBody (adapter := exampleAdapter) stringTyp stringEntries
         (U32.wrap (Z.of_nat (List.length stringEntries)))
         (mkFrame exampleWorld [] [])).

Definition stringFinalFrame : frame World :=
  fst (unpinAll (adapter := exampleAdapter) (pins stringBodyFrame)
         stringBodyFrame None).

Example stringMap_run :
  pinCalls (calls stringFinalFrame) = [72; 96; 152; 162; 172] /\
  unpinCalls (calls stringFinalFrame) = [72; 96; 152; 162; 172] /\
  allocatedFieldPtrs (calls stringFinalFrame) = [152; 162; 172] /\
  readMap (adapter := exampleAdapter) (world stringFinalFrame) stringTyp 182 =
    Ok stringMap.
Proof. vm_compute. repeat split; reflexivity. Qed.

Lemma stringEntries_typed : typedEntries exampleCodec "string" "i32" stringEntries.
Proof.
  split.
  - repeat constructor.
  - repeat constructor; cbn; intuition discriminate.
Defined.


(** X20, at the third entry of [stringMap], whose key falls in the bucket
    of the first one. *)
Lemma bucket_chain_lifo_witness :
  exists c lo fs f f' prev,
    determineCapacities (Z.of_nat (List.length stringEntries)) = Some c /\
    writeMapSetup (adapter := adapter exampleCodec) stringTyp
      (Z.of_nat (List.length stringEntries)) (mkFrame exampleWorld [] []) =
      (fs, Ok (lo, c)) /\
    writeEntries (adapter := adapter exampleCodec) lo stringEntries 0
      (MapKeys [ (VString "a", VInt true 32 5); (VString "b", VInt true 32 (-7)) ])
      fs = (f, Ok tt) /\
    writeEntry (adapter := adapter exampleCodec) lo stringEntries
      (Z.of_nat (List.length
         [ (VString "a", VInt true 32 5); (VString "b", VInt true 32 (-7)) ]))
      (VString "q") f = (f', Ok tt) /\
    let entryOffset :=
      entryOffsetOf lo
        (Z.of_nat (List.length
           [ (VString "a", VInt true 32 5); (VString "b", VInt true 32 (-7)) ])) in
    let bucket := bucketPtrBaseOf lo (keyHash exampleCodec (VString "q")) in
    read32 (world f) bucket = Some prev /\
    lastColliding exampleCodec (bucketsMask c) (entriesBufferOffset lo)
      (loEntrySize lo)
      [ (VString "a", VInt true 32 5); (VString "b", VInt true 32 (-7)) ]
      (bucketOf exampleCodec (bucketsMask c) (VString "q")) prev /\
    read32 (world f') (U32.add entryOffset (taggedNextOffset lo)) = Some prev /\
    read32 (world f') bucket = Some entryOffset.
Proof.
  apply (bucket_chain_lifo exampleCodec stringTyp "string" "i32" stringEntries
           [ (VString "a", VInt true 32 5); (VString "b", VInt true 32 (-7)) ]
           [] (VString "q") (VInt true 32 9) exampleWorld).
  - vm_compute. tauto.
  - vm_compute. tauto.
  - reflexivity.
  - exact stringEntries_typed.
  - vm_compute. discriminate.
  - vm_compute. discriminate.
  - vm_compute. discriminate.
  - intros p [].
  - vm_compute. discriminate.
  - reflexivity.
Defined.

(** The chain of that run, evaluated: the third entry, at 120, points back
    to the first, at 96, and heads bucket 1. *)
Example stringMap_chain :
  read32 (world stringFinalFrame) (72 + 4 * 1) = Some 120 /\
  read32 (world stringFinalFrame) (120 + 8) = Some 96 /\
  read32 (world stringFinalFrame) (96 + 8) = Some 0 /\
  read32 (world stringFinalFrame) (72 + 4 * 2) = Some 108 /\
  read32 (world stringFinalFrame) (108 + 8) = Some 0.
Proof. vm_compute. repeat split; reflexivity. Qed.


(** The words [readMap] does read, with the same simulated failure. *)
Example read_header_field_faults :
  readMap (adapter := withReadFault exampleAdapter (flagOffset + 8))
    flagGuest flagTyp flagOffset =
    Err (Errorf "failed to read map entries pointer") /\
  readMap (adapter := withReadFault exampleAdapter (flagOffset + 12))
    flagGuest flagTyp flagOffset =
    Err (Errorf "failed to read map entries capacity") /\
  readMap (adapter := withReadFault exampleAdapter (flagOffset + 20))
    flagGuest flagTyp flagOffset =
    Err (Errorf "failed to read map entries count") /\
  readMap (adapter := withReadFault exampleAdapter (96 - 4))
    flagGuest flagTyp flagOffset =
    Err (Errorf "failed to read map entries buffer length").
Proof. vm_compute. repeat split; reflexivity. Qed.

(** C4, evaluated where the code departs from the claim.  On a guest with
    no room for the entries buffer the body of [writeMap] fails with the
    allocation error, after the buckets buffer was pinned; the deferred
    loop unpins it, assigns [err] the result of that unpin, and the call
    returns offset 0 with a nil error. *)
Theorem writeMap_masks_allocation_failure :
  snd (writeMapBody (adapter := exampleAdapter) flagTyp flagEntries
         (U32.wrap (Z.of_nat (List.length flagEntries)))
         (mkFrame smallWorld [] [])) =
    Err (ErrorfW "failed to allocate memory for array buffer: %w"
           (Errorf "out of memory")) /\
  exists f,
    writeMap (adapter := exampleAdapter) smallWorld flagTyp flagMap =
      Returned f 0 None /\
    pinCalls (calls f) = [72] /\ unpinCalls (calls f) = [72].
Proof.
  split; [vm_compute; reflexivity|].
  eexists. split; [vm_compute; reflexivity|].
  vm_compute. split; reflexivity.
Qed.

(** The same on a guest where the unpin fails too: the error returned is
    the one of the unpin, not the one of the body. *)
Definition losingPins : Adapter World :=
  Build_Adapter World
    (ReadUint32Le (Adapter := exampleAdapter))
    (WriteUint32Le (Adapter := exampleAdapter))
    (allocateWasmMemory (Adapter := exampleAdapter))
    (pinWasmMemory (Adapter := exampleAdapter))
    (fun w _ => (w, Some (Errorf "object is not pinned")))
    (GetMapSubtypes (Adapter := exampleAdapter))
    (GetSizeOfType (Adapter := exampleAdapter))
    (GetTypeDefinitionId (Adapter := exampleAdapter))
    (getReflectedType (Adapter := exampleAdapter))
    (readField (Adapter := exampleAdapter))
    (writeField (Adapter := exampleAdapter))
    (writeRawBytes (Adapter := exampleAdapter))
    (EncodeUTF16 (Adapter := exampleAdapter))
    (GetHashCodeBytes (Adapter := exampleAdapter))
    (GetHashCode (Adapter := exampleAdapter)).

Example writeMap_reports_unpin_error :
  exists f,
    writeMap (adapter := losingPins) smallWorld flagTyp flagMap =
      Returned f 0 (Some (Errorf "object is not pinned")).
Proof. eexists. vm_compute. reflexivity. Qed.

(** C5, at the run of [writeMap] on [stringMap]. *)
Lemma writeMap_pin_balance_witness :
  writeMap (adapter := exampleAdapter) exampleWorld stringTyp
    (VMap TString (TInt true 32) stringEntries) =
    Returned stringFinalFrame 182 None /\
  (exists b e,
      pinCalls (calls stringFinalFrame) =
      b :: e :: allocatedFieldPtrs (calls stringFinalFrame)) /\
  List.length (pinCalls (calls stringFinalFrame)) =
    (2 + List.length (allocatedFieldPtrs (calls stringFinalFrame)))%nat /\
  unpinCalls (calls stringFinalFrame) = pinCalls (calls stringFinalFrame) /\
  (forall p, count_occ Z.eq_dec (unpinCalls (calls stringFinalFrame)) p =
             count_occ Z.eq_dec (pinCalls (calls stringFinalFrame)) p) /\
  (NoDup (pinCalls (calls stringFinalFrame)) ->
   forall p, In p (pinCalls (calls stringFinalFrame)) ->
             count_occ Z.eq_dec (unpinCalls (calls stringFinalFrame)) p = 1%nat).
Proof.
  apply (writeMap_pin_balance (adapter := exampleAdapter) exampleWorld stringTyp
           TString (TInt true 32) stringEntries stringBodyFrame
           stringFinalFrame 182).
  - vm_compute. reflexivity.
  - vm_compute. reflexivity.
Defined.

(** C8, at a guest map keyed by byte buffers. *)
Lemma readMap_pair_list_witness :
  (forall v,
      readMap (adapter := exampleAdapter) bufferGuest bufferTyp bufferOffset = Ok v ->
      isMapData (TSlice (TInt false 8)) (TInt true 32)
        (Z.to_nat (hdrEntriesCount (mkHeader 96 4 2 48))) v) /\
  (hdrEntriesCapacity (mkHeader 96 4 2 48) <> 0 ->
   (forall j, 0 <= j < Z.of_nat (Z.to_nat (hdrEntriesCount (mkHeader 96 4 2 48))) ->
      pairReadable (adapter := exampleAdapter) bufferGuest
        (fst (GetMapSubtypes (Adapter := exampleAdapter) bufferTyp))
        (snd (GetMapSubtypes (Adapter := exampleAdapter) bufferTyp))
        (TSlice (TInt false 8)) (TInt true 32)
        (hdrEntries (mkHeader 96 4 2 48))
        (hdrByteLength (mkHeader 96 4 2 48) / hdrEntriesCapacity (mkHeader 96 4 2 48))
        (getSizeForOffset (fst (GetMapSubtypes (Adapter := exampleAdapter) bufferTyp)))
        j) ->
   exists v,
     readMap (adapter := exampleAdapter) bufferGuest bufferTyp bufferOffset = Ok v).
Proof.
  apply (readMap_pair_list (adapter := exampleAdapter) bufferGuest bufferTyp
           bufferOffset (mkHeader 96 4 2 48)
           (TSlice (TInt false 8)) (TInt true 32)).
  - vm_compute. reflexivity.
  - reflexivity.
  - reflexivity.
  - reflexivity.
Defined.

Example bufferGuest_read :
  exists pairs,
    readMap (adapter := exampleAdapter) bufferGuest bufferTyp bufferOffset =
      Ok (VStruct (mapDataType (TSlice (TInt false 8)) (TInt true 32))
            [VSlice (pairType (TSlice (TInt false 8)) (TInt true 32)) pairs]) /\
    List.length pairs = 2%nat.
Proof. eexists. split; [vm_compute; reflexivity | reflexivity]. Qed.

(** C9, at a string. *)
Lemma writeMap_rejects_non_map_witness :
  writeMap (adapter := exampleAdapter) exampleWorld stringTyp (VString "a") =
  Returned (mkFrame exampleWorld [] []) 0
    (Some (ErrorfT "unsupported map type %T" (VString "a"))).
Proof.
  apply (writeMap_rejects_non_map (adapter := exampleAdapter)
           exampleWorld stringTyp (VString "a")).
  reflexivity.
Defined.

(** C10, at a header whose capacity word is 0. *)
Lemma readMap_zero_capacity_witness :
  readMap (adapter := exampleAdapter) zeroCapacityGuest stringTyp 0 =
    Panic divideByZero /\
  forall e, readMap (adapter := exampleAdapter) zeroCapacityGuest stringTyp 0
            <> Err e.
Proof.
  apply (readMap_zero_capacity (adapter := exampleAdapter) zeroCapacityGuest
           stringTyp 0 16 0 0); vm_compute; reflexivity.
Defined.

End Examples.

(* ================================================================== *)
(** ** Further properties of the capacities and of the entry layout *)
(* ================================================================== *)

(** X1.  For an element count above [2^28] and up to [2^31] the capacity
    loop still ends with enough buckets, but [bucketsCapacity * 8] no
    longer fits in a [uint32]: the product wraps to 0 and the entries
    capacity that [writeMap] goes on with is 0. *)
Theorem entriesCapacity_wraps_to_zero (mapLen : Z) :
  2 ^ 28 < mapLen <= 2 ^ 31 ->
  exists c,
    determineCapacities mapLen = Some c /\
    mapLen <= bucketsCapacity c /\
    entriesCapacity c = 0.
Proof.
  intros Hlen.
  assert (Hfuel : 31 - 2 <= Z.of_nat capacityFuel) by (unfold capacityFuel; lia).
  assert (Hn : 0 <= mapLen <= 2 ^ 31) by (change (2 ^ 28) with 268435456 in Hlen; lia).
  destruct (growCapacities_inv capacityFuel mapLen 2 4 Hn
              ltac:(lia) Hfuel (or_introl eq_refl))
    as (k & Hk & Hrun & Hle & Hmin).
  assert (Hk29 : 28 < k).
  { apply (Z.pow_lt_mono_r_iff 2); lia. }
  eexists. split; [exact Hrun|].
  cbn [bucketsCapacity entriesCapacity]. split; [assumption|].
  assert (k = 29 \/ k = 30 \/ k = 31) as [-> | [-> | ->]] by lia; reflexivity.
Qed.

(** X2.  For an element count above [2^31] the doubling of
    [bucketsCapacity] wraps to 0 before it reaches the count, the loop
    condition stays true, and [writeMap] does not get past the loop:
    no amount of fuel ends it, and the body allocates and pins nothing. *)
Theorem writeMap_capacity_loop_diverges (mapLen : Z) :
  2 ^ 31 < mapLen ->
  (forall fuel, growCapacities fuel mapLen initialCapacities = None) /\
  forall (W : Type) (A : Adapter W) (typ : string)
         (entries : list (HostValue * HostValue)) (f : frame W),
    writeMapBody typ entries mapLen f = (f, Diverge).
Proof.
  intros Hlen. split.
  - intros fuel. now apply determineCapacities_diverges.
  - intros W A typ entries f.
    unfold writeMapBody, writeMapSetup, bindM, liftR, determineCapacities.
    now rewrite determineCapacities_diverges.
Qed.

(** X3.  For every element count up to [2^28] the capacities leave room:
    the entries buffer has a slot for every element, and every hash code
    masked with [bucketsMask] selects a bucket word that lies inside the
    buckets buffer of [bucketSize * bucketsCapacity] bytes. *)
Theorem capacities_leave_room (mapLen : Z) :
  0 <= mapLen <= 2 ^ 28 ->
  exists c,
    determineCapacities mapLen = Some c /\
    mapLen <= entriesCapacity c /\
    bucketsCapacity c <= entriesCapacity c /\
    forall hashCode,
      0 <= U32.mul (U32.and hashCode (bucketsMask c)) bucketSize /\
      U32.mul (U32.and hashCode (bucketsMask c)) bucketSize + bucketSize <=
        U32.mul bucketSize (bucketsCapacity c).
Proof.
  intros Hlen.
  assert (Hfuel : 31 - 2 <= Z.of_nat capacityFuel) by (unfold capacityFuel; lia).
  assert (Hn : 0 <= mapLen <= 2 ^ 31)
    by (change (2 ^ 28) with 268435456 in Hlen; change (2 ^ 31) with 2147483648; lia).
  destruct (growCapacities_inv capacityFuel mapLen 2 4 Hn
              ltac:(lia) Hfuel (or_introl eq_refl))
    as (k & Hk & Hrun & Hle & Hmin).
  assert (Hk28 : k <= 28).
  { destruct Hmin as [-> | Hlt]; [lia|].
    assert (k - 1 < 28); [|lia].
    apply (Z.pow_lt_mono_r_iff 2); lia. }
  assert (Hpos : 0 < 2 ^ k) by (apply pow2_pos; lia).
  assert (Hup : 2 ^ k <= 2 ^ 28) by (apply pow2_le; lia).
  assert (Hlow : 4 <= 2 ^ k) by (change 4 with (2 ^ 2); apply pow2_le; lia).
  change (2 ^ 28) with 268435456 in *.
  eexists. split; [exact Hrun|].
  cbn [bucketsCapacity bucketsMask entriesCapacity].
  assert (Hec : mapLen <= (if k =? 2 then 4 else U32.mul (2 ^ k) 8 / 3) /\
                2 ^ k <= (if k =? 2 then 4 else U32.mul (2 ^ k) 8 / 3)).
  { destruct (Z.eqb_spec k 2) as [-> | Hne].
    - change (2 ^ 2) with 4 in *. lia.
    - assert (U32.mul (2 ^ k) 8 = 2 ^ k * 8) as ->.
      { unfold U32.mul. apply wrap_small. change (2 ^ 32) with 4294967296. lia. }
      assert (2 ^ k <= 2 ^ k * 8 / 3) by (apply Z.div_le_lower_bound; lia).
      lia. }
  split; [apply Hec|]. split; [apply Hec|].
  intros h. unfold U32.and, bucketSize.
  replace (2 ^ k - 1) with (Z.ones k) by (rewrite Z.ones_equiv; lia).
  rewrite Z.land_ones by lia.
  pose proof (Z.mod_pos_bound h (2 ^ k) Hpos) as Hb.
  unfold U32.mul.
  rewrite !wrap_small by (change (2 ^ 32) with 4294967296; lia).
  lia.
Qed.

(** X4.  Where the fields of an entry lie, for key and value sizes 1, 2,
    4 or 8 of which exactly the 8-byte ones have a 64-bit type name: the
    key ends before the value offset and the value ends before the
    tagged-next offset.  The tagged-next word ends inside the entry when
    the two sizes add up to more than 4; when they add up to at most 4 the
    entry is 8 bytes and the tagged-next offset is 8 too, so the word is
    written over the first four bytes after the entry. *)
Theorem entry_fields_placement (kt vt : string) (ks vs : Z) :
  In ks [1; 2; 4; 8] -> In vs [1; 2; 4; 8] ->
  (ks = 8 <-> getSizeForOffset kt = 8) ->
  (vs = 8 <-> getSizeForOffset vt = 8) ->
  let valueOffset := getSizeForOffset kt in
  let taggedNextOffset := U32.add (getSizeForOffset vt) valueOffset in
  ks <= valueOffset /\
  valueOffset + vs <= taggedNextOffset /\
  (4 < ks + vs -> taggedNextOffset + taggedNextSize <= entrySize ks vs) /\
  (ks + vs <= 4 -> entrySize ks vs = 8 /\ taggedNextOffset = entrySize ks vs).
Proof.
  intros Hks Hvs Hk8 Hv8. cbv zeta.
  assert (Hgk : getSizeForOffset kt = 4 \/ getSizeForOffset kt = 8)
    by (unfold getSizeForOffset; destruct (_ || _)%bool; auto).
  assert (Hgv : getSizeForOffset vt = 4 \/ getSizeForOffset vt = 8)
    by (unfold getSizeForOffset; destruct (_ || _)%bool; auto).
  cbn in Hks, Hvs. unfold taggedNextSize.
  destruct Hks as [<- | [<- | [<- | [<- | []]]]];
    destruct Hvs as [<- | [<- | [<- | [<- | []]]]];
    destruct Hgk as [Gk | Gk]; destruct Hgv as [Gv | Gv];
    rewrite ?Gk, ?Gv in *;
    try (destruct Hk8 as [Hk8a Hk8b]; first [specialize (Hk8a eq_refl) | specialize (Hk8b eq_refl)]; discriminate);
    try (destruct Hv8 as [Hv8a Hv8b]; first [specialize (Hv8a eq_refl) | specialize (Hv8b eq_refl)]; discriminate);
    vm_compute; repeat split; intros; try discriminate; try reflexivity;
    try (exfalso; auto; fail).
Qed.

(* ================================================================== *)
(** ** Equality of types and values *)
(* ================================================================== *)

(** [rtype_eqb] and [valueEqb] decide equality: Go's [==] on the keys of
    the embedding is equality of the values. *)
Lemma rtype_eqb_eq : forall a b, rtype_eqb a b = true -> a = b.
Proof.
  fix IH 1. intros a b. destruct a, b; cbn; try discriminate.
  - reflexivity.
  - intros H. apply andb_prop in H as [H1 H2].
    apply Bool.eqb_prop in H1. apply Z.eqb_eq in H2. congruence.
  - intros H. apply Z.eqb_eq in H. congruence.
  - reflexivity.
  - intros H. f_equal. now apply IH.
  - intros H. apply andb_prop in H as [H1 H2]. f_equal; now apply IH.
  - intros H. f_equal. revert fields0 H.
    induction fields as [|x r1 IHl]; intros [|y r2]; try discriminate; auto.
    intros H. apply andb_prop in H as [H H4]. apply andb_prop in H as [H H3].
    apply andb_prop in H as [H1 H2].
    apply String.eqb_eq in H1, H3. apply IH in H2.
    destruct x, y. cbn in *. f_equal; [congruence|]. now apply IHl.
Qed.

Lemma rtype_eqb_refl : forall a, rtype_eqb a a = true.
Proof.
  fix IH 1. intros a. destruct a; cbn.
  - reflexivity.
  - now rewrite Bool.eqb_reflx, Z.eqb_refl.
  - apply Z.eqb_refl.
  - reflexivity.
  - apply IH.
  - now rewrite !IH.
  - induction fields as [|x r IHl]; [reflexivity|].
    now rewrite !String.eqb_refl, IH, IHl.
Qed.

Lemma valueEqb_eq : forall a b, valueEqb a b = true -> a = b.
Proof.
  fix IH 1. intros a b. destruct a, b; cbn; try discriminate.
  - reflexivity.
  - intros H. apply Bool.eqb_prop in H. congruence.
  - intros H. apply andb_prop in H as [H H3]. apply andb_prop in H as [H1 H2].
    apply Bool.eqb_prop in H1. apply Z.eqb_eq in H2, H3. congruence.
  - intros H. apply String.eqb_eq in H. congruence.
  - intros H. apply andb_prop in H as [H1 H2]. apply rtype_eqb_eq in H1.
    f_equal; [assumption|]. revert items0 H2.
    induction items as [|x r1 IHl]; intros [|y r2]; try discriminate; auto.
    intros H. apply andb_prop in H as [Ha Hb]. f_equal; [now apply IH | now apply IHl].
  - intros H. apply andb_prop in H as [H H3]. apply andb_prop in H as [H1 H2].
    apply rtype_eqb_eq in H1, H2.
    f_equal; try assumption. revert entries0 H3.
    induction entries as [|[x1 y1] r1 IHl]; intros [|[x2 y2] r2]; try discriminate; auto.
    intros H. apply andb_prop in H as [H Hc]. apply andb_prop in H as [Ha Hb].
    f_equal; [f_equal; now apply IH | now apply IHl].
  - intros H. apply andb_prop in H as [H1 H2]. apply rtype_eqb_eq in H1.
    f_equal; [assumption|]. revert fields0 H2.
    induction fields as [|x r1 IHl]; intros [|y r2]; try discriminate; auto.
    intros H. apply andb_prop in H as [Ha Hb]. f_equal; [now apply IH | now apply IHl].
Qed.

Lemma valueEqb_refl : forall a, valueEqb a a = true.
Proof.
  fix IH 1. intros a. destruct a; cbn.
  - reflexivity.
  - apply Bool.eqb_reflx.
  - now rewrite Bool.eqb_reflx, !Z.eqb_refl.
  - apply String.eqb_refl.
  - rewrite rtype_eqb_refl. cbn.
    induction items as [|x r IHl]; [reflexivity|]. now rewrite IH, IHl.
  - rewrite !rtype_eqb_refl. cbn.
    induction entries as [|[x y] r IHl]; [reflexivity|]. now rewrite !IH, IHl.
  - rewrite rtype_eqb_refl. cbn.
    induction fields as [|x r IHl]; [reflexivity|]. now rewrite IH, IHl.
Qed.

(* ================================================================== *)
(** ** Further properties of [readMap] that hold for every adapter *)
(* ================================================================== *)

Section ReadMapEntries.
Context {W : Type} {adapter : Adapter W}.

(** The address [p] of entry [i] in both loops of [readMap]. *)
Definition entryAddr (entries entrySize i : Z) : Z :=
  U32.add entries (U32.mul (U32.wrap i) entrySize).

(** The codec reads the key [k] and the value [v] at entry [i]. *)
Definition entryDecodes (w : W) (kt vt : string)
    (entries entrySize valueOffset i : Z) (k v : HostValue) : Prop :=
  readField w kt (entryAddr entries entrySize i) = inl k /\
  readField w vt (U32.add (entryAddr entries entrySize i) valueOffset) = inl v.

(** The codec fails at entry [i] with [e]: on the key, or on the value
    after the key was read. *)
Definition entryFails (w : W) (kt vt : string)
    (entries entrySize valueOffset i : Z) (e : error) : Prop :=
  readField w kt (entryAddr entries entrySize i) = inr e \/
  exists k,
    readField w kt (entryAddr entries entrySize i) = inl k /\
    readField w vt (U32.add (entryAddr entries entrySize i) valueOffset) = inr e.

(** The value a map holds under [key] after the pairs of [l] were
    assigned in order, the last one first: [None] when no pair has the
    key. *)
Fixpoint lastAssigned (l : list (HostValue * HostValue)) (key : HostValue)
  : option HostValue :=
  match l with
  | [] => None
  | (k, v) :: rest =>
      match lastAssigned rest key with
      | Some r => Some r
      | None => if valueEqb k key then Some v else None
      end
  end.

(** No two entries of a map have equal keys. *)
Fixpoint distinctKeys (m : list (HostValue * HostValue)) : Prop :=
  match m with
  | [] => True
  | (k, _) :: rest =>
      (forall k' v', In (k', v') rest -> valueEqb k k' = false) /\
      distinctKeys rest
  end.

(** Every key and value of a map has the map's key and value type. *)
Definition typedMap (rk rv : rtype) (m : list (HostValue * HostValue)) : Prop :=
  Forall (fun kv => assignable (fst kv) rk = true /\
                    assignable (snd kv) rv = true) m.

Lemma mul_wrap_l (i s : Z) : U32.mul (U32.wrap i) s = U32.mul i s.
Proof.
  unfold U32.mul, U32.wrap. apply Z.mul_mod_idemp_l.
  unfold U32.modulus. lia.
Qed.

Lemma readHeader_runs (w : W) (typ : string) (offset : Z) (h : mapHeader) :
  readHeader w offset = Ok h ->
  hdrEntriesCapacity h <> 0 ->
  readMap w typ offset =
  (let '(keyType, valueType) := GetMapSubtypes typ in
   bindR (check (getReflectedType keyType)) (fun rKeyType =>
   bindR (check (getReflectedType valueType)) (fun rValueType =>
   if Comparable rKeyType then
     bindR (readMapLoop w keyType valueType rKeyType rValueType
              (hdrEntries h) (hdrByteLength h / hdrEntriesCapacity h)
              (getSizeForOffset keyType) (Z.to_nat (hdrEntriesCount h)) 0 [])
           (fun m => Ok (VMap rKeyType rValueType m))
   else
     bindR (readPairsLoop w keyType valueType rKeyType rValueType
              (hdrEntries h) (hdrByteLength h / hdrEntriesCapacity h)
              (getSizeForOffset keyType) (Z.to_nat (hdrEntriesCount h)) 0)
           (fun s => Ok (VStruct (mapDataType rKeyType rValueType)
                           [VSlice (pairType rKeyType rValueType) s]))))).
Proof.
  intros Hh Hcap. unfold readMap. rewrite Hh. cbn [bindR].
  unfold U32.div.
  destruct (Z.eqb_spec (hdrEntriesCapacity h) 0) as [|_]; [contradiction|].
  reflexivity.
Qed.

(** X5.  After the header was read and the stride computed, the two
    element types are resolved, the key type first: when the key type
    cannot be resolved, or the key type can and the value type cannot,
    [readMap] returns that error unchanged and no value, whatever the
    entries hold. *)
Theorem readMap_type_resolution_error (w : W) (typ : string) (offset : Z)
    (h : mapHeader) :
  readHeader w offset = Ok h ->
  hdrEntriesCapacity h <> 0 ->
  (forall e,
      getReflectedType (fst (GetMapSubtypes typ)) = inr e ->
      readMap w typ offset = Err e) /\
  (forall rk e,
      getReflectedType (fst (GetMapSubtypes typ)) = inl rk ->
      getReflectedType (snd (GetMapSubtypes typ)) = inr e ->
      readMap w typ offset = Err e).
Proof.
  intros Hh Hcap. rewrite (readHeader_runs w typ offset h Hh Hcap).
  destruct (GetMapSubtypes typ) as [kt vt]. cbn [fst snd]. split.
  - intros e ->. reflexivity.
  - intros rk e -> ->. reflexivity.
Qed.

(** X6.  A guest map whose entries count is 0 is read as an empty value
    of the shape the key type asks for, an empty native map or a wrapper
    around an empty slice; no entry is decoded, so the result does not
    depend on the entries pointer or on the buffer behind it. *)
Theorem readMap_empty (w : W) (typ : string) (offset : Z) (h : mapHeader)
    (rk rv : rtype) :
  readHeader w offset = Ok h ->
  hdrEntriesCapacity h <> 0 ->
  hdrEntriesCount h = 0 ->
  getReflectedType (fst (GetMapSubtypes typ)) = inl rk ->
  getReflectedType (snd (GetMapSubtypes typ)) = inl rv ->
  readMap w typ offset =
  Ok (if Comparable rk then VMap rk rv []
      else VStruct (mapDataType rk rv) [VSlice (pairType rk rv) []]).
Proof.
  intros Hh Hcap Hcount Hrk Hrv.
  rewrite (readHeader_runs w typ offset h Hh Hcap).
  destruct (GetMapSubtypes typ) as [kt vt]. cbn [fst snd] in *.
  rewrite Hrk, Hrv, Hcount. cbn. destruct (Comparable rk); reflexivity.
Qed.

(* ------------------------------------------------------------------ *)
(** *** A failing entry *)

Lemma SetMapIndex_assignable (rk rv : rtype) m k v :
  assignable k rk = true -> assignable v rv = true ->
  SetMapIndex rk rv m k v = Ok (mapAssign m k v).
Proof.
  intros Hk Hv. unfold SetMapIndex. rewrite Hk, Hv. cbn [negb].
  destruct k; try discriminate Hk; destruct v; try discriminate Hv; reflexivity.
Qed.

Lemma readMapLoop_entry_error (w : W) kt vt rk rv entries es vo (d : nat) :
  forall (n : nat) (i : Z) m e,
    (d < n)%nat ->
    (forall j, i <= j < i + Z.of_nat d ->
               pairReadable w kt vt rk rv entries es vo j) ->
    entryFails w kt vt entries es vo (i + Z.of_nat d) e ->
    readMapLoop w kt vt rk rv entries es vo n i m = Err e.
Proof.
  induction d as [|d IH]; intros n i m e Hlt Hread Hfail;
    (destruct n as [|n]; [lia|]); cbn [readMapLoop];
    rewrite <- (mul_wrap_l i es); fold (entryAddr entries es i).
  - rewrite Z.add_0_r in Hfail.
    destruct Hfail as [Hk | (k & Hk & Hv)].
    + rewrite Hk. reflexivity.
    + rewrite Hk; cbn. rewrite Hv. reflexivity.
  - destruct (Hread i ltac:(lia)) as (k & v & Hk & Hv & Hak & Hav).
    fold (entryAddr entries es i) in Hk, Hv.
    rewrite Hk; cbn. rewrite Hv; cbn.
    rewrite (SetMapIndex_assignable _ _ _ _ _ Hak Hav); cbn.
    apply IH; [lia | intros j Hj; apply Hread; lia |].
    now replace (i + 1 + Z.of_nat d) with (i + Z.of_nat (S d)) by lia.
Qed.

Lemma readPairsLoop_entry_error (w : W) kt vt rk rv entries es vo (d : nat) :
  forall (n : nat) (i : Z) e,
    (d < n)%nat ->
    (forall j, i <= j < i + Z.of_nat d ->
               pairReadable w kt vt rk rv entries es vo j) ->
    entryFails w kt vt entries es vo (i + Z.of_nat d) e ->
    readPairsLoop w kt vt rk rv entries es vo n i = Err e.
Proof.
  induction d as [|d IH]; intros n i e Hlt Hread Hfail;
    (destruct n as [|n]; [lia|]); cbn [readPairsLoop];
    fold (entryAddr entries es i).
  - rewrite Z.add_0_r in Hfail.
    destruct Hfail as [Hk | (k & Hk & Hv)].
    + rewrite Hk. reflexivity.
    + rewrite Hk; cbn. rewrite Hv. reflexivity.
  - destruct (Hread i ltac:(lia)) as (k & v & Hk & Hv & Hak & Hav).
    fold (entryAddr entries es i) in Hk, Hv.
    rewrite Hk; cbn. rewrite Hv; cbn.
    rewrite (SetField_assignable _ _ Hak), (SetField_assignable _ _ Hav); cbn.
    rewrite (IH n (i + 1) e); [reflexivity | lia | intros j Hj; apply Hread; lia |].
    now replace (i + 1 + Z.of_nat d) with (i + Z.of_nat (S d)) by lia.
Qed.

(** X7.  The first entry the codec cannot decode ends the call: when the
    entries before entry [d] decode to values of the reflected types and
    the codec fails on the key of entry [d], or on its value, [readMap]
    returns the codec's error unchanged and no partly built map, in the
    map branch and in the pair-list branch alike. *)
Theorem readMap_entry_read_error (w : W) (typ : string) (offset d : Z)
    (h : mapHeader) (rk rv : rtype) (e : error) :
  readHeader w offset = Ok h ->
  hdrEntriesCapacity h <> 0 ->
  getReflectedType (fst (GetMapSubtypes typ)) = inl rk ->
  getReflectedType (snd (GetMapSubtypes typ)) = inl rv ->
  0 <= d < hdrEntriesCount h ->
  (forall j, 0 <= j < d ->
     pairReadable w (fst (GetMapSubtypes typ)) (snd (GetMapSubtypes typ)) rk rv
       (hdrEntries h) (hdrByteLength h / hdrEntriesCapacity h)
       (getSizeForOffset (fst (GetMapSubtypes typ))) j) ->
  entryFails w (fst (GetMapSubtypes typ)) (snd (GetMapSubtypes typ))
    (hdrEntries h) (hdrByteLength h / hdrEntriesCapacity h)
    (getSizeForOffset (fst (GetMapSubtypes typ))) d e ->
  readMap w typ offset = Err e.
Proof.
  intros Hh Hcap Hrk Hrv Hd Hread Hfail.
  rewrite (readHeader_runs w typ offset h Hh Hcap).
  destruct (GetMapSubtypes typ) as [kt vt]. cbn [fst snd] in *.
  rewrite Hrk, Hrv. cbn [check bindR].
  destruct (Comparable rk).
  - rewrite (readMapLoop_entry_error w kt vt rk rv _ _ _ (Z.to_nat d) _ 0 [] e);
      [reflexivity | lia | intros j Hj; apply Hread; lia |].
    now rewrite Z2Nat.id by lia.
  - rewrite (readPairsLoop_entry_error w kt vt rk rv _ _ _ (Z.to_nat d) _ 0 e);
      [reflexivity | lia | intros j Hj; apply Hread; lia |].
    now rewrite Z2Nat.id by lia.
Qed.

(* ------------------------------------------------------------------ *)
(** *** The native map that is built *)

Lemma SetMapIndex_Ok (rk rv : rtype) m k v m' :
  SetMapIndex rk rv m k v = Ok m' ->
  assignable k rk = true /\
  ((v = VNil /\ m' = mapDelete m k) \/
   (assignable v rv = true /\ m' = mapAssign m k v)).
Proof.
  unfold SetMapIndex.
  destruct (assignable k rk) eqn:Hk.
  - destruct (assignable v rv) eqn:Hv; cbn [negb];
      destruct k; try discriminate Hk;
      destruct v; try discriminate Hv; try discriminate;
      intros [= <-]; auto.
  - cbn [negb]. destruct k; discriminate.
Qed.

Lemma In_mapAssign m k v k' v' :
  In (k', v') (mapAssign m k v) ->
  (exists v'', In (k', v'') m) \/ (k' = k /\ v' = v).
Proof.
  induction m as [|[k0 v0] m IH]; cbn.
  - intros [[= <- <-] | []]. now right.
  - destruct (valueEqb k0 k) eqn:Heq.
    + intros [[= <- <-] | Hin].
      * apply valueEqb_eq in Heq as ->. now right.
      * left. eauto.
    + intros [[= <- <-] | Hin]; [left; eauto|].
      destruct (IH Hin) as [[v'' Hin'] | ?]; [left; eauto | now right].
Qed.

Lemma In_mapDelete m k k' v' :
  In (k', v') (mapDelete m k) -> In (k', v') m.
Proof.
  induction m as [|[k0 v0] m IH]; cbn; [auto|].
  destruct (valueEqb k0 k); [auto|]. intros [H | H]; auto.
Qed.

Lemma distinctKeys_mapAssign m k v :
  distinctKeys m -> distinctKeys (mapAssign m k v).
Proof.
  induction m as [|[k0 v0] m IH]; cbn.
  - intros _. split; [intros ? ? []|exact I].
  - intros [Hhead Hrest]. destruct (valueEqb k0 k) eqn:Heq; cbn.
    + split; assumption.
    + split; [|auto]. intros k' v' Hin.
      apply In_mapAssign in Hin as [[v'' Hin] | [-> _]]; eauto.
Qed.

Lemma distinctKeys_mapDelete m k :
  distinctKeys m -> distinctKeys (mapDelete m k).
Proof.
  induction m as [|[k0 v0] m IH]; cbn; [auto|].
  intros [Hhead Hrest]. destruct (valueEqb k0 k); cbn; [auto|].
  split; [|auto]. intros k' v' Hin. apply In_mapDelete in Hin. eauto.
Qed.

Lemma typedMap_mapAssign rk rv m k v :
  assignable k rk = true -> assignable v rv = true ->
  typedMap rk rv m -> typedMap rk rv (mapAssign m k v).
Proof.
  intros Hk Hv. unfold typedMap.
  induction m as [|[k0 v0] m IH]; cbn [mapAssign]; intros Hm.
  - constructor; [cbn; auto | constructor].
  - apply Forall_cons_iff in Hm as [[Hk0 Hv0] Hm]. cbn [fst snd] in *.
    destruct (valueEqb k0 k); constructor; cbn; auto.
Qed.

Lemma typedMap_mapDelete rk rv m k :
  typedMap rk rv m -> typedMap rk rv (mapDelete m k).
Proof.
  unfold typedMap. induction m as [|[k0 v0] m IH]; cbn [mapDelete]; intros Hm.
  - constructor.
  - apply Forall_cons_iff in Hm as [H0 Hm].
    destruct (valueEqb k0 k); [auto | constructor; auto].
Qed.

Lemma length_mapAssign m k v :
  (List.length (mapAssign m k v) <= S (List.length m))%nat.
Proof.
  induction m as [|[k0 v0] m IH]; cbn; [lia|].
  destruct (valueEqb k0 k); cbn; lia.
Qed.

Lemma length_mapDelete m k :
  (List.length (mapDelete m k) <= List.length m)%nat.
Proof.
  induction m as [|[k0 v0] m IH]; cbn; [lia|].
  destruct (valueEqb k0 k); cbn; lia.
Qed.

Lemma MapIndex_mapAssign m k v key :
  MapIndex (mapAssign m k v) key =
  if valueEqb k key then Some v else MapIndex m key.
Proof.
  induction m as [|[k0 v0] m IH]; cbn [mapAssign MapIndex]; [reflexivity|].
  destruct (valueEqb k0 k) eqn:Heq; cbn [MapIndex].
  - apply valueEqb_eq in Heq as ->.
    destruct (valueEqb k key); reflexivity.
  - rewrite IH. destruct (valueEqb k0 key) eqn:H0; [|reflexivity].
    destruct (valueEqb k key) eqn:H1; [|reflexivity].
    apply valueEqb_eq in H0, H1. subst.
    rewrite valueEqb_refl in Heq. discriminate.
Qed.

Lemma MapIndex_mapDelete m k key :
  MapIndex (mapDelete m k) key =
  if valueEqb k key then None else MapIndex m key.
Proof.
  induction m as [|[k0 v0] m IH]; cbn [mapDelete MapIndex].
  - destruct (valueEqb k key); reflexivity.
  - destruct (valueEqb k0 k) eqn:Heq; cbn [MapIndex].
    + apply valueEqb_eq in Heq as ->. rewrite IH.
      destruct (valueEqb k key); reflexivity.
    + rewrite IH. destruct (valueEqb k0 key) eqn:H0; [|reflexivity].
      destruct (valueEqb k key) eqn:H1; [|reflexivity].
      apply valueEqb_eq in H0, H1. subst.
      rewrite valueEqb_refl in Heq. discriminate.
Qed.

(** What a map holds for an assigned value: a nil element deletes. *)
Definition stored (v : HostValue) : option HostValue :=
  match v with
  | VNil => None
  | _ => Some v
  end.

Lemma stored_assignable v t : assignable v t = true -> stored v = Some v.
Proof. destruct v; [discriminate | reflexivity ..]. Qed.

(** The first loop, run to its end: the entries it decoded, and the map
    it built from [m0]. *)
Lemma readMapLoop_built (w : W) kt vt rk rv entries es vo (n : nat) :
  forall (i : Z) m0 m,
    readMapLoop w kt vt rk rv entries es vo n i m0 = Ok m ->
    exists decoded : list (HostValue * HostValue),
      List.length decoded = n /\
      (forall j k v, nth_error decoded j = Some (k, v) ->
         entryDecodes w kt vt entries es vo (i + Z.of_nat j) k v) /\
      (forall key,
         MapIndex m key =
         match lastAssigned decoded key with
         | Some v => stored v
         | None => MapIndex m0 key
         end) /\
      (typedMap rk rv m0 -> typedMap rk rv m) /\
      (distinctKeys m0 -> distinctKeys m) /\
      (List.length m <= List.length m0 + n)%nat.
Proof.
  induction n as [|n IH]; intros i m0 m; cbn [readMapLoop].
  - intros [= <-]. exists []. split; [reflexivity|].
    split; [intros [|j] k v; discriminate|].
    split; [reflexivity|]. repeat split; auto. lia.
  - rewrite <- (mul_wrap_l i es). fold (entryAddr entries es i).
    destruct (readField w kt (entryAddr entries es i)) as [k|] eqn:Hk;
      cbn [check bindR]; [|discriminate].
    destruct (readField w vt (U32.add (entryAddr entries es i) vo)) as [v|] eqn:Hv;
      cbn [check bindR]; [|discriminate].
    destruct (SetMapIndex rk rv m0 k v) as [m1| | |] eqn:Hset;
      cbn [bindR]; try discriminate.
    intros Hrun.
    destruct (IH _ _ _ Hrun) as (dec & Hlen & Hdec & Hidx & Hty & Hdk & Hsz).
    apply SetMapIndex_Ok in Hset as [Hak Hcase].
    exists ((k, v) :: dec). split; [cbn; now rewrite Hlen|].
    split.
    { intros [|j] k' v' Hnth; cbn in Hnth.
      - injection Hnth as <- <-. rewrite Z.add_0_r. now split.
      - replace (i + Z.of_nat (S j)) with (i + 1 + Z.of_nat j) by lia. eauto. }
    assert (Hm1 : forall key,
              MapIndex m1 key =
              if valueEqb k key then stored v else MapIndex m0 key).
    { intros key. destruct Hcase as [[-> ->] | [Hav ->]].
      - apply MapIndex_mapDelete.
      - rewrite MapIndex_mapAssign, (stored_assignable _ _ Hav). reflexivity. }
    split.
    { intros key. rewrite Hidx. cbn [lastAssigned].
      destruct (lastAssigned dec key); [reflexivity|].
      rewrite Hm1. destruct (valueEqb k key); reflexivity. }
    destruct Hcase as [[-> ->] | [Hav ->]].
    + split; [intros H; apply Hty; now apply typedMap_mapDelete|].
      split; [intros H; apply Hdk; now apply distinctKeys_mapDelete|].
      pose proof (length_mapDelete m0 k). lia.
    + split; [intros H; apply Hty; now apply typedMap_mapAssign|].
      split; [intros H; apply Hdk; now apply distinctKeys_mapAssign|].
      pose proof (length_mapAssign m0 k v). lia.
Qed.

(** A value returned through the map branch is the map the loop built. *)
Lemma readMap_native (w : W) (typ : string) (offset : Z) (h : mapHeader)
    (rk rv : rtype) (data : HostValue) :
  readHeader w offset = Ok h ->
  getReflectedType (fst (GetMapSubtypes typ)) = inl rk ->
  getReflectedType (snd (GetMapSubtypes typ)) = inl rv ->
  Comparable rk = true ->
  readMap w typ offset = Ok data ->
  exists m,
    data = VMap rk rv m /\
    readMapLoop w (fst (GetMapSubtypes typ)) (snd (GetMapSubtypes typ)) rk rv
      (hdrEntries h) (hdrByteLength h / hdrEntriesCapacity h)
      (getSizeForOffset (fst (GetMapSubtypes typ)))
      (Z.to_nat (hdrEntriesCount h)) 0 [] = Ok m.
Proof.
  intros Hh Hrk Hrv Hcmp. unfold readMap. rewrite Hh. cbn [bindR].
  unfold U32.div.
  destruct (hdrEntriesCapacity h =? 0); cbn [bindR]; [discriminate|].
  destruct (GetMapSubtypes typ) as [kt vt]. cbn [fst snd] in *.
  rewrite Hrk, Hrv. cbn [check bindR]. rewrite Hcmp.
  destruct (readMapLoop _ _ _ _ _ _ _ _ _ 0 []) as [m| | |];
    cbn [bindR]; try discriminate.
  intros [= <-]. eauto.
Qed.

(** X8.  A value returned by [readMap] for a comparable key type is a
    native map of the reflected key and value types: it has at most as
    many entries as the header counts, every key and value in it has the
    reflected type, and no two of its keys are equal. *)
Theorem readMap_native_map_wellformed (w : W) (typ : string) (offset : Z)
    (h : mapHeader) (rk rv : rtype) (data : HostValue) :
  readHeader w offset = Ok h ->
  getReflectedType (fst (GetMapSubtypes typ)) = inl rk ->
  getReflectedType (snd (GetMapSubtypes typ)) = inl rv ->
  Comparable rk = true ->
  readMap w typ offset = Ok data ->
  exists m,
    data = VMap rk rv m /\
    (List.length m <= Z.to_nat (hdrEntriesCount h))%nat /\
    typedMap rk rv m /\
    distinctKeys m.
Proof.
  intros Hh Hrk Hrv Hcmp Hrun.
  destruct (readMap_native w typ offset h rk rv data Hh Hrk Hrv Hcmp Hrun)
    as (m & -> & Hloop).
  apply readMapLoop_built in Hloop as (dec & _ & _ & _ & Hty & Hdk & Hsz).
  exists m. split; [reflexivity|]. split; [exact Hsz|].
  split; [apply Hty; constructor | apply Hdk; exact I].
Qed.

(** X9.  What the native map holds.  In a successful read through the map
    branch every entry up to the entries count was decoded, and a lookup
    in the returned map gives the value of the last entry with that key:
    a later duplicate replaces an earlier one, a key whose last value is
    nil is absent, and so is a key no entry has. *)
Theorem readMap_last_entry_wins (w : W) (typ : string) (offset : Z)
    (h : mapHeader) (rk rv : rtype) (data : HostValue) :
  readHeader w offset = Ok h ->
  getReflectedType (fst (GetMapSubtypes typ)) = inl rk ->
  getReflectedType (snd (GetMapSubtypes typ)) = inl rv ->
  Comparable rk = true ->
  readMap w typ offset = Ok data ->
  exists m decoded,
    data = VMap rk rv m /\
    List.length decoded = Z.to_nat (hdrEntriesCount h) /\
    (forall j k v, nth_error decoded j = Some (k, v) ->
       entryDecodes w (fst (GetMapSubtypes typ)) (snd (GetMapSubtypes typ))
         (hdrEntries h) (hdrByteLength h / hdrEntriesCapacity h)
         (getSizeForOffset (fst (GetMapSubtypes typ))) (Z.of_nat j) k v) /\
    forall key,
      MapIndex m key =
      match lastAssigned decoded key with
      | Some v => stored v
      | None => None
      end.
Proof.
  intros Hh Hrk Hrv Hcmp Hrun.
  destruct (readMap_native w typ offset h rk rv data Hh Hrk Hrv Hcmp Hrun)
    as (m & -> & Hloop).
  apply readMapLoop_built in Hloop as (dec & Hlen & Hdec & Hidx & _).
  exists m, dec. split; [reflexivity|]. split; [exact Hlen|].
  split; [|exact Hidx].
  intros j k v Hnth. apply (Hdec j k v Hnth).
Qed.

(* ------------------------------------------------------------------ *)
(** *** The pair list that is built *)

Lemma SetField_Ok (t : rtype) (x y : HostValue) :
  SetField t x = Ok y -> y = x /\ assignable x t = true.
Proof.
  unfold SetField. destruct (assignable x t) eqn:Ha; cbn [negb];
    destruct x; try discriminate; intros [= <-]; auto.
Qed.

Lemma readPairsLoop_ordered (w : W) kt vt rk rv entries es vo (n : nat) :
  forall (i : Z) pairs,
    readPairsLoop w kt vt rk rv entries es vo n i = Ok pairs ->
    forall j, (j < n)%nat ->
      exists k v,
        entryDecodes w kt vt entries es vo (i + Z.of_nat j) k v /\
        assignable k rk = true /\ assignable v rv = true /\
        nth_error pairs j = Some (VStruct (pairType rk rv) [k; v]).
Proof.
  induction n as [|n IH]; intros i pairs; cbn [readPairsLoop]; [lia|].
  fold (entryAddr entries es i).
  destruct (readField w kt (entryAddr entries es i)) as [k|] eqn:Hk;
    cbn [check bindR]; [|discriminate].
  destruct (readField w vt (U32.add (entryAddr entries es i) vo)) as [v|] eqn:Hv;
    cbn [check bindR]; [|discriminate].
  destruct (SetField rk k) as [fk| | |] eqn:Hfk; cbn [bindR]; try discriminate.
  destruct (SetField rv v) as [fv| | |] eqn:Hfv; cbn [bindR]; try discriminate.
  destruct (readPairsLoop _ _ _ _ _ _ _ _ n (i + 1)) as [rest| | |] eqn:Hrest;
    cbn [bindR]; try discriminate.
  intros [= <-] j Hj.
  apply SetField_Ok in Hfk as [-> Hak]. apply SetField_Ok in Hfv as [-> Hav].
  destruct j as [|j].
  - exists k, v. rewrite Z.add_0_r. repeat split; assumption.
  - destruct (IH _ _ Hrest j ltac:(lia)) as (k' & v' & Hd & Hk' & Hv' & Hn).
    exists k', v'.
    replace (i + Z.of_nat (S j)) with (i + 1 + Z.of_nat j) by lia.
    repeat split; try assumption; apply Hd.
Qed.

(** X10.  The pair list keeps the entries as they lie in the guest: in a
    value returned by [readMap] for a key type that is not comparable,
    the element at index [j] of the slice is the pair of the key and the
    value decoded at entry [j], both of the reflected types; entries with
    equal keys each keep their pair. *)
Theorem readMap_pairs_in_entry_order (w : W) (typ : string) (offset : Z)
    (h : mapHeader) (rk rv : rtype) (data : HostValue) :
  readHeader w offset = Ok h ->
  getReflectedType (fst (GetMapSubtypes typ)) = inl rk ->
  getReflectedType (snd (GetMapSubtypes typ)) = inl rv ->
  Comparable rk = false ->
  readMap w typ offset = Ok data ->
  exists pairs,
    data = VStruct (mapDataType rk rv) [VSlice (pairType rk rv) pairs] /\
    forall j, 0 <= j < hdrEntriesCount h ->
      exists k v,
        entryDecodes w (fst (GetMapSubtypes typ)) (snd (GetMapSubtypes typ))
          (hdrEntries h) (hdrByteLength h / hdrEntriesCapacity h)
          (getSizeForOffset (fst (GetMapSubtypes typ))) j k v /\
        assignable k rk = true /\ assignable v rv = true /\
        nth_error pairs (Z.to_nat j) = Some (VStruct (pairType rk rv) [k; v]).
Proof.
  intros Hh Hrk Hrv Hcmp. unfold readMap. rewrite Hh. cbn [bindR].
  unfold U32.div.
  destruct (hdrEntriesCapacity h =? 0); cbn [bindR]; [discriminate|].
  destruct (GetMapSubtypes typ) as [kt vt]. cbn [fst snd] in *.
  rewrite Hrk, Hrv. cbn [check bindR]. rewrite Hcmp.
  destruct (readPairsLoop _ _ _ _ _ _ _ _ _ 0) as [pairs| | |] eqn:Hloop;
    cbn [bindR]; try discriminate.
  intros [= <-]. exists pairs. split; [reflexivity|].
  intros j Hj.
  destruct (readPairsLoop_ordered _ _ _ _ _ _ _ _ _ _ _ Hloop (Z.to_nat j)
              ltac:(lia)) as (k & v & Hd & Hk & Hv & Hn).
  exists k, v. rewrite Z2Nat.id in Hd by lia. auto.
Qed.

End ReadMapEntries.

(* ================================================================== *)
(** ** Further properties of [writeMap] that hold for every adapter *)
(* ================================================================== *)

(** *** Facts that hold however a step ends *)

Section Always.
Context {W : Type} {adapter : Adapter W}.
Local Open Scope go_scope.

(** The set-up of [writeMap] from the entries buffer on, once the buckets
    buffer [bucketsBufferOffset] is allocated, pinned and recorded. *)
Definition setupAfterBuckets (typ : string) (c : capacities)
    (bucketsBufferOffset : Z) : M W (layout * capacities) :=
  let '(keyType, valueType) := GetMapSubtypes typ in
  let keySize := GetSizeOfType keyType in
  let valueSize := GetSizeOfType valueType in
  let entrySize := entrySize keySize valueSize in
  let entriesBufferSize := U32.mul entrySize (entriesCapacity c) in
  entriesBufferOffset <-
    callWrap "failed to allocate memory for array buffer: %w"
      (allocate entriesBufferSize 1) ;;
  callErr (Some "failed to pin array buffer: %w"%string) (pin entriesBufferOffset) ;;;
  appendPin entriesBufferOffset ;;;
  let valueOffset := getSizeForOffset keyType in
  let taggedNextOffset := U32.add (getSizeForOffset valueType) valueOffset in
  ret (mkLayout keyType valueType bucketsBufferOffset entriesBufferOffset
         entrySize (bucketsMask c) valueOffset taggedNextOffset, c).

(** The body of [writeMap] after the set-up: the loop and the header. *)
Definition bodyAfterSetup (typ : string) (entries : list (HostValue * HostValue))
    (mapLen : Z) (lc : layout * capacities) : M W Z :=
  let '(lo, c) := lc in
  writeEntries lo entries 0 (MapKeys entries) ;;;
  id <- liftR (check (GetTypeDefinitionId typ)) ;;
  offset <- callPlain (allocate headerSize id) ;;
  writeHeader offset lo c mapLen ;;;
  ret offset.

Lemma writeMapBody_after_buckets (typ : string)
    (entries : list (HostValue * HostValue)) (mapLen : Z) (w w1 w2 : W)
    (c : capacities) (b : Z) :
  determineCapacities mapLen = Some c ->
  allocateWasmMemory w (U32.mul bucketSize (bucketsCapacity c)) 1 = (w1, inl b) ->
  pinWasmMemory w1 b = (w2, None) ->
  writeMapBody typ entries mapLen (mkFrame w [] []) =
  bindM (setupAfterBuckets typ c b) (bodyAfterSetup typ entries mapLen)
    (mkFrame w2 [b] [CallPin b]).
Proof.
  intros Hc Ha Hp.
  unfold writeMapBody, writeMapSetup, bindM at 1 2 3 4 5, liftR, callWrap, callErr,
    allocate, pin, appendPin, setWorld, logCall.
  cbn [world pins calls]. rewrite Hc, Ha. cbn [checkWrap world pins calls].
  rewrite Hp. cbn [app]. reflexivity.
Qed.

Variable R : frame W -> frame W -> Prop.

(** [R] relates the frame before a step to the frame after it, for
    every result of the step. *)
Definition always {A : Type} (m : M W A) : Prop :=
  forall f f' r, m f = (f', r) -> R f f'.

Hypothesis R_refl : forall f, R f f.
Hypothesis R_trans : forall f1 f2 f3, R f1 f2 -> R f2 f3 -> R f1 f3.
Hypothesis R_allocate :
  forall size id f f' r, allocate size id f = (f', r) -> R f f'.
Hypothesis R_pin :
  forall o ptr, always (callErr o (pin ptr) ;;; appendPin ptr).
Hypothesis R_write : forall addr v msg, always (writeU32 addr v msg).
Hypothesis R_field :
  forall typ addr v f f' r, encodeField typ addr v f = (f', r) -> R f f'.
Hypothesis R_raw :
  forall bytes id f f' r, encodeRawBytes bytes id f = (f', r) -> R f f'.

Lemma always_bind {A B : Type} (m : M W A) (k : A -> M W B) :
  always m -> (forall a, always (k a)) -> always (bindM m k).
Proof.
  intros Hm Hk f f' r. unfold bindM.
  destruct (m f) as [f1 r1] eqn:E. specialize (Hm _ _ _ E).
  destruct r1; [intros H; eapply R_trans; [exact Hm | eapply Hk; exact H] | ..];
    intros [= <- _]; exact Hm.
Qed.

Lemma always_ret {A : Type} (a : A) : always (ret a).
Proof. intros f f' r [= <- _]. apply R_refl. Qed.

Lemma always_liftR {A : Type} (x : result A) : always (liftR x).
Proof. intros f f' r [= <- _]. apply R_refl. Qed.

Lemma always_readU32 addr msg : always (readU32 addr msg).
Proof. intros f f' r [= <- _]. apply R_refl. Qed.

Lemma always_callWrap fmt (c : frame W -> frame W * (Z + error)) :
  (forall f f' r, c f = (f', r) -> R f f') -> always (callWrap fmt c).
Proof.
  intros Hc f f' r. unfold callWrap. destruct (c f) as [f1 r1] eqn:E.
  intros [= <- _]. eauto.
Qed.

Lemma always_callPlain (c : frame W -> frame W * (Z + error)) :
  (forall f f' r, c f = (f', r) -> R f f') -> always (callPlain c).
Proof.
  intros Hc f f' r. unfold callPlain. destruct (c f) as [f1 r1] eqn:E.
  intros [= <- _]. eauto.
Qed.

Lemma always_pin_then {A : Type} o ptr (k : M W A) :
  always k -> always (callErr o (pin ptr) ;;; appendPin ptr ;;; k).
Proof.
  intros Hk f f' r H.
  assert (Hassoc :
    (callErr o (pin ptr) ;;; appendPin ptr ;;; k) f =
    ((callErr o (pin ptr) ;;; appendPin ptr) ;;; k) f).
  { unfold bindM. destruct (callErr o (pin ptr) f) as [f1 [u| | |]]; reflexivity. }
  rewrite Hassoc in H. revert H. apply always_bind; [apply R_pin | intros _; exact Hk].
Qed.

Lemma always_pinIfAllocated ptr : always (pinIfAllocated ptr).
Proof.
  unfold pinIfAllocated. destruct (ptr =? 0); [apply always_ret | apply R_pin].
Qed.

Lemma always_writeEntryKey lo entryOffset key :
  always (writeEntryKey lo entryOffset key).
Proof.
  assert (Hdefault :
    always (ptr <- callWrap "failed to write map entry key: %w"
                     (encodeField (keyType lo) entryOffset key) ;;
            ret (GetHashCode key, ptr))).
  { apply always_bind; [apply always_callWrap, R_field | intros; apply always_ret]. }
  destruct key; try exact Hdefault.
  cbn [writeEntryKey].
  apply always_bind; [apply always_callWrap, R_raw | intros ptr].
  apply always_bind; [apply R_write | intros; apply always_ret].
Qed.

Lemma always_linkEntry lo entryOffset hashCode :
  always (linkEntry lo entryOffset hashCode).
Proof.
  unfold linkEntry.
  apply always_bind; [apply always_readU32 | intros prev].
  apply always_bind; [apply R_write | intros _; apply R_write].
Qed.

Lemma always_writeEntry lo entries i mapKey :
  always (writeEntry lo entries i mapKey).
Proof.
  unfold writeEntry.
  apply always_bind; [apply always_writeEntryKey | intros [hashCode ptr]].
  apply always_bind; [apply always_pinIfAllocated | intros _].
  apply always_bind; [apply always_liftR | intros value].
  apply always_bind; [apply always_callWrap, R_field | intros ptr2].
  apply always_bind; [apply always_pinIfAllocated | intros _].
  apply always_linkEntry.
Qed.

Lemma always_writeEntries lo entries mapKeys :
  forall i, always (writeEntries lo entries i mapKeys).
Proof.
  induction mapKeys as [|k rest IH]; intros i; cbn [writeEntries].
  - apply always_ret.
  - apply always_bind; [apply always_writeEntry | intros _; apply IH].
Qed.

Lemma always_writeHeader offset lo c mapLen :
  always (writeHeader offset lo c mapLen).
Proof.
  unfold writeHeader.
  repeat (apply always_bind; [apply R_write | intros _]).
  apply R_write.
Qed.

Lemma always_setupAfterBuckets typ c b : always (setupAfterBuckets typ c b).
Proof.
  unfold setupAfterBuckets. destruct (GetMapSubtypes typ) as [kt vt].
  apply always_bind; [apply always_callWrap, R_allocate | intros e].
  apply always_pin_then. apply always_ret.
Qed.

Lemma always_bodyAfterSetup typ entries mapLen lc :
  always (bodyAfterSetup typ entries mapLen lc).
Proof.
  unfold bodyAfterSetup. destruct lc as [lo c].
  apply always_bind; [apply always_writeEntries | intros _].
  apply always_bind; [apply always_liftR | intros id].
  apply always_bind; [apply always_callPlain, R_allocate | intros offset].
  apply always_bind; [apply always_writeHeader | intros _; apply always_ret].
Qed.

Lemma always_writeMapSetup typ mapLen : always (writeMapSetup typ mapLen).
Proof.
  unfold writeMapSetup.
  apply always_bind; [apply always_liftR | intros c].
  apply always_bind; [apply always_callWrap, R_allocate | intros b].
  apply always_pin_then. exact (always_setupAfterBuckets typ c b).
Qed.

Lemma always_writeMapBody typ entries mapLen :
  always (writeMapBody typ entries mapLen).
Proof.
  unfold writeMapBody.
  apply always_bind; [apply always_writeMapSetup | intros lc].
  exact (always_bodyAfterSetup typ entries mapLen lc).
Qed.

End Always.

Section WriteMapCleanup.
Context {W : Type} {adapter : Adapter W}.
Local Open Scope go_scope.

(** What the body of [writeMap] does to the record of pins, however it
    ends: it records the offsets [d], each of them after a pin call on
    it, and it unpins nothing. *)
Definition recordsPins (f f' : frame W) : Prop :=
  exists d dc,
    pins f' = pins f ++ d /\
    pinCalls (calls f') = pinCalls (calls f) ++ dc /\
    incl d dc /\
    unpinCalls (calls f') = unpinCalls (calls f).

Lemma recordsPins_refl f : recordsPins f f.
Proof.
  exists [], []. rewrite !app_nil_r. repeat split. intros x [].
Qed.

Lemma recordsPins_trans f1 f2 f3 :
  recordsPins f1 f2 -> recordsPins f2 f3 -> recordsPins f1 f3.
Proof.
  intros (d1 & c1 & Hp1 & Hc1 & Hi1 & Hu1) (d2 & c2 & Hp2 & Hc2 & Hi2 & Hu2).
  exists (d1 ++ d2), (c1 ++ c2).
  rewrite Hp2, Hc2, Hu2, Hp1, Hc1, Hu1, !app_assoc. repeat split.
  apply incl_app; [now apply incl_appl | now apply incl_appr].
Qed.

Lemma recordsPins_setWorld f w : recordsPins f (setWorld f w).
Proof. exact (recordsPins_refl f). Qed.

Lemma recordsPins_fieldPtr f w p :
  recordsPins f (logCall (FieldPtr p) (setWorld f w)).
Proof.
  exists [], []. cbn. unfold pinCalls, unpinCalls.
  rewrite !flat_map_app. cbn. rewrite !app_nil_r. repeat split. intros x [].
Qed.

Lemma recordsPins_allocate size id f f' r :
  allocate size id f = (f', r) -> recordsPins f f'.
Proof.
  unfold allocate. destruct (allocateWasmMemory _ _ _) as [w r'].
  intros [= <- _]. apply recordsPins_setWorld.
Qed.

Lemma recordsPins_pin o ptr :
  always recordsPins (callErr o (pin ptr) ;;; appendPin ptr).
Proof.
  intros f f' r. unfold bindM, callErr, pin, appendPin.
  destruct (pinWasmMemory (world f) ptr) as [w [e|]].
  - intros H.
    assert (f' = logCall (CallPin ptr) (setWorld f w)) as ->
      by (destruct o; now injection H as <- _).
    exists [], [ptr]. cbn. unfold pinCalls, unpinCalls.
    rewrite !flat_map_app. cbn. rewrite !app_nil_r. repeat split. intros x [].
  - intros [= <- _]. exists [ptr], [ptr]. cbn. unfold pinCalls, unpinCalls.
    rewrite !flat_map_app. cbn. rewrite !app_nil_r. repeat split.
    apply incl_refl.
Qed.

Lemma recordsPins_write addr v msg : always recordsPins (writeU32 addr v msg).
Proof.
  intros f f' r. unfold writeU32.
  destruct (WriteUint32Le _ _ _) as [w|]; intros [= <- _];
    [apply recordsPins_setWorld | apply recordsPins_refl].
Qed.

Lemma recordsPins_field typ addr v f f' r :
  encodeField typ addr v f = (f', r) -> recordsPins f f'.
Proof.
  unfold encodeField. destruct (writeField _ _ _ _) as [w [p|e]];
    intros [= <- _]; [apply recordsPins_fieldPtr | apply recordsPins_setWorld].
Qed.

Lemma recordsPins_raw bytes id f f' r :
  encodeRawBytes bytes id f = (f', r) -> recordsPins f f'.
Proof.
  unfold encodeRawBytes. destruct (writeRawBytes _ _ _) as [w [p|e]];
    intros [= <- _]; [apply recordsPins_fieldPtr | apply recordsPins_setWorld].
Qed.

Ltac recordsPins_step :=
  first [ exact recordsPins_refl | exact recordsPins_trans
        | exact recordsPins_allocate | exact recordsPins_pin
        | exact recordsPins_write | exact recordsPins_field
        | exact recordsPins_raw ].

Lemma writeMapBody_recordsPins typ entries mapLen :
  always recordsPins (writeMapBody typ entries mapLen).
Proof. apply always_writeMapBody; recordsPins_step. Qed.

(** The deferred loop, however it ends: it unpins a first part [done] of
    the recorded offsets, all of them when it leaves [err == nil]; when it
    leaves an error, that is the error of the last unpin it made.  It pins
    nothing and leaves [pins] as it is. *)
Lemma unpinAll_run (ptrs : list Z) :
  forall (f f2 : frame W) (e0 r : option error),
    unpinAll ptrs f e0 = (f2, r) ->
    exists done rest,
      ptrs = done ++ rest /\
      unpinCalls (calls f2) = unpinCalls (calls f) ++ done /\
      pinCalls (calls f2) = pinCalls (calls f) /\
      pins f2 = pins f /\
      (ptrs <> [] -> r = None -> rest = []) /\
      (ptrs <> [] -> forall e, r = Some e ->
         exists d p wm,
           done = d ++ [p] /\ snd (unpinWasmMemory wm p) = Some e).
Proof.
  induction ptrs as [|p ptrs IH]; intros f f2 e0 r; cbn [unpinAll].
  - intros [= <- <-]. exists [], []. rewrite !app_nil_r.
    repeat split; congruence.
  - unfold unpin at 1.
    destruct (unpinWasmMemory (world f) p) as [w [e|]] eqn:Hu.
    + intros [= <- <-]. exists [p], ptrs. cbn. unfold pinCalls, unpinCalls.
      rewrite !flat_map_app. cbn. rewrite !app_nil_r.
      repeat split; try congruence.
      intros _ e' [= <-]. exists [], p, (world f). rewrite Hu. now split.
    + intros H.
      destruct ptrs as [|q ptrs].
      * cbn in H. injection H as <- <-. exists [p], []. cbn.
        unfold pinCalls, unpinCalls. rewrite !flat_map_app. cbn.
        rewrite !app_nil_r. repeat split; congruence.
      * apply IH in H as (done & rest & Hsplit & Hu2 & Hp2 & Hpins & Hnone & Hsome).
        exists (p :: done), rest. cbn [app]. rewrite Hsplit.
        cbn in Hu2, Hp2, Hpins. unfold pinCalls, unpinCalls in *.
        rewrite flat_map_app in Hu2, Hp2. cbn in Hu2, Hp2.
        rewrite app_nil_r in Hp2. rewrite <- app_assoc in Hu2. cbn in Hu2.
        split; [reflexivity|]. split; [exact Hu2|]. split; [exact Hp2|].
        split; [exact Hpins|].
        split; [intros _ Hr; apply Hnone; [discriminate | exact Hr]|].
        intros _ e Hr.
        destruct (Hsome ltac:(discriminate) e Hr) as (d & p' & wm & -> & Hfail).
        exists (p :: d), p', wm. now split.
Qed.

(** X11.  An error of the set-up before the first pin is recorded reaches
    the caller as the body returned it: when the allocation of the buckets
    buffer fails, or its pin fails, [writeMap] returns offset 0 and the
    error wrapped with the message of that step; nothing is unpinned, and
    a buckets buffer whose pin failed is left to the guest. *)
Theorem writeMap_setup_error_reported (w : W) (typ : string) (kt vt : rtype)
    (entries : list (HostValue * HostValue)) (c : capacities) :
  determineCapacities (U32.wrap (Z.of_nat (List.length entries))) = Some c ->
  (forall w' e,
      allocateWasmMemory w (U32.mul bucketSize (bucketsCapacity c)) 1 =
        (w', inr e) ->
      writeMap w typ (VMap kt vt entries) =
      Returned (mkFrame w' [] []) 0
        (Some (ErrorfW "failed to allocate memory for array buffer: %w" e))) /\
  (forall w1 b w2 e,
      allocateWasmMemory w (U32.mul bucketSize (bucketsCapacity c)) 1 =
        (w1, inl b) ->
      pinWasmMemory w1 b = (w2, Some e) ->
      writeMap w typ (VMap kt vt entries) =
      Returned (mkFrame w2 [] [CallPin b]) 0
        (Some (ErrorfW "failed to pin array buffer: %w" e))).
Proof.
  intros Hc. split.
  - intros w' e Ha.
    unfold writeMap, writeMapBody, writeMapSetup, bindM, liftR, callWrap, allocate,
      setWorld.
    cbn [world pins calls]. rewrite Hc, Ha. reflexivity.
  - intros w1 b w2 e Ha Hp.
    unfold writeMap, writeMapBody, writeMapSetup, bindM, liftR, callWrap, callErr,
      allocate, pin, setWorld, logCall.
    cbn [world pins calls]. rewrite Hc, Ha. cbn [checkWrap world pins calls].
    rewrite Hp. reflexivity.
Qed.

(** X12.  Once the buckets buffer is allocated, pinned and recorded, no
    error of the body reaches the caller: however the body fails later,
    at the entries buffer, at a key or a value, at the type definition or
    at the header, [writeMap] returns offset 0 and, as its error, what the
    deferred unpin loop leaves in [err], which is nil when every unpin
    succeeds. *)
Theorem writeMap_error_after_first_pin (w w1 w2 : W) (typ : string)
    (kt vt : rtype) (entries : list (HostValue * HostValue))
    (c : capacities) (b : Z) (f1 : frame W) (e : error) :
  determineCapacities (U32.wrap (Z.of_nat (List.length entries))) = Some c ->
  allocateWasmMemory w (U32.mul bucketSize (bucketsCapacity c)) 1 = (w1, inl b) ->
  pinWasmMemory w1 b = (w2, None) ->
  writeMapBody typ entries (U32.wrap (Z.of_nat (List.length entries)))
    (mkFrame w [] []) = (f1, Err e) ->
  (exists d, pins f1 = b :: d) /\
  writeMap w typ (VMap kt vt entries) =
  Returned (fst (unpinAll (pins f1) f1 None)) 0
           (snd (unpinAll (pins f1) f1 None)) /\
  (forall f2, unpinAll (pins f1) f1 None = (f2, None) ->
              writeMap w typ (VMap kt vt entries) = Returned f2 0 None).
Proof.
  intros Hc Ha Hp Hbody.
  assert (Hpins : exists d, pins f1 = b :: d).
  { rewrite (writeMapBody_after_buckets typ entries _ w w1 w2 c b Hc Ha Hp)
      in Hbody.
    assert (Hrec : always recordsPins
              (bindM (setupAfterBuckets typ c b)
                     (bodyAfterSetup typ entries
                        (U32.wrap (Z.of_nat (List.length entries)))))).
    { apply always_bind; [exact recordsPins_trans | |].
      - apply always_setupAfterBuckets; recordsPins_step.
      - intros lc. apply always_bodyAfterSetup; recordsPins_step. }
    destruct (Hrec _ _ _ Hbody) as (d & dc & Hd & _). cbn in Hd. eauto. }
  assert (Hrun : writeMap w typ (VMap kt vt entries) =
                 Returned (fst (unpinAll (pins f1) f1 None)) 0
                          (snd (unpinAll (pins f1) f1 None))).
  { unfold writeMap. rewrite Hbody.
    rewrite unpinAll_overwrites by (destruct Hpins as [d ->]; discriminate).
    destruct (unpinAll (pins f1) f1 None); reflexivity. }
  split; [exact Hpins|]. split; [exact Hrun|].
  intros f2 Hunpin. rewrite Hrun, Hunpin. reflexivity.
Qed.

(** X13.  [writeMap] unpins only what it pinned and recorded, in the
    order of the record: however the call ends, the offsets it unpinned
    are a first part of [pins], every offset in [pins] was the argument of
    a pin call before, and the body itself unpinned nothing. *)
Theorem writeMap_unpins_only_recorded (w : W) (typ : string) (data : HostValue) :
  match writeMap w typ data with
  | Returned f _ _ | Panicked f _ =>
      (exists rest, pins f = unpinCalls (calls f) ++ rest) /\
      incl (pins f) (pinCalls (calls f))
  | Diverged => True
  end.
Proof.
  assert (Hfinal : forall mapLen entries f1 r f2 e0 r2,
            writeMapBody typ entries mapLen (mkFrame w [] []) = (f1, r) ->
            unpinAll (pins f1) f1 e0 = (f2, r2) ->
            (exists rest, pins f2 = unpinCalls (calls f2) ++ rest) /\
            incl (pins f2) (pinCalls (calls f2))).
  { intros mapLen entries f1 r f2 e0 r2 Hbody Hunpin.
    destruct (writeMapBody_recordsPins _ _ _ _ _ _ Hbody)
      as (d & dc & Hd & Hdc & Hincl & Hu).
    destruct (unpinAll_run _ _ _ _ _ Hunpin)
      as (done & rest & Hsplit & Hu2 & Hp2 & Hpins & _).
    cbn in Hd, Hdc, Hu. rewrite Hu in Hu2. cbn in Hu2.
    rewrite Hpins, Hp2, Hu2, Hdc, Hd. cbn. rewrite Hd in Hsplit. split; eauto. }
  destruct data; cbn [writeMap];
    try (split; [exists []; reflexivity | intros x []]).
  destruct (writeMapBody typ entries _ (mkFrame w [] [])) as [f1 r] eqn:Hbody.
  destruct r as [offset | e | msg |]; [| | |exact I].
  - destruct (unpinAll (pins f1) f1 None) as [f2 r2] eqn:Hunpin. eauto.
  - destruct (unpinAll (pins f1) f1 (Some e)) as [f2 r2] eqn:Hunpin. eauto.
  - destruct (unpinAll (pins f1) f1 None) as [f2 r2] eqn:Hunpin. eauto.
Qed.

(** X14.  When an unpin fails in the deferred loop after the body
    succeeded, [writeMap] returns the error of that unpin together with
    the offset of the header it wrote, not offset 0; the loop stops there,
    so the offsets recorded after the failing one stay pinned. *)
Theorem writeMap_cleanup_failure (w : W) (typ : string) (kt vt : rtype)
    (entries : list (HostValue * HostValue)) (f1 f2 : frame W)
    (offset : Z) (e : error) :
  writeMapBody typ entries (U32.wrap (Z.of_nat (List.length entries)))
    (mkFrame w [] []) = (f1, Ok offset) ->
  unpinAll (pins f1) f1 None = (f2, Some e) ->
  writeMap w typ (VMap kt vt entries) = Returned f2 offset (Some e) /\
  exists done p rest wm,
    pins f1 = done ++ p :: rest /\
    unpinCalls (calls f2) = done ++ [p] /\
    snd (unpinWasmMemory wm p) = Some e.
Proof.
  intros Hbody Hunpin. split.
  - unfold writeMap. rewrite Hbody, Hunpin. reflexivity.
  - destruct (writeMapBody_recordsPins _ _ _ _ _ _ Hbody)
      as (d & dc & Hd & _ & _ & Hu).
    destruct (unpinAll_run _ _ _ _ _ Hunpin)
      as (done & rest & Hsplit & Hu2 & _ & _ & _ & Hsome).
    cbn in Hu. rewrite Hu in Hu2. cbn in Hu2.
    assert (Hne : pins f1 <> []).
    { intros Hnil. rewrite Hnil in Hunpin. discriminate Hunpin. }
    destruct (Hsome Hne e eq_refl) as (d' & p & wm & -> & Hfail).
    exists d', p, rest, wm. rewrite Hsplit, Hu2, <- app_assoc. auto.
Qed.

End WriteMapCleanup.

(* ================================================================== *)
(** ** Further properties on the reference guest *)
(* ================================================================== *)

Module GuestPins.
Import Guest GuestFacts.

(** *** The codec and the allocator leave the pinned set alone *)

Lemma alloc_pinned (w : World) (size id : Z) :
  pinned (fst (alloc w size id)) = pinned w.
Proof. unfold alloc. destruct (_ && _); reflexivity. Qed.

Lemma storeRaw_pinned (w : World) (bytes : list Z) (id : Z) :
  pinned (fst (storeRaw w bytes id)) = pinned w.
Proof.
  unfold storeRaw. pose proof (alloc_pinned w (Z.of_nat (List.length bytes)) id) as H.
  destruct (alloc w _ id) as [w1 [p|e]]; exact H.
Qed.

Lemma write32_pinned (w w' : World) (a v : Z) :
  write32 w a v = Some w' -> pinned w' = pinned w.
Proof. unfold write32. destruct (inBounds w a 4); [|discriminate]. now intros [= <-]. Qed.

Lemma writePointer_pinned (w : World) (addr : Z) (bytes : list Z) (id : Z) :
  pinned (fst (writePointer w addr bytes id)) = pinned w.
Proof.
  unfold writePointer. pose proof (storeRaw_pinned w bytes id) as H.
  destruct (storeRaw w bytes id) as [w1 [p|e]]; [|exact H].
  destruct (write32 w1 addr p) as [w2|] eqn:Hw; [|exact H].
  cbn [fst] in *. now rewrite (write32_pinned _ _ _ _ Hw).
Qed.

Lemma storeField_pinned (tc : TextCodec) (w : World) (typ : string) (addr : Z)
    (v : HostValue) :
  pinned (fst (storeField tc w typ addr v)) = pinned w.
Proof.
  unfold storeField.
  destruct (classify typ); destruct v; try reflexivity.
  - destruct (_ && _); [|reflexivity]. destruct (inBounds _ _ _); reflexivity.
  - destruct (inBounds _ _ _); reflexivity.
  - apply writePointer_pinned.
  - destruct elem; try reflexivity. destruct signed; try reflexivity.
    destruct bits; try reflexivity.
    repeat (match goal with
            | |- context [match ?p with xH => _ | xI _ => _ | xO _ => _ end] =>
                destruct p; try reflexivity
            end).
    destruct (bytesOfItems items); [apply writePointer_pinned | reflexivity].
Qed.

Section PinsRestored.
Variable tc : TextCodec.
Let guest : Adapter World := adapter tc.
Local Existing Instance guest.
Local Open Scope go_scope.

(** The offsets pinned before the call. *)
Variable before : list Z.

(** The guest's pinned set is the record [pins], latest first, on top of
    what was pinned before the call; the recorded offsets are pairwise
    different and none of them was pinned before. *)
Definition pinsTracked (f : frame World) : Prop :=
  pinned (world f) = rev (pins f) ++ before /\
  NoDup (pins f) /\
  forall p, In p (pins f) -> ~ In p before.

Definition keepsPins (f f' : frame World) : Prop :=
  pinsTracked f -> pinsTracked f'.

Lemma keepsPins_refl f : keepsPins f f.
Proof. unfold keepsPins. auto. Qed.

Lemma keepsPins_trans f1 f2 f3 :
  keepsPins f1 f2 -> keepsPins f2 f3 -> keepsPins f1 f3.
Proof. unfold keepsPins. auto. Qed.

Lemma keepsPins_same (f f' : frame World) :
  pinned (world f') = pinned (world f) -> pins f' = pins f -> keepsPins f f'.
Proof. unfold keepsPins, pinsTracked. intros -> ->. auto. Qed.

Lemma keepsPins_allocate size id (f f' : frame World) r :
  allocate size id f = (f', r) -> keepsPins f f'.
Proof.
  unfold allocate.
  change (allocateWasmMemory (world f) size id) with (alloc (world f) size id).
  pose proof (alloc_pinned (world f) size id) as H.
  destruct (alloc (world f) size id) as [w r']. intros [= <- _].
  now apply keepsPins_same.
Qed.

Lemma keepsPins_write addr v msg : always keepsPins (writeU32 addr v msg).
Proof.
  intros f f' r. unfold writeU32.
  change (WriteUint32Le (world f) addr v) with (write32 (world f) addr v).
  destruct (write32 (world f) addr v) as [w|] eqn:Hw; intros [= <- _].
  - apply keepsPins_same; [exact (write32_pinned _ _ _ _ Hw) | reflexivity].
  - apply keepsPins_refl.
Qed.

Lemma keepsPins_field typ addr v (f f' : frame World) r :
  encodeField typ addr v f = (f', r) -> keepsPins f f'.
Proof.
  unfold encodeField.
  change (writeField (world f) typ addr v) with (storeField tc (world f) typ addr v).
  pose proof (storeField_pinned tc (world f) typ addr v) as H.
  destruct (storeField tc (world f) typ addr v) as [w [p|e]]; intros [= <- _];
    now apply keepsPins_same.
Qed.

Lemma keepsPins_raw bytes id (f f' : frame World) r :
  encodeRawBytes bytes id f = (f', r) -> keepsPins f f'.
Proof.
  unfold encodeRawBytes.
  change (writeRawBytes (world f) bytes id) with (storeRaw (world f) bytes id).
  pose proof (storeRaw_pinned (world f) bytes id) as H.
  destruct (storeRaw (world f) bytes id) as [w [p|e]]; intros [= <- _];
    now apply keepsPins_same.
Qed.

Lemma keepsPins_pin o ptr :
  always keepsPins (callErr o (pin ptr) ;;; appendPin ptr).
Proof.
  intros f f' r. unfold bindM, callErr, pin, appendPin.
  change (pinWasmMemory (world f) ptr) with (pinObj (world f) ptr).
  unfold pinObj. destruct (isPinned (world f) ptr) eqn:Hp.
  - intros H.
    assert (f' = logCall (CallPin ptr) (setWorld f (world f))) as ->
      by (destruct o; now injection H as <- _).
    now apply keepsPins_same.
  - intros [= <- _] (Hpinned & Hnd & Hfresh).
    assert (Hnot : ~ In ptr (pinned (world f))).
    { intros Hin. apply isPinned_spec in Hin. congruence. }
    rewrite Hpinned in Hnot.
    assert (Hnp : ~ In ptr (pins f)).
    { intros Hin. apply Hnot, in_or_app. left. now apply in_rev in Hin. }
    assert (Hnb : ~ In ptr before).
    { intros Hin. apply Hnot, in_or_app. now right. }
    unfold pinsTracked. cbn [world pins setWorld logCall pinned].
    split; [rewrite Hpinned, rev_app_distr; reflexivity|].
    split.
    + apply NoDup_app; [assumption | repeat constructor; intros [] |].
      intros x Hx [<- | []]. contradiction.
    + intros p Hin. apply in_app_or in Hin as [Hin | [<- | []]]; auto.
Qed.

Ltac keepsPins_step :=
  first [ exact keepsPins_refl | exact keepsPins_trans
        | exact keepsPins_allocate | exact keepsPins_pin
        | exact keepsPins_write | exact keepsPins_field
        | exact keepsPins_raw ].

Lemma writeMapBody_keepsPins typ entries mapLen :
  always keepsPins (writeMapBody typ entries mapLen).
Proof. apply always_writeMapBody; keepsPins_step. Qed.

(** The deferred loop on a guest where the offsets to unpin are pinned
    and pairwise different: every unpin succeeds, and what stays pinned
    is what was pinned besides them. *)
Lemma unpinAll_releases (ptrs : list Z) :
  forall (f : frame World) (e0 : option error),
    NoDup ptrs ->
    (forall p, In p ptrs -> In p (pinned (world f))) ->
    exists f2,
      unpinAll ptrs f e0 = (f2, match ptrs with [] => e0 | _ => None end) /\
      pinned (world f2) =
        filter (fun q => negb (existsb (Z.eqb q) ptrs)) (pinned (world f)) /\
      unpinCalls (calls f2) = unpinCalls (calls f) ++ ptrs /\
      pins f2 = pins f.
Proof.
  induction ptrs as [|p rest IH]; intros f e0 Hnd Hin.
  - exists f. cbn [unpinAll existsb negb]. rewrite app_nil_r.
    split; [reflexivity|]. split; [|split; reflexivity].
    symmetry. apply forallb_filter_id. apply forallb_forall. reflexivity.
  - apply NoDup_cons_iff in Hnd as [Hnotin Hnd].
    cbn [unpinAll]. unfold unpin.
    change (unpinWasmMemory (world f) p) with (unpinObj (world f) p).
    rewrite unpinObj_pinned by (apply Hin; now left).
    set (f1 := logCall (CallUnpin p) (setWorld f _)).
    destruct (IH f1 None Hnd) as (f2 & Hrun & Hpinned & Hcalls & Hpins).
    { intros q Hq. cbn. apply filter_In. split; [apply Hin; now right|].
      apply negb_true_iff, Z.eqb_neq. intros ->. contradiction. }
    exists f2. split.
    { rewrite Hrun. destruct rest; reflexivity. }
    split; [|split; [|exact Hpins]].
    + rewrite Hpinned. cbn [world f1 setWorld logCall pinned].
      clear. induction (pinned (world f)) as [|q l IHl]; [reflexivity|].
      cbn [filter existsb]. destruct (Z.eqb_spec q p) as [-> | Hne]; cbn [negb orb].
      * exact IHl.
      * cbn [filter]. destruct (existsb (Z.eqb q) rest); cbn [negb]; [exact IHl|].
        now rewrite IHl.
    + rewrite Hcalls. cbn. unfold unpinCalls. rewrite flat_map_app. cbn.
      now rewrite <- app_assoc.
Qed.

Lemma filter_recorded (l : list Z) :
  (forall p, In p l -> ~ In p before) ->
  filter (fun q => negb (existsb (Z.eqb q) l)) (rev l ++ before) = before.
Proof.
  intros Hfresh. rewrite filter_app.
  assert (Hrev : filter (fun q => negb (existsb (Z.eqb q) l)) (rev l) = []).
  { assert (Hall : forall q, In q (rev l) -> In q l) by (intros q; apply in_rev).
    induction (rev l) as [|q r IHr]; [reflexivity|]. cbn [filter].
    assert (Hq : existsb (Z.eqb q) l = true).
    { apply existsb_exists. exists q. split; [apply Hall; now left | apply Z.eqb_refl]. }
    rewrite Hq. cbn [negb]. apply IHr. intros x Hx. apply Hall. now right. }
  rewrite Hrev. cbn [app].
  assert (Hb : forall q, In q before -> existsb (Z.eqb q) l = false).
  { intros q Hq. destruct (existsb (Z.eqb q) l) eqn:E; [|reflexivity].
    apply existsb_exists in E as (x & Hx & Heq). apply Z.eqb_eq in Heq. subst x.
    exfalso. exact (Hfresh q Hx Hq). }
  apply forallb_filter_id. apply forallb_forall.
  intros q Hq. now rewrite Hb.
Qed.

End PinsRestored.

(** X15.  On the reference guest [writeMap] leaves the set of pinned
    offsets as it found it on every exit: whether the call returns an
    offset, returns an error or panics, each offset it pinned has been
    unpinned by the deferred loop, no unpin failed, and what was pinned
    before the call still is. *)
Theorem writeMap_restores_pinned (tc : TextCodec) (w : World) (typ : string)
    (data : HostValue) :
  match writeMap (adapter := adapter tc) w typ data with
  | Returned f _ _ | Panicked f _ =>
      pinned (world f) = pinned w /\ unpinCalls (calls f) = pins f
  | Diverged => True
  end.
Proof.
  assert (Hfinal : forall mapLen entries f1 r e0,
            writeMapBody (adapter := adapter tc) typ entries mapLen
              (mkFrame w [] []) = (f1, r) ->
            exists f2,
              unpinAll (adapter := adapter tc) (pins f1) f1 e0 =
                (f2, match pins f1 with [] => e0 | _ => None end) /\
              pinned (world f2) = pinned w /\ unpinCalls (calls f2) = pins f2).
  { intros mapLen entries f1 r e0 Hbody.
    destruct (writeMapBody_keepsPins tc (pinned w) _ _ _ _ _ _ Hbody)
      as (Hpinned & Hnd & Hfresh).
    { split; [reflexivity|]. split; [constructor | intros p []]. }
    destruct (writeMapBody_recordsPins (adapter := adapter tc) _ _ _ _ _ _ Hbody)
      as (d & dc & _ & _ & _ & Hu).
    destruct (unpinAll_releases tc (pins f1) f1 e0 Hnd)
      as (f2 & Hrun & Hp2 & Hu2 & Hpins).
    { intros p Hp. rewrite Hpinned. apply in_or_app. left. rewrite <- in_rev. exact Hp. }
    exists f2. split; [exact Hrun|]. split.
    - rewrite Hp2, Hpinned. now apply filter_recorded.
    - rewrite Hu2, Hu, Hpins. reflexivity. }
  destruct data; cbn [writeMap]; try (split; reflexivity).
  destruct (writeMapBody typ entries _ (mkFrame w [] [])) as [f1 r] eqn:Hbody.
  destruct r as [offset | e | msg |]; [| | |exact I].
  - destruct (Hfinal _ _ _ _ None Hbody) as (f2 & -> & H). exact H.
  - destruct (Hfinal _ _ _ _ (Some e) Hbody) as (f2 & -> & H). exact H.
  - destruct (Hfinal _ _ _ _ None Hbody) as (f2 & -> & H). exact H.
Qed.

End GuestPins.

(** *** What a written map looks like in guest memory *)

Module GuestLayout.
Import Guest GuestFacts.

(** The two words of a block header and the six words of a map header. *)
Lemma allocated_id_word (w : World) (size id : Z) :
  0 <= heapTop w -> 0 <= id < 2 ^ 32 ->
  heapTop w + 8 + size <= memSize w -> 0 <= size ->
  read32 (allocated w size id) (heapTop w) = Some id.
Proof.
  intros Ht Hid Hfit Hs. unfold allocated.
  set (w1 := storeBytes w (heapTop w + 8 - 8) (leEncode 4 id)).
  set (w2 := storeBytes w1 (heapTop w + 8 - 4) (leEncode 4 size)).
  set (w3 := storeBytes w2 (heapTop w + 8) (repeat 0 (Z.to_nat size))).
  rewrite (same_memory_read32 w3) by reflexivity.
  unfold w3. rewrite read32_storeBytes_other by lia.
  unfold w2. rewrite read32_storeBytes_other by (rewrite length_leEncode; lia).
  unfold w1. replace (heapTop w + 8 - 8) with (heapTop w) by lia.
  apply read32_storeBytes_same; cbn; lia.
Qed.

Lemma headerStored_words (w : World) (off v0 v4 v8 v12 v16 v20 : Z) :
  0 <= off -> off + 24 <= memSize w ->
  0 <= v0 < 2 ^ 32 -> 0 <= v4 < 2 ^ 32 -> 0 <= v8 < 2 ^ 32 ->
  0 <= v12 < 2 ^ 32 -> 0 <= v16 < 2 ^ 32 -> 0 <= v20 < 2 ^ 32 ->
  let w' := headerStored w off v0 v4 v8 v12 v16 v20 in
  read32 w' off = Some v0 /\
  read32 w' (off + 4) = Some v4 /\
  read32 w' (off + 8) = Some v8 /\
  read32 w' (off + 12) = Some v12 /\
  read32 w' (off + 16) = Some v16 /\
  read32 w' (off + 20) = Some v20.
Proof.
  intros H0' Hfit R0 R4 R8 R12 R16 R20 w'. unfold w', headerStored.
  repeat split;
    rewrite ?read32_storeBytes_other by (rewrite length_leEncode; lia);
    apply read32_storeBytes_same; cbn [memSize storeBytes]; lia.
Qed.

Section Written.
Variable tc : TextCodec.
Local Open Scope go_scope.

Variables (kt vt : string) (entries : list (HostValue * HostValue)).
Variables (b e msz : Z) (c : capacities).
Hypothesis G : geometry tc kt vt entries b e msz c.

Let es := slotSize kt vt.
Let vo := getSizeForOffset kt.
Let bC := bucketsCapacity c.
Let eC := entriesCapacity c.
Let mask := bucketsMask c.
Let n := Z.of_nat (List.length entries).

(** *** What [writeMap] leaves alone *)

(** Allocation and pinning in the set-up do not touch the guest memory
    below the heap top, and do not lower the heap top. *)
Definition keepsBelow (f f' : frame World) : Prop :=
  heapTop (world f) <= heapTop (world f') /\
  agreeOn (fun x => x < heapTop (world f)) (world f) (world f').

Lemma keepsBelow_refl f : keepsBelow f f.
Proof. split; [lia | apply agreeOn_refl]. Qed.

Lemma keepsBelow_trans f1 f2 f3 :
  keepsBelow f1 f2 -> keepsBelow f2 f3 -> keepsBelow f1 f3.
Proof.
  intros [H1 A1] [H2 A2]. split; [lia|].
  apply agreeOn_trans with (w2 := world f2); [exact A1|].
  eapply agreeOn_weaken; [|exact A2]. cbv beta. intros; lia.
Qed.

Lemma keepsBelow_allocate size id (f f' : frame World) r :
  allocate (adapter := adapter tc) size id f = (f', r) -> keepsBelow f f'.
Proof.
  unfold allocate.
  change (allocateWasmMemory (world f) size id) with (alloc (world f) size id).
  unfold alloc, allocHeaderSize.
  destruct ((0 <=? size) && (heapTop (world f) + 8 + size <=? memSize (world f)))
    eqn:Hfit; intros [= <- _];
    [|split; [cbn; lia | apply agreeOn_refl]].
  apply andb_prop in Hfit as [Hs _]. apply Z.leb_le in Hs.
  split; [cbn; lia | exact (allocated_agree (world f) size id)].
Qed.

Lemma keepsBelow_pin o ptr :
  always keepsBelow
    (bindM (callErr o (pin (adapter := adapter tc) ptr))
       (fun _ => appendPin ptr)).
Proof.
  intros f f' r. unfold bindM, callErr, pin, appendPin.
  change (pinWasmMemory (world f) ptr) with (pinObj (world f) ptr).
  unfold pinObj. destruct (isPinned (world f) ptr).
  - intros H.
    assert (f' = logCall (CallPin ptr) (setWorld f (world f))) as ->
      by (destruct o; now injection H as <- _).
    split; [cbn; lia | apply agreeOn_refl].
  - intros [= <- _]. split; [cbn; lia|]. split; [reflexivity|]. reflexivity.
Qed.

Lemma writeMapSetup_keepsBelow typ mapLen :
  always keepsBelow
    (writeMapSetup (adapter := adapter tc) typ mapLen).
Proof.
  apply always_writeMapSetup;
    first [ exact keepsBelow_refl | exact keepsBelow_trans
          | exact keepsBelow_allocate | exact keepsBelow_pin ].
Qed.

(** One iteration writes into the buckets buffer, into the entries
    buffer from its own entry on, and above the two buffers: the memory
    below the buckets buffer and the entries written before stay as they
    are. *)
Lemma writeEntry_untouched (done rest : list (HostValue * HostValue))
    (k v : HostValue) (f f' : frame World) :
  entries = done ++ (k, v) :: rest ->
  loopInv tc kt vt b e msz c done f ->
  writeEntry (adapter := adapter tc) (layoutOf kt vt b e c) entries
    (Z.of_nat (List.length done)) k f = (f', Ok tt) ->
  agreeOn (fun x => x < b \/ e - 8 <= x < e + es * Z.of_nat (List.length done))
          (world f) (world f').
Proof.
  intros Hent Inv Hrun.
  pose proof G as [Gpow Gb Ge Gcap Gfit Gmax Gks Gvs Ges Gsmall Gtyped].
  pose proof (bC_bounds tc kt vt entries b e msz c G) as GbC.
  pose proof (es_pos tc kt vt entries b e msz c G) as Gpos.
  fold es eC bC vo in Gb, Ge, Gcap, Gfit, GbC, Gpos, Gks, Gvs, Ges.
  remember (Z.of_nat (List.length done)) as i eqn:Hi_def.
  assert (Hi : 0 <= i < eC).
  { rewrite Hent, length_app in Gcap. cbn in Gcap. lia. }
  destruct (slot_bounds tc kt vt entries b e msz c G i Hi) as [Hlo Hhi].
  fold es eC in Hlo, Hhi.
  assert (Hsp : stringSpace tc kt vt entries =
                stringSpace tc kt vt done + entrySpace tc kt vt (k, v) +
                stringSpace tc kt vt rest).
  { rewrite Hent, stringSpace_app. cbn. lia. }
  unfold entrySpace in Hsp. cbn [fst snd] in Hsp.
  pose proof (stringSpace_nonneg tc kt vt done) as Hnn1.
  pose proof (stringSpace_nonneg tc kt vt rest) as Hnn2.
  pose proof (fieldSpace_nonneg tc kt k) as Hnn3.
  pose proof (fieldSpace_nonneg tc vt v) as Hnn4.
  assert (Hty : hasType tc kt k /\ hasType tc vt v).
  { destruct Gtyped as [Hall _]. rewrite Hent in Hall.
    apply Forall_app in Hall as [_ Hall]. now apply Forall_inv in Hall. }
  assert (Hlen : Z.of_nat (List.length done) <= eC) by lia.
  pose proof (headAfter_range tc kt vt entries b e msz c G done
                (bucketOf tc mask k) Hlen) as Hprev.
  pose proof (bucketOf_range tc kt vt entries b e msz c G k) as Hbk.
  fold mask es bC in Hprev, Hbk.
  destruct Inv as [Isize Itop Idata Iheads Inodup Ipinned Ibelow].
  fold es eC in Itop.
  remember (e + es * i) as ei eqn:Hei.
  remember (heapTop (world f)) as top0 eqn:Htop0.
  (* the key *)
  destruct (writeEntryKey_ok tc (layoutOf kt vt b e c) f ei k) as (f1 & ptr1 & HA & Hp1 & FA);
    try (cbn [keyType layoutOf]; norm_pow; lia);
    [exact (proj1 Hty)|].
  cbn [keyType layoutOf] in FA.
  destruct FA as [FAsize FApin FAtop FAptr FAframe FAdec].
  rewrite <- Htop0 in FAtop, FAptr, FAframe.
  destruct (pinIfAllocated_ok tc f1 ptr1) as (f2 & HB & FBmem & FBpins & FBpinned).
  { destruct FAptr as [[Hz _] | [Hnz _]]; [now left | right].
    rewrite FApin. intros Hin. apply Ibelow in Hin. lia. }
  destruct FBmem as (FBsize & FBbytes & FBtop).
  (* the value *)
  assert (HC : MapIndex entries k = Some v).
  { rewrite Hent. apply (MapIndex_found tc kt vt). now rewrite <- Hent. }
  destruct (encodeField_ok tc f2 vt (ei + vo) v (proj2 Hty))
    with (fmt := "failed to write map entry value: %w"%string)
    as (f3 & ptr2 & HD & Hp3 & FD);
    try (norm_pow; lia).
  destruct FD as [FDsize FDpin FDtop FDptr FDframe FDdec].
  destruct (pinIfAllocated_ok tc f3 ptr2) as (f4 & HE & FEmem & FEpins & FEpinned).
  { destruct FDptr as [[Hz _] | [Hnz _]]; [now left | right].
    rewrite FDpin, FBpinned. intros Hin.
    apply in_app_or in Hin as [Hin | Hin].
    - unfold nonZero in Hin. destruct (Z.eqb_spec ptr1 0); [contradiction|].
      destruct Hin as [Heq | []].
      destruct FAptr as [[? ?] | [? ?]]; lia.
    - rewrite FApin in Hin. apply Ibelow in Hin. lia. }
  destruct FEmem as (FEsize & FEbytes & FEtop).
  (* the link *)
  assert (Hframe04 : agreeOn (fun x => x < ei) (world f) (world f4)).
  { apply agreeOn_trans with (w2 := world f1).
    { eapply agreeOn_weaken; [|exact FAframe]. cbn beta. intros x Hx. lia. }
    apply agreeOn_trans with (w2 := world f2).
    { apply sameMemory_agree. repeat split; assumption. }
    apply agreeOn_trans with (w2 := world f3).
    { eapply agreeOn_weaken; [|exact FDframe]. cbn beta. intros x Hx. lia. }
    apply sameMemory_agree. repeat split; assumption. }
  assert (Hread : read32 (world f4) (bucketPtrBaseOf (layoutOf kt vt b e c) (keyHash tc k)) =
                  Some (headAfter tc mask e es done (bucketOf tc mask k))).
  { rewrite (bucketPtrBaseOf_eq tc kt vt entries b e msz c G).
    fold mask.
    rewrite (read32_agree _ _ _ _ Hframe04) by (cbv beta; intros; lia).
    now apply Iheads. }
  assert (Hnext : U32.add ei (taggedNextOffset (layoutOf kt vt b e c)) = ei + nextSlot kt vt).
  { cbn [taggedNextOffset layoutOf]. unfold U32.add.
    apply wrap_small. norm_pow. lia. }
  destruct (linkEntry_ok tc (layoutOf kt vt b e c) f4 ei (keyHash tc k) _ Hread)
    as (f5 & HF & Hp5 & Hw5);
    try (rewrite Hnext; lia).
  rewrite Hnext in Hw5.
  rewrite (bucketPtrBaseOf_eq tc kt vt entries b e msz c G) in Hw5.
  fold mask in Hw5.
  (* the run *)
  assert (Hrun5 : writeEntry (adapter := adapter tc) (layoutOf kt vt b e c) entries i k f = (f5, Ok tt)).
  { unfold writeEntry.
    rewrite (entryOffsetOf_eq tc kt vt entries b e msz c G i Hi).
    fold es. rewrite <- Hei.
    rewrite (bindM_step _ _ _ _ _ HA). cbv beta iota.
    rewrite (bindM_step _ _ _ _ _ HB).
    rewrite HC, bindM_liftR_Ok.
    assert (U32.add ei (valueOffset (layoutOf kt vt b e c)) = ei + vo) as ->.
    { cbn [valueOffset layoutOf]. fold vo. unfold U32.add.
      apply wrap_small. norm_pow. lia. }
    rewrite (bindM_step _ _ _ _ _ HD).
    rewrite (bindM_step _ _ _ _ _ HE).
    exact HF. }
  rewrite Hrun5 in Hrun. injection Hrun as <-.
  apply agreeOn_trans with (w2 := world f4).
  { eapply agreeOn_weaken; [|exact Hframe04]. cbv beta. intros; lia. }
  rewrite Hw5.
  apply agreeOn_trans
    with (w2 := storeBytes (world f4) (ei + nextSlot kt vt)
                  (leEncode 4 (headAfter tc mask e es done (bucketOf tc mask k)))).
  - eapply agreeOn_weaken; [|apply storeBytes_agree]. cbn beta.
    intros x Hx. lia.
  - eapply agreeOn_weaken; [|apply storeBytes_agree]. cbn beta.
    rewrite length_leEncode. intros x Hx. lia.
Qed.

Lemma writeEntries_untouched (todo : list (HostValue * HostValue)) :
  forall (done rest : list (HostValue * HostValue)) (f f' : frame World),
    entries = done ++ todo ++ rest ->
    loopInv tc kt vt b e msz c done f ->
    writeEntries (adapter := adapter tc) (layoutOf kt vt b e c) entries
      (Z.of_nat (List.length done)) (MapKeys todo) f = (f', Ok tt) ->
    agreeOn (fun x => x < b \/ e - 8 <= x < e + es * Z.of_nat (List.length done))
            (world f) (world f').
Proof.
  pose proof (es_pos tc kt vt entries b e msz c G) as Gpos. fold es in Gpos.
  induction todo as [|[k v] todo IH]; intros done rest f f' Hent Inv Hrun.
  - cbn in Hrun. injection Hrun as <-. apply agreeOn_refl.
  - destruct (writeEntry_spec tc kt vt entries b e msz c G done (todo ++ rest)
                k v f Hent Inv) as (f1 & Hrun1 & Inv1 & _).
    cbn [MapKeys map writeEntries fst] in Hrun.
    rewrite (bindM_step _ _ _ _ _ Hrun1) in Hrun.
    apply agreeOn_trans with (w2 := world f1).
    + exact (writeEntry_untouched done (todo ++ rest) k v f f1 Hent Inv Hrun1).
    + eapply agreeOn_weaken; [|apply (IH (done ++ [(k, v)]) rest f1 f')].
      * cbv beta. intros x Hx. rewrite length_app, Nat2Z.inj_add.
        cbn [List.length Z.of_nat]. nia.
      * rewrite Hent, <- app_assoc. reflexivity.
      * exact Inv1.
      * rewrite length_app, Nat2Z.inj_add. exact Hrun.
Qed.

(** The tagged-next words the loop leaves behind, when the word lies
    inside its entry: the word of each entry still holds the head its
    bucket had when the entry was inserted. *)
Lemma writeEntries_chain (todo : list (HostValue * HostValue)) :
  forall (done rest : list (HostValue * HostValue)) (f f' : frame World),
    entries = done ++ todo ++ rest ->
    loopInv tc kt vt b e msz c done f ->
    writeEntries (adapter := adapter tc) (layoutOf kt vt b e c) entries
      (Z.of_nat (List.length done)) (MapKeys todo) f = (f', Ok tt) ->
    nextSlot kt vt + 4 <= es ->
    forall j k v, nth_error todo j = Some (k, v) ->
      read32 (world f')
        (e + es * (Z.of_nat (List.length done) + Z.of_nat j) + nextSlot kt vt) =
      Some (headAfter tc mask e es (done ++ firstn j todo) (bucketOf tc mask k)).
Proof.
  pose proof G as [Gpow Gb Ge Gcap Gfit Gmax Gks Gvs Ges Gsmall Gtyped].
  pose proof (es_pos tc kt vt entries b e msz c G) as Gpos.
  fold es vo in Gks, Gvs, Ges, Gpos.
  induction todo as [|[k0 v0] todo IH];
    intros done rest f f' Hent Inv Hrun Hfits j k v Hnth.
  - destruct j; discriminate Hnth.
  - destruct (writeEntry_spec tc kt vt entries b e msz c G done (todo ++ rest)
                k0 v0 f Hent Inv) as (f1 & Hrun1 & Inv1 & Hnext).
    fold es mask in Hnext.
    cbn [MapKeys map writeEntries fst] in Hrun.
    rewrite (bindM_step _ _ _ _ _ Hrun1) in Hrun.
    assert (Hent1 : entries = (done ++ [(k0, v0)]) ++ todo ++ rest)
      by (rewrite Hent, <- app_assoc; reflexivity).
    assert (Hrun' : writeEntries (adapter := adapter tc) (layoutOf kt vt b e c)
                      entries (Z.of_nat (List.length (done ++ [(k0, v0)])))
                      (MapKeys todo) f1 = (f', Ok tt))
      by (rewrite length_app, Nat2Z.inj_add; exact Hrun).
    destruct j as [|j].
    + injection Hnth as <- <-. cbn [firstn]. rewrite app_nil_r, Z.add_0_r.
      rewrite (read32_agree _ _ _ _
                 (writeEntries_untouched todo (done ++ [(k0, v0)]) rest f1 f'
                    Hent1 Inv1 Hrun')).
      * exact Hnext.
      * cbv beta. intros x Hx. right.
        rewrite length_app, Nat2Z.inj_add. cbn [List.length Z.of_nat]. nia.
    + cbn [nth_error] in Hnth.
      pose proof (IH (done ++ [(k0, v0)]) rest f1 f' Hent1 Inv1 Hrun' Hfits
                    j k v Hnth) as Hj.
      rewrite length_app, Nat2Z.inj_add in Hj. cbn [List.length Z.of_nat] in Hj.
      rewrite <- app_assoc in Hj. cbn [app] in Hj. cbn [firstn].
      replace (Z.of_nat (List.length done) + Z.of_nat (S j))
        with (Z.of_nat (List.length done) + 1 + Z.of_nat j) by lia.
      exact Hj.
Qed.


(** The guest after a successful [writeMap]: where the header lies and
    what it holds, and what the two array buffers hold. *)
Lemma writeMap_written_core (typ : string) (w : World) (rk rv : rtype) (id : Z) :
  mapSubtypes typ = (kt, vt) ->
  typeDefinitionId typ = inl id -> 0 <= id < 2 ^ 32 ->
  determineCapacities n = Some c ->
  memSize w = msz -> b = heapTop w + 8 ->
  (forall p, In p (pinned w) -> p <= heapTop w) ->
  exists f off,
    writeMap (adapter := adapter tc) w typ (VMap rk rv entries) =
      Returned f off None /\
    off = e + es * eC + stringSpace tc kt vt entries + 8 /\
    heapTop (world f) = off + 24 /\
    memSize (world f) = msz /\
    (read32 (world f) (off - 8) = Some id /\
     read32 (world f) (off - 4) = Some 24) /\
    (read32 (world f) off = Some b /\
     read32 (world f) (off + 4) = Some mask /\
     read32 (world f) (off + 8) = Some e /\
     read32 (world f) (off + 12) = Some eC /\
     read32 (world f) (off + 16) = Some n /\
     read32 (world f) (off + 20) = Some n) /\
    read32 (world f) (e - 4) = Some (es * eC) /\
    (forall j k v, nth_error entries j = Some (k, v) ->
       loadField tc (world f) kt (e + es * Z.of_nat j) = inl k /\
       loadField tc (world f) vt (e + es * Z.of_nat j + vo) = inl v) /\
    (forall x, 0 <= x < bC ->
       read32 (world f) (b + 4 * x) = Some (headAfter tc mask e es entries x)) /\
    agreeOn (fun x => x < heapTop w) w (world f) /\
    (nextSlot kt vt + 4 <= es ->
     forall j k v, nth_error entries j = Some (k, v) ->
       read32 (world f) (e + es * Z.of_nat j + nextSlot kt vt) =
       Some (headAfter tc mask e es (firstn j entries) (bucketOf tc mask k))).
Proof.
  intros Hsub Hid Hidr Hcaps Hsize Hb Hpinned.
  pose proof G as [Gpow Gb Ge Gcap Gfit Gmax Gks Gvs Ges Gsmall Gtyped].
  pose proof (bC_bounds tc kt vt entries b e msz c G) as GbC.
  pose proof (es_pos tc kt vt entries b e msz c G) as Gpos.
  pose proof (stringSpace_nonneg tc kt vt entries) as Hnn.
  destruct Gpow as (p & Hp & HbC & Hmask).
  fold es eC bC mask n in Gb, Ge, Gcap, Gfit, GbC, Gpos, HbC, Hmask |- *.
  assert (HesC : 0 <= es * eC < 2 ^ 32) by (norm_pow; nia).
  assert (HeCr : 0 <= eC < 2 ^ 32) by (norm_pow; nia).
  assert (Hn : U32.wrap n = n) by (apply wrap_small; unfold n; norm_pow; lia).
  destruct (writeMapSetup_spec tc kt vt entries b e msz c G typ w n
              Hsub Hcaps Hsize Hb Hpinned) as (fs & Hsetup & Inv0).
  destruct (writeEntries_spec tc kt vt entries b e msz c G entries [] [] fs)
    as (fn & Hloop & Invn).
  { now rewrite app_nil_r. }
  { exact Inv0. }
  cbn [app List.length Z.of_nat] in Hloop, Invn.
  destruct Invn as [Isize Itop Idata Iheads Inodup Ipinned Ibelow].
  fold es eC bC mask vo n in Itop, Idata, Iheads.
  remember (heapTop (world fn)) as top eqn:Htop.
  set (off := top + 8).
  set (wa := allocated (world fn) headerSize id).
  set (wh := headerStored wa off b mask e eC n n).
  set (fh := setWorld (setWorld fn wa) wh).
  assert (H0e : e <= e + es * eC) by nia.
  assert (Hbody : writeMapBody (adapter := adapter tc) typ entries n
                    (mkFrame w [] []) = (fh, Ok off)).
  { unfold writeMapBody. rewrite (bindM_step _ _ _ _ _ Hsetup). cbv beta iota.
    rewrite (bindM_step _ _ _ _ _ Hloop).
    change (GetTypeDefinitionId typ) with (typeDefinitionId typ).
    rewrite Hid. cbn [check]. rewrite bindM_liftR_Ok.
    rewrite (bindM_step _ _ _ _ _
               (allocate_plain_step tc fn headerSize id
                  ltac:(unfold headerSize; lia)
                  ltac:(unfold headerSize; lia))).
    rewrite <- Htop. fold off. fold wa.
    rewrite (bindM_step _ _ _ _ _
               (writeHeader_spec tc kt vt b e c (setWorld fn wa) off n
                  ltac:(unfold off; lia)
                  ltac:(cbn; unfold off; lia)
                  ltac:(unfold off; norm_pow; lia))).
    reflexivity. }
  destruct (unpinAll_guest tc (pins fh) fh) as (f2 & Hunpin & Hmem).
  { exact Inodup. }
  { intros q Hq. cbn. now apply Ipinned. }
  destruct Hmem as (Hs2 & Hb2 & Ht2). cbn [world fh setWorld] in Hs2, Hb2, Ht2.
  assert (Hsame : forall a, read32 (world f2) a = read32 wh a).
  { intros a. apply same_memory_read32; [assumption|].
    intros x. now rewrite Hb2. }
  assert (Hwa : memSize wa = msz) by (unfold wa; cbn; congruence).
  assert (Hbelow : agreeOn (fun x => x < top) (world fn) (world f2)).
  { apply agreeOn_trans with (w2 := wa).
    { rewrite Htop. apply allocated_agree. }
    apply agreeOn_trans with (w2 := wh).
    { eapply agreeOn_weaken; [|apply (headerStored_agree kt vt e c)]. cbv beta.
      unfold off. intros x Hx. lia. }
    split; [assumption|]. intros x _. now rewrite Hb2. }
  exists f2, off.
  split; [unfold writeMap; fold n; rewrite Hn, Hbody, Hunpin; reflexivity|].
  split; [unfold off; lia|].
  split; [rewrite Ht2; unfold wh, headerStored, wa, allocated, headerSize; cbn;
          unfold off; lia|].
  split; [rewrite Hs2; unfold wh, headerStored; cbn; exact Hwa|].
  split.
  { rewrite !Hsame. unfold wh.
    rewrite !(read32_agree _ _ _ _ (headerStored_agree kt vt e c wa off _ _ _ _ _ _))
      by (cbv beta; intros; lia).
    unfold wa, off. rewrite Htop. split.
    - replace (heapTop (world fn) + 8 - 8) with (heapTop (world fn)) by lia.
      apply allocated_id_word; unfold headerSize; lia.
    - replace (heapTop (world fn) + 8 - 4) with (heapTop (world fn) + 4) by lia.
      apply allocated_length_word; unfold headerSize; norm_pow; lia. }
  split.
  { rewrite !Hsame.
    apply headerStored_words; try (unfold off; norm_pow; lia);
      unfold n; norm_pow; lia. }
  assert (Hag : agreeOn (protected kt vt e c n top) (world fn) (world f2)).
  { eapply agreeOn_weaken; [|exact Hbelow]. cbv beta.
    unfold protected. fold es eC. intros x Hx. nia. }
  destruct (Idata (world f2) Hag) as [Hlenword Hdec].
  split; [exact Hlenword|]. split; [exact Hdec|].
  split.
  { intros x Hx. rewrite (read32_agree _ _ _ _ Hbelow) by (cbv beta; intros; nia).
    now apply Iheads. }
  split.
  { destruct (writeMapSetup_keepsBelow typ n _ _ _ Hsetup) as [_ Hag0].
    cbn [world] in Hag0.
    apply agreeOn_trans with (w2 := world fs); [exact Hag0|].
    apply agreeOn_trans with (w2 := world fn).
    { eapply agreeOn_weaken;
        [|exact (writeEntries_untouched entries [] [] fs fn
                   ltac:(now rewrite app_nil_r) Inv0 Hloop)].
      cbv beta. intros; lia. }
    eapply agreeOn_weaken; [|exact Hbelow]. cbv beta. intros; nia. }
  intros Hfits j k v Hnth.
  assert (Hj : (j < List.length entries)%nat)
    by (apply nth_error_Some; congruence).
  destruct (slot_bounds tc kt vt entries b e msz c G (Z.of_nat j)
              ltac:(fold eC; unfold n in Gcap; lia)) as [Hlo Hhi].
  fold es eC in Hlo, Hhi.
  rewrite (read32_agree _ _ _ _ Hbelow) by (cbv beta; intros; nia).
  exact (writeEntries_chain entries [] [] fs fn ltac:(now rewrite app_nil_r)
           Inv0 Hloop Hfits j k v Hnth).
Qed.

End Written.

(** X16.  On the reference guest, under the conditions of the round
    trip, [writeMap] lays the map out as three blocks above the old heap
    top: the buckets buffer, the entries buffer and, last, the 24-byte
    header at the returned offset, carrying the map's type id.  The header
    holds the buckets pointer, the buckets mask, the entries pointer, the
    entries capacity and, in both the entries-offset and the entries-count
    word, the number of elements; the entries buffer is [entrySize *
    entriesCapacity] bytes long; and the call takes exactly [mapSpace]
    bytes of guest memory. *)
Theorem writeMap_header_layout (tc : TextCodec) (typ kt vt : string)
    (rk rv : rtype) (entries : list (HostValue * HostValue)) (w : World) :
  In kt supportedTypes -> In vt supportedTypes ->
  mapSubtypes typ = (kt, vt) ->
  typedEntries tc kt vt entries ->
  Z.of_nat (List.length entries) <= 2 ^ 28 ->
  0 <= heapTop w -> memSize w <= 2 ^ 32 -> pinsBelowTop w ->
  heapTop w + mapSpace tc kt vt entries <= memSize w ->
  exists f off c,
    writeMap (adapter := adapter tc) w typ (VMap rk rv entries) =
      Returned f off None /\
    determineCapacities (Z.of_nat (List.length entries)) = Some c /\
    let bucketsBuffer := heapTop w + 8 in
    let entriesBuffer := bucketsBuffer + 4 * bucketsCapacity c + 8 in
    heapTop (world f) = heapTop w + mapSpace tc kt vt entries /\
    off + headerSize = heapTop (world f) /\
    read32 (world f) (off - 8) = Some mapTypeId /\
    read32 (world f) (off - 4) = Some headerSize /\
    read32 (world f) off = Some bucketsBuffer /\
    read32 (world f) (off + 4) = Some (bucketsMask c) /\
    read32 (world f) (off + 8) = Some entriesBuffer /\
    read32 (world f) (off + 12) = Some (entriesCapacity c) /\
    read32 (world f) (off + 16) = Some (Z.of_nat (List.length entries)) /\
    read32 (world f) (off + 20) = Some (Z.of_nat (List.length entries)) /\
    read32 (world f) (entriesBuffer - 4) =
      Some (slotSize kt vt * entriesCapacity c).
Proof.
  intros Hk Hv Hsub Hty Hn Htop Hmax Hpins Hspace.
  destruct (capacities_for (Z.of_nat (List.length entries)))
    as (c & Hc & Hpow & Hcap & Hpos); [lia|].
  pose proof (geometry_of tc kt vt entries w c Hk Hv Hty Hc Hpow Hcap
                Htop Hmax Hspace) as G.
  destruct (writeMap_written_core tc kt vt entries _ _ _ c G typ w rk rv
              mapTypeId Hsub (typeId_supported typ kt vt Hsub Hk)
              ltac:(unfold mapTypeId; norm_pow; lia) Hc eq_refl eq_refl Hpins)
    as (f & off & Hrun & Hoff & Htop' & _ & [Hid Hlen] & Hwords & Hbuf & _).
  destruct Hwords as (R0 & R4 & R8 & R12 & R16 & R20).
  exists f, off, c. cbv zeta. unfold headerSize.
  rewrite (mapSpace_eq tc kt vt entries c Hc).
  repeat split; try assumption; lia.
Qed.

(** X17.  On the reference guest, under the conditions of the round
    trip, the written entries lie in the entries buffer in the order
    [MapKeys] gave them, entry [j] at [entrySize * j] with its key at the
    start and its value at the value offset; and the head of every bucket
    is 0 when no key falls into the bucket and otherwise the offset of the
    last entry whose key does. *)
Theorem writeMap_entries_layout (tc : TextCodec) (typ kt vt : string)
    (rk rv : rtype) (entries : list (HostValue * HostValue)) (w : World) :
  In kt supportedTypes -> In vt supportedTypes ->
  mapSubtypes typ = (kt, vt) ->
  typedEntries tc kt vt entries ->
  Z.of_nat (List.length entries) <= 2 ^ 28 ->
  0 <= heapTop w -> memSize w <= 2 ^ 32 -> pinsBelowTop w ->
  heapTop w + mapSpace tc kt vt entries <= memSize w ->
  exists f off c,
    writeMap (adapter := adapter tc) w typ (VMap rk rv entries) =
      Returned f off None /\
    determineCapacities (Z.of_nat (List.length entries)) = Some c /\
    let bucketsBuffer := heapTop w + 8 in
    let entriesBuffer := bucketsBuffer + 4 * bucketsCapacity c + 8 in
    (forall j k v, nth_error entries j = Some (k, v) ->
       let entryOffset := entriesBuffer + slotSize kt vt * Z.of_nat j in
       loadField tc (world f) kt entryOffset = inl k /\
       loadField tc (world f) vt (entryOffset + getSizeForOffset kt) = inl v) /\
    (forall x, 0 <= x < bucketsCapacity c ->
       exists head,
         read32 (world f) (bucketsBuffer + bucketSize * x) = Some head /\
         lastColliding tc (bucketsMask c) entriesBuffer (slotSize kt vt)
           entries x head).
Proof.
  intros Hk Hv Hsub Hty Hn Htop Hmax Hpins Hspace.
  destruct (capacities_for (Z.of_nat (List.length entries)))
    as (c & Hc & Hpow & Hcap & Hpos); [lia|].
  pose proof (geometry_of tc kt vt entries w c Hk Hv Hty Hc Hpow Hcap
                Htop Hmax Hspace) as G.
  destruct (writeMap_written_core tc kt vt entries _ _ _ c G typ w rk rv
              mapTypeId Hsub (typeId_supported typ kt vt Hsub Hk)
              ltac:(unfold mapTypeId; norm_pow; lia) Hc eq_refl eq_refl Hpins)
    as (f & off & Hrun & _ & _ & _ & _ & _ & _ & Hdec & Hheads & _).
  exists f, off, c. cbv zeta. unfold bucketSize.
  split; [exact Hrun|]. split; [exact Hc|]. split; [exact Hdec|].
  intros x Hx. eexists. split; [apply Hheads; exact Hx | apply headAfter_spec].
Qed.
(** For the supported types, the tagged-next word lies inside the entry
    as soon as the key and the value take more than 4 bytes together. *)
Lemma chain_fits (kt vt : string) :
  In kt supportedTypes -> In vt supportedTypes ->
  4 < sizeOfType kt + sizeOfType vt ->
  nextSlot kt vt + 4 <= slotSize kt vt.
Proof.
  intros Hk Hv. cbn in Hk, Hv.
  repeat (destruct Hk as [<- | Hk]; [|]); try contradiction;
    repeat (destruct Hv as [<- | Hv]; [|]); try contradiction;
    vm_compute; intros H H'; first [discriminate H | discriminate H'].
Qed.

(** X19.  On the reference guest, under the conditions of the round
    trip, when the key and the value take more than 4 bytes together (so
    that the tagged-next word lies inside its entry), the map [writeMap]
    returns holds the chains of its buckets: the tagged-next word of
    every entry is 0 when no entry written before it falls into its
    bucket and otherwise the offset of the last such entry, and the head
    of every bucket is 0 when the bucket is empty and otherwise the offset
    of the last entry in it. *)
Theorem writeMap_chain_layout (tc : TextCodec) (typ kt vt : string)
    (rk rv : rtype) (entries : list (HostValue * HostValue)) (w : World) :
  In kt supportedTypes -> In vt supportedTypes ->
  mapSubtypes typ = (kt, vt) ->
  typedEntries tc kt vt entries ->
  Z.of_nat (List.length entries) <= 2 ^ 28 ->
  0 <= heapTop w -> memSize w <= 2 ^ 32 -> pinsBelowTop w ->
  heapTop w + mapSpace tc kt vt entries <= memSize w ->
  4 < sizeOfType kt + sizeOfType vt ->
  exists f off c,
    writeMap (adapter := adapter tc) w typ (VMap rk rv entries) =
      Returned f off None /\
    determineCapacities (Z.of_nat (List.length entries)) = Some c /\
    let bucketsBuffer := heapTop w + 8 in
    let entriesBuffer := bucketsBuffer + 4 * bucketsCapacity c + 8 in
    (forall j k v, nth_error entries j = Some (k, v) ->
       let entryOffset := entriesBuffer + slotSize kt vt * Z.of_nat j in
       exists next,
         read32 (world f) (entryOffset + nextSlot kt vt) = Some next /\
         lastColliding tc (bucketsMask c) entriesBuffer (slotSize kt vt)
           (firstn j entries) (bucketOf tc (bucketsMask c) k) next) /\
    (forall x, 0 <= x < bucketsCapacity c ->
       exists head,
         read32 (world f) (bucketsBuffer + bucketSize * x) = Some head /\
         lastColliding tc (bucketsMask c) entriesBuffer (slotSize kt vt)
           entries x head).
Proof.
  intros Hk Hv Hsub Hty Hn Htop Hmax Hpins Hspace Hbig.
  destruct (capacities_for (Z.of_nat (List.length entries)))
    as (c & Hc & Hpow & Hcap & Hpos); [lia|].
  pose proof (geometry_of tc kt vt entries w c Hk Hv Hty Hc Hpow Hcap
                Htop Hmax Hspace) as G.
  destruct (writeMap_written_core tc kt vt entries _ _ _ c G typ w rk rv
              mapTypeId Hsub (typeId_supported typ kt vt Hsub Hk)
              ltac:(unfold mapTypeId; norm_pow; lia) Hc eq_refl eq_refl Hpins)
    as (f & off & Hrun & _ & _ & _ & _ & _ & _ & _ & Hheads & _ & Hchain).
  specialize (Hchain (chain_fits kt vt Hk Hv Hbig)).
  exists f, off, c. cbv zeta. unfold bucketSize.
  split; [exact Hrun|]. split; [exact Hc|]. split.
  - intros j k v Hnth. eexists.
    split; [apply (Hchain j k v Hnth) | apply headAfter_spec].
  - intros x Hx. eexists.
    split; [apply Hheads; exact Hx | apply headAfter_spec].
Qed.

(** X18.  On the reference guest, under the conditions of the round
    trip, [writeMap] writes only above the old heap top: every byte of
    guest memory below it is after the call what it was before, the
    memory size is unchanged, and the header it returns lies above the
    old heap top. *)
Theorem writeMap_leaves_old_memory (tc : TextCodec) (typ kt vt : string)
    (rk rv : rtype) (entries : list (HostValue * HostValue)) (w : World) :
  In kt supportedTypes -> In vt supportedTypes ->
  mapSubtypes typ = (kt, vt) ->
  typedEntries tc kt vt entries ->
  Z.of_nat (List.length entries) <= 2 ^ 28 ->
  0 <= heapTop w -> memSize w <= 2 ^ 32 -> pinsBelowTop w ->
  heapTop w + mapSpace tc kt vt entries <= memSize w ->
  exists f off,
    writeMap (adapter := adapter tc) w typ (VMap rk rv entries) =
      Returned f off None /\
    heapTop w < off /\
    memSize (world f) = memSize w /\
    forall x, x < heapTop w -> memByte (world f) x = memByte w x.
Proof.
  intros Hk Hv Hsub Hty Hn Htop Hmax Hpins Hspace.
  destruct (capacities_for (Z.of_nat (List.length entries)))
    as (c & Hc & Hpow & Hcap & Hpos); [lia|].
  pose proof (geometry_of tc kt vt entries w c Hk Hv Hty Hc Hpow Hcap
                Htop Hmax Hspace) as G.
  destruct (writeMap_written_core tc kt vt entries _ _ _ c G typ w rk rv
              mapTypeId Hsub (typeId_supported typ kt vt Hsub Hk)
              ltac:(unfold mapTypeId; norm_pow; lia) Hc eq_refl eq_refl Hpins)
    as (f & off & Hrun & Hoff & _ & Hsize & _ & _ & _ & _ & _ & Hag & _).
  exists f, off. split; [exact Hrun|].
  pose proof (stringSpace_nonneg tc kt vt entries) as Hnn.
  pose proof (es_pos tc kt vt entries _ _ _ c G) as Hes.
  destruct Hpow as (p & Hp & HbC & _).
  assert (0 < 2 ^ p) by (apply pow2_pos; lia).
  split; [rewrite Hoff; nia|]. split; [exact Hsize|].
  intros x Hx. destruct Hag as [_ Hbytes]. now apply Hbytes.
Qed.

End GuestLayout.

(* ================================================================== *)
(** ** Further runs on the reference guest *)
(* ================================================================== *)

Module MoreExamples.
Import Guest GuestFacts GuestPins GuestLayout Examples.
Local Open Scope string_scope.

(** X1, at [2^28 + 1] elements. *)
Lemma entriesCapacity_wraps_to_zero_witness :
  exists c,
    determineCapacities 268435457 = Some c /\
    268435457 <= bucketsCapacity c /\
    entriesCapacity c = 0.
Proof. apply (entriesCapacity_wraps_to_zero 268435457). lia. Defined.

(** X2, at [2^31 + 1] elements. *)
Lemma writeMap_capacity_loop_diverges_witness :
  (forall fuel, growCapacities fuel 2147483649 initialCapacities = None) /\
  forall (W : Type) (A : Adapter W) (typ : string)
         (entries : list (HostValue * HostValue)) (f : frame W),
    writeMapBody typ entries 2147483649 f = (f, Diverge).
Proof. apply (writeMap_capacity_loop_diverges 2147483649). lia. Defined.

(** X3, at 17 elements: 32 buckets and 85 entry slots. *)
Lemma capacities_leave_room_witness :
  exists c,
    determineCapacities 17 = Some c /\
    17 <= entriesCapacity c /\
    bucketsCapacity c <= entriesCapacity c /\
    forall hashCode,
      0 <= U32.mul (U32.and hashCode (bucketsMask c)) bucketSize /\
      U32.mul (U32.and hashCode (bucketsMask c)) bucketSize + bucketSize <=
        U32.mul bucketSize (bucketsCapacity c).
Proof. apply (capacities_leave_room 17). lia. Defined.

(** X4, at a map from [u8] to [bool]: the entry is 8 bytes and the
    tagged-next offset is 8. *)
Lemma entry_fields_placement_witness :
  1 <= getSizeForOffset "u8" /\
  getSizeForOffset "u8" + 1 <=
    U32.add (getSizeForOffset "bool") (getSizeForOffset "u8") /\
  (4 < 1 + 1 ->
   U32.add (getSizeForOffset "bool") (getSizeForOffset "u8") + taggedNextSize
     <= entrySize 1 1) /\
  (1 + 1 <= 4 ->
   entrySize 1 1 = 8 /\
   U32.add (getSizeForOffset "bool") (getSizeForOffset "u8") = entrySize 1 1).
Proof.
  apply (entry_fields_placement "u8" "bool" 1 1).
  - left. reflexivity.
  - left. reflexivity.
  - split; intros H; discriminate H.
  - split; intros H; discriminate H.
Defined.

(** X5, at the guest of [flagMap] read with a value type the guest does
    not know. *)
Lemma readMap_type_resolution_error_witness :
  (forall e,
      getReflectedType (Adapter := exampleAdapter)
        (fst (GetMapSubtypes (Adapter := exampleAdapter) "Map<u32,f32>")) = inr e ->
      readMap (adapter := exampleAdapter) flagGuest "Map<u32,f32>" flagOffset =
        Err e) /\
  (forall rk e,
      getReflectedType (Adapter := exampleAdapter)
        (fst (GetMapSubtypes (Adapter := exampleAdapter) "Map<u32,f32>")) = inl rk ->
      getReflectedType (Adapter := exampleAdapter)
        (snd (GetMapSubtypes (Adapter := exampleAdapter) "Map<u32,f32>")) = inr e ->
      readMap (adapter := exampleAdapter) flagGuest "Map<u32,f32>" flagOffset =
        Err e).
Proof.
  apply (readMap_type_resolution_error (adapter := exampleAdapter) flagGuest
           "Map<u32,f32>" flagOffset (mkHeader 96 4 3 48)).
  - vm_compute. reflexivity.
  - discriminate.
Defined.

Example flagGuest_unknown_value_type :
  readMap (adapter := exampleAdapter) flagGuest "Map<u32,f32>" flagOffset =
  Err (ErrorfT "unknown type" (VString "f32")).
Proof. vm_compute. reflexivity. Qed.

(** The guest after an empty map was written to it; the header is at
    152. *)
Definition emptyGuest : World :=
  guestAfterWrite exampleWorld flagTyp (VMap (TInt false 32) TBool []).

(** X6, at the guest of an empty map. *)
Lemma readMap_empty_witness :
  readMap (adapter := exampleAdapter) emptyGuest flagTyp 152 =
  Ok (if Comparable (TInt false 32) then VMap (TInt false 32) TBool []
      else VStruct (mapDataType (TInt false 32) TBool)
             [VSlice (pairType (TInt false 32) TBool) []]).
Proof.
  apply (readMap_empty (adapter := exampleAdapter) emptyGuest flagTyp 152
           (mkHeader 96 4 0 48) (TInt false 32) TBool).
  - vm_compute. reflexivity.
  - discriminate.
  - reflexivity.
  - reflexivity.
  - reflexivity.
Defined.

(** The guest of [stringMap] with the key pointer of its second entry
    overwritten by an offset outside the memory. *)
Definition brokenGuest : World :=
  storeBytes (world stringFinalFrame) 108 (leEncode 4 5000).

(** X7, at [brokenGuest]: the first entry decodes, the key of the second
    does not. *)
Lemma readMap_entry_read_error_witness :
  readMap (adapter := exampleAdapter) brokenGuest stringTyp 182 =
  Err memoryFault.
Proof.
  apply (readMap_entry_read_error (adapter := exampleAdapter) brokenGuest
           stringTyp 182 1 (mkHeader 96 4 3 48) TString (TInt true 32)
           memoryFault).
  - vm_compute. reflexivity.
  - discriminate.
  - reflexivity.
  - reflexivity.
  - cbn. lia.
  - intros j Hj. assert (j = 0) as -> by lia.
    exists (VString "a"), (VInt true 32 5). vm_compute. repeat split; reflexivity.
  - left. vm_compute. reflexivity.
Defined.

(** X8, at the guest of [stringMap]. *)
Lemma readMap_native_map_wellformed_witness :
  exists m,
    stringMap = VMap TString (TInt true 32) m /\
    (List.length m <= Z.to_nat (hdrEntriesCount (mkHeader 96 4 3 48)))%nat /\
    typedMap TString (TInt true 32) m /\
    distinctKeys m.
Proof.
  apply (readMap_native_map_wellformed (adapter := exampleAdapter)
           (world stringFinalFrame) stringTyp 182 (mkHeader 96 4 3 48)
           TString (TInt true 32) stringMap).
  - vm_compute. reflexivity.
  - reflexivity.
  - reflexivity.
  - reflexivity.
  - vm_compute. reflexivity.
Defined.

(** X9, at the guest of [stringMap]. *)
Lemma readMap_last_entry_wins_witness :
  exists m decoded,
    stringMap = VMap TString (TInt true 32) m /\
    List.length decoded = Z.to_nat (hdrEntriesCount (mkHeader 96 4 3 48)) /\
    (forall j k v, nth_error decoded j = Some (k, v) ->
       entryDecodes (adapter := exampleAdapter) (world stringFinalFrame)
         (fst (GetMapSubtypes (Adapter := exampleAdapter) stringTyp))
         (snd (GetMapSubtypes (Adapter := exampleAdapter) stringTyp))
         (hdrEntries (mkHeader 96 4 3 48))
         (hdrByteLength (mkHeader 96 4 3 48) /
          hdrEntriesCapacity (mkHeader 96 4 3 48))
         (getSizeForOffset
            (fst (GetMapSubtypes (Adapter := exampleAdapter) stringTyp)))
         (Z.of_nat j) k v) /\
    forall key,
      MapIndex m key =
      match lastAssigned decoded key with
      | Some v => stored v
      | None => None
      end.
Proof.
  apply (readMap_last_entry_wins (adapter := exampleAdapter)
           (world stringFinalFrame) stringTyp 182 (mkHeader 96 4 3 48)
           TString (TInt true 32) stringMap).
  - vm_compute. reflexivity.
  - reflexivity.
  - reflexivity.
  - reflexivity.
  - vm_compute. reflexivity.
Defined.

(** A guest map whose second entry repeats the key of the first: the
    guest of [flagMap] with the key of its second entry overwritten by
    the key 1 of the first. *)
Definition duplicateGuest : World :=
  storeBytes flagGuest 108 (leEncode 4 1).

Example duplicateGuest_read :
  readMap (adapter := exampleAdapter) duplicateGuest flagTyp flagOffset =
  Ok (VMap (TInt false 32) TBool
        [ (VInt false 32 1, VBool false); (VInt false 32 9, VBool true) ]).
Proof. vm_compute. reflexivity. Qed.

(** The pairs [readMap] returns for [bufferGuest]. *)
Definition bufferPairs : HostValue :=
  VStruct (mapDataType (TSlice (TInt false 8)) (TInt true 32))
    [ VSlice (pairType (TSlice (TInt false 8)) (TInt true 32))
        [ VStruct (pairType (TSlice (TInt false 8)) (TInt true 32))
            [ VSlice (TInt false 8) [VInt false 8 1; VInt false 8 2];
              VInt true 32 7 ];
          VStruct (pairType (TSlice (TInt false 8)) (TInt true 32))
            [ VSlice (TInt false 8) [VInt false 8 3]; VInt true 32 8 ] ] ].

(** X10, at a guest map keyed by byte buffers. *)
Lemma readMap_pairs_in_entry_order_witness :
  exists pairs,
    bufferPairs =
      VStruct (mapDataType (TSlice (TInt false 8)) (TInt true 32))
        [VSlice (pairType (TSlice (TInt false 8)) (TInt true 32)) pairs] /\
    forall j, 0 <= j < hdrEntriesCount (mkHeader 96 4 2 48) ->
      exists k v,
        entryDecodes (adapter := exampleAdapter) bufferGuest
          (fst (GetMapSubtypes (Adapter := exampleAdapter) bufferTyp))
          (snd (GetMapSubtypes (Adapter := exampleAdapter) bufferTyp))
          (hdrEntries (mkHeader 96 4 2 48))
          (hdrByteLength (mkHeader 96 4 2 48) /
           hdrEntriesCapacity (mkHeader 96 4 2 48))
          (getSizeForOffset
             (fst (GetMapSubtypes (Adapter := exampleAdapter) bufferTyp)))
          j k v /\
        assignable k (TSlice (TInt false 8)) = true /\
        assignable v (TInt true 32) = true /\
        nth_error pairs (Z.to_nat j) =
          Some (VStruct (pairType (TSlice (TInt false 8)) (TInt true 32)) [k; v]).
Proof.
  apply (readMap_pairs_in_entry_order (adapter := exampleAdapter) bufferGuest
           bufferTyp bufferOffset (mkHeader 96 4 2 48)
           (TSlice (TInt false 8)) (TInt true 32) bufferPairs).
  - vm_compute. reflexivity.
  - reflexivity.
  - reflexivity.
  - reflexivity.
  - vm_compute. reflexivity.
Defined.

(** A guest with no room for the buckets buffer. *)
Definition tinyWorld : World := emptyWorld 70 64.

(** X11, at a guest with no room for the buckets buffer. *)
Lemma writeMap_setup_error_reported_witness :
  writeMap (adapter := exampleAdapter) tinyWorld flagTyp flagMap =
  Returned (mkFrame tinyWorld [] []) 0
    (Some (ErrorfW "failed to allocate memory for array buffer: %w"
             (Errorf "out of memory"))).
Proof.
  apply (proj1 (writeMap_setup_error_reported (adapter := exampleAdapter)
                  tinyWorld flagTyp (TInt false 32) TBool flagEntries
                  (mkCapacities 4 4 3) eq_refl)).
  reflexivity.
Defined.

(** The frame after the body of [writeMap] failed on [smallWorld], which
    has room for the buckets buffer only. *)
Definition smallBodyFrame : frame World :=
  fst (writeMapBody (adapter := exampleAdapter) flagTyp flagEntries
         (U32.wrap (Z.of_nat (List.length flagEntries)))
         (mkFrame smallWorld [] [])).

(** X12, at [smallWorld]: the entries buffer cannot be allocated. *)
Lemma writeMap_error_after_first_pin_witness :
  (exists d, pins smallBodyFrame = 72 :: d) /\
  writeMap (adapter := exampleAdapter) smallWorld flagTyp flagMap =
  Returned (fst (unpinAll (adapter := exampleAdapter) (pins smallBodyFrame)
                   smallBodyFrame None)) 0
           (snd (unpinAll (adapter := exampleAdapter) (pins smallBodyFrame)
                   smallBodyFrame None)) /\
  (forall f2,
      unpinAll (adapter := exampleAdapter) (pins smallBodyFrame)
        smallBodyFrame None = (f2, None) ->
      writeMap (adapter := exampleAdapter) smallWorld flagTyp flagMap =
      Returned f2 0 None).
Proof.
  apply (writeMap_error_after_first_pin (adapter := exampleAdapter)
           smallWorld (allocated smallWorld 16 1)
           (withPin (allocated smallWorld 16 1) 72)
           flagTyp (TInt false 32) TBool flagEntries (mkCapacities 4 4 3) 72
           smallBodyFrame
           (ErrorfW "failed to allocate memory for array buffer: %w"
              (Errorf "out of memory"))).
  - reflexivity.
  - reflexivity.
  - reflexivity.
  - vm_compute. reflexivity.
Defined.

(** The frames of the run of [writeMap] on [flagMap] on a guest whose
    unpin always fails. *)
Definition losingBodyFrame : frame World :=
  fst (writeMapBody (adapter := losingPins) flagTyp flagEntries
         (U32.wrap (Z.of_nat (List.length flagEntries)))
         (mkFrame exampleWorld [] [])).

Definition losingFinalFrame : frame World :=
  fst (unpinAll (adapter := losingPins) (pins losingBodyFrame)
         losingBodyFrame None).

(** X14, at a guest whose unpin always fails. *)
Lemma writeMap_cleanup_failure_witness :
  writeMap (adapter := losingPins) exampleWorld flagTyp
    (VMap (TInt false 32) TBool flagEntries) =
    Returned losingFinalFrame 152 (Some (Errorf "object is not pinned")) /\
  exists done p rest wm,
    pins losingBodyFrame = (done ++ p :: rest)%list /\
    unpinCalls (calls losingFinalFrame) = (done ++ [p])%list /\
    snd (unpinWasmMemory (Adapter := losingPins) wm p) =
      Some (Errorf "object is not pinned").
Proof.
  apply (writeMap_cleanup_failure (adapter := losingPins) exampleWorld flagTyp
           (TInt false 32) TBool flagEntries losingBodyFrame losingFinalFrame
           152 (Errorf "object is not pinned")).
  - vm_compute. reflexivity.
  - vm_compute. reflexivity.
Defined.

Example losingPins_run :
  pins losingFinalFrame = [72; 96] /\
  unpinCalls (calls losingFinalFrame) = [72] /\
  pinned (world losingFinalFrame) = [96; 72].
Proof. vm_compute. repeat split; reflexivity. Qed.

(** X16, at the map [stringMap] on [exampleWorld]. *)
Lemma writeMap_header_layout_witness :
  exists f off c,
    writeMap (adapter := adapter exampleCodec) exampleWorld stringTyp
      (VMap TString (TInt true 32) stringEntries) = Returned f off None /\
    determineCapacities (Z.of_nat (List.length stringEntries)) = Some c /\
    let bucketsBuffer := heapTop exampleWorld + 8 in
    let entriesBuffer := bucketsBuffer + 4 * bucketsCapacity c + 8 in
    heapTop (world f) =
      heapTop exampleWorld + mapSpace exampleCodec "string" "i32" stringEntries /\
    off + headerSize = heapTop (world f) /\
    read32 (world f) (off - 8) = Some mapTypeId /\
    read32 (world f) (off - 4) = Some headerSize /\
    read32 (world f) off = Some bucketsBuffer /\
    read32 (world f) (off + 4) = Some (bucketsMask c) /\
    read32 (world f) (off + 8) = Some entriesBuffer /\
    read32 (world f) (off + 12) = Some (entriesCapacity c) /\
    read32 (world f) (off + 16) = Some (Z.of_nat (List.length stringEntries)) /\
    read32 (world f) (off + 20) = Some (Z.of_nat (List.length stringEntries)) /\
    read32 (world f) (entriesBuffer - 4) =
      Some (slotSize "string" "i32" * entriesCapacity c).
Proof.
  apply (writeMap_header_layout exampleCodec stringTyp "string" "i32"
           TString (TInt true 32) stringEntries exampleWorld).
  - vm_compute. tauto.
  - vm_compute. tauto.
  - reflexivity.
  - exact stringEntries_typed.
  - vm_compute. discriminate.
  - vm_compute. discriminate.
  - vm_compute. discriminate.
  - intros p [].
  - vm_compute. discriminate.
Defined.

(** X17, at the map [stringMap] on [exampleWorld]. *)
Lemma writeMap_entries_layout_witness :
  exists f off c,
    writeMap (adapter := adapter exampleCodec) exampleWorld stringTyp
      (VMap TString (TInt true 32) stringEntries) = Returned f off None /\
    determineCapacities (Z.of_nat (List.length stringEntries)) = Some c /\
    let bucketsBuffer := heapTop exampleWorld + 8 in
    let entriesBuffer := bucketsBuffer + 4 * bucketsCapacity c + 8 in
    (forall j k v, nth_error stringEntries j = Some (k, v) ->
       let entryOffset := entriesBuffer + slotSize "string" "i32" * Z.of_nat j in
       loadField exampleCodec (world f) "string" entryOffset = inl k /\
       loadField exampleCodec (world f) "i32"
         (entryOffset + getSizeForOffset "string") = inl v) /\
    (forall x, 0 <= x < bucketsCapacity c ->
       exists head,
         read32 (world f) (bucketsBuffer + bucketSize * x) = Some head /\
         lastColliding exampleCodec (bucketsMask c) entriesBuffer
           (slotSize "string" "i32") stringEntries x head).
Proof.
  apply (writeMap_entries_layout exampleCodec stringTyp "string" "i32"
           TString (TInt true 32) stringEntries exampleWorld).
  - vm_compute. tauto.
  - vm_compute. tauto.
  - reflexivity.
  - exact stringEntries_typed.
  - vm_compute. discriminate.
  - vm_compute. discriminate.
  - vm_compute. discriminate.
  - intros p [].
  - vm_compute. discriminate.
Defined.

(** X19, at the map [stringMap] on [exampleWorld]. *)
Lemma writeMap_chain_layout_witness :
  exists f off c,
    writeMap (adapter := adapter exampleCodec) exampleWorld stringTyp
      (VMap TString (TInt true 32) stringEntries) = Returned f off None /\
    determineCapacities (Z.of_nat (List.length stringEntries)) = Some c /\
    let bucketsBuffer := heapTop exampleWorld + 8 in
    let entriesBuffer := bucketsBuffer + 4 * bucketsCapacity c + 8 in
    (forall j k v, nth_error stringEntries j = Some (k, v) ->
       let entryOffset := entriesBuffer + slotSize "string" "i32" * Z.of_nat j in
       exists next,
         read32 (world f) (entryOffset + nextSlot "string" "i32") = Some next /\
         lastColliding exampleCodec (bucketsMask c) entriesBuffer
           (slotSize "string" "i32") (firstn j stringEntries)
           (bucketOf exampleCodec (bucketsMask c) k) next) /\
    (forall x, 0 <= x < bucketsCapacity c ->
       exists head,
         read32 (world f) (bucketsBuffer + bucketSize * x) = Some head /\
         lastColliding exampleCodec (bucketsMask c) entriesBuffer
           (slotSize "string" "i32") stringEntries x head).
Proof.
  apply (writeMap_chain_layout exampleCodec stringTyp "string" "i32"
           TString (TInt true 32) stringEntries exampleWorld).
  - vm_compute. tauto.
  - vm_compute. tauto.
  - reflexivity.
  - exact stringEntries_typed.
  - vm_compute. discriminate.
  - vm_compute. discriminate.
  - vm_compute. discriminate.
  - intros p [].
  - vm_compute. discriminate.
  - vm_compute. reflexivity.
Defined.

(** A map from [u8] to [u8] whose three keys fall into bucket 1. *)
Definition byteTyp : string := "Map<u8,u8>".
Definition byteEntries : list (HostValue * HostValue) :=
  [ (VInt false 8 1, VInt false 8 10);
    (VInt false 8 5, VInt false 8 20);
    (VInt false 8 9, VInt false 8 30) ].
Definition byteMap : HostValue := VMap (TInt false 8) (TInt false 8) byteEntries.

(** The frame of the run of [writeMap] on [byteMap] after the first [n]
    iterations of the loop. *)
Definition byteFrameAfter (n : nat) : frame World :=
  match writeMapSetup (adapter := exampleAdapter) byteTyp
          (U32.wrap (Z.of_nat (List.length byteEntries)))
          (mkFrame exampleWorld [] []) with
  | (fs, Ok (lo, _)) =>
      fst (writeEntries (adapter := exampleAdapter) lo byteEntries 0
             (firstn n (MapKeys byteEntries)) fs)
  | (fs, _) => fs
  end.

(** C7, evaluated where the code departs from the claim.  For a map from
    [u8] to [u8] the entry size is 8 and the tagged-next offset is 8 as
    well, so the tagged-next word of an entry is the first word of the
    next entry.  The three keys of [byteMap] fall into bucket 1 and the
    entries lie at 96, 104 and 112.  Each insertion writes the bucket's
    head into the entry's tagged-next word (0, then 96, then 104), but the
    next insertion writes its key over that word: in the map [writeMap]
    returns, the words of the first two entries hold the keys 5 and 9, not
    0 and 96, and the chain from the bucket's head (112, then 104) ends in
    9 instead of leading to 96 and 0. *)
Theorem writeMap_small_entries_break_chain :
  entrySize (sizeOfType "u8") (sizeOfType "u8") = 8 /\
  U32.add (getSizeForOffset "u8") (getSizeForOffset "u8") = 8 /\
  map (fun kv => bucketOf exampleCodec 3 (fst kv)) byteEntries = [1; 1; 1] /\
  (read32 (world (byteFrameAfter 1)) (96 + 8) = Some 0 /\
   read32 (world (byteFrameAfter 2)) (104 + 8) = Some 96 /\
   read32 (world (byteFrameAfter 3)) (112 + 8) = Some 104) /\
  (read32 (world (byteFrameAfter 2)) (96 + 8) = Some 5 /\
   read32 (world (byteFrameAfter 3)) (104 + 8) = Some 9) /\
  exists f,
    writeMap (adapter := exampleAdapter) exampleWorld byteTyp byteMap =
      Returned f 136 None /\
    read32 (world f) (72 + 4 * 1) = Some 112 /\
    read32 (world f) (112 + 8) = Some 104 /\
    read32 (world f) (104 + 8) = Some 9 /\
    read32 (world f) (96 + 8) = Some 5.
Proof.
  split; [reflexivity|]. split; [reflexivity|]. split; [reflexivity|].
  split; [vm_compute; repeat split; reflexivity|].
  split; [vm_compute; repeat split; reflexivity|].
  eexists. split; [vm_compute; reflexivity|].
  vm_compute. repeat split; reflexivity.
Qed.

(** A guest that holds data below its heap top. *)
Definition usedWorld : World := storeBytes exampleWorld 16 [1; 2; 3; 4].

(** X18, at the map [stringMap] on [usedWorld]. *)
Lemma writeMap_leaves_old_memory_witness :
  exists f off,
    writeMap (adapter := adapter exampleCodec) usedWorld stringTyp
      (VMap TString (TInt true 32) stringEntries) = Returned f off None /\
    heapTop usedWorld < off /\
    memSize (world f) = memSize usedWorld /\
    forall x, x < heapTop usedWorld -> memByte (world f) x = memByte usedWorld x.
Proof.
  apply (writeMap_leaves_old_memory exampleCodec stringTyp "string" "i32"
           TString (TInt true 32) stringEntries usedWorld).
  - vm_compute. tauto.
  - vm_compute. tauto.
  - reflexivity.
  - exact stringEntries_typed.
  - vm_compute. discriminate.
  - vm_compute. discriminate.
  - vm_compute. discriminate.
  - intros p [].
  - vm_compute. discriminate.
Defined.

End MoreExamples.
